(** * Precision-loss analysis of the sGHO yield index

    A shallow embedding of [docs/precision_analysis/precision_loss_analysis.py].

    The script computes everything with Python's [decimal.Decimal] under the
    context set on its line 15 ([prec = 50], rounding [ROUND_HALF_EVEN]).  The
    first part of this file models that arithmetic on finite decimals
    (sign, coefficient, exponent) following the General Decimal Arithmetic
    rules that CPython implements: the exact result of an operation is
    rounded to [prec] significant digits, and an exact quotient is brought
    as close to its ideal exponent as it can be.

    What the embedding leaves out, and where it is faithful.  Exponents are
    unbounded integers: the limits of the default context ([Emax = 999999],
    [Emin = -999999]) are not modelled, so the embedding has no
    [decimal.Overflow] above [Emax] and no subnormal rounding or underflow to
    zero below [Emin]; decimals are finite (no [Infinity], no [NaN]); and the
    conversion [str(n)] of an int, which CPython refuses with [ValueError]
    beyond 4300 digits, is total.  The embedding therefore agrees with the
    script as long as every decimal that occurs stays far inside the
    exponent range and every int has fewer than 4300 digits.  The properties
    of the third part are stated on such inputs: rates below [10 ^ 26] basis
    points in absolute value, times and intervals below [10 ^ 16] seconds in
    absolute value, update loops whose rate times elapsed time is at most
    [10 ^ 16] (the index then stays below [10 ^ 14000]), and, where a
    property quantifies over decimals, decimals with exponent and adjusted
    exponent within 1000 of zero ([ordinary]).

    The second part embeds the functions of the script, one definition per
    function or per loop body, in an error monad that carries the Python
    exceptions the code can raise.  The third part states and proves the
    properties. *)

From Stdlib Require Import ZArith Bool List Lia Morphisms.
Import ListNotations.
Local Open Scope Z_scope.

(** ** Exceptions and the error monad *)

Inductive PyError : Type :=
| ZeroDivisionError   (* int // 0 *)
| DivisionByZero      (* decimal: x / 0 *)
| InvalidOperation    (* decimal: 0 / 0 *)
| OverflowError.      (* math.exp: math range error; int / int too large for a float *)

Inductive result (A : Type) : Type :=
| Ok (a : A)
| Raise (e : PyError).

Arguments Ok {A} a.
Arguments Raise {A} e.

Definition bind {A B : Type} (m : result A) (k : A -> result B) : result B :=
  match m with
  | Ok a => k a
  | Raise e => Raise e
  end.

Notation "x <- m ;; k" := (bind m (fun x => k))
  (at level 61, m at next level, right associativity).

(** Python's [a // b] on ints: floor division, [ZeroDivisionError] on [b = 0].
    [Z.div] rounds toward minus infinity like Python does. *)
Definition floordiv (a b : Z) : result Z :=
  if b =? 0 then Raise ZeroDivisionError else Ok (a / b).

(** ** decimal.Decimal under [getcontext().prec = 50] *)

Record Decimal : Type := mkDec { sign : bool; coeff : Z; exp : Z }.

(** A well-formed decimal has a non-negative coefficient ([_int] is a string
    of digits). *)
Definition wf (d : Decimal) : Prop := 0 <= coeff d.

(** line 15: [decimal.getcontext().prec = 50] *)
Definition prec : Z := 50.

(** [len(str(c))] for a non-negative integer [c]. *)
Fixpoint ndigits_fuel (fuel : nat) (c : Z) : Z :=
  match fuel with
  | O => 1
  | S f => if c <? 10 then 1 else 1 + ndigits_fuel f (c / 10)
  end.

Definition ndigits (c : Z) : Z := ndigits_fuel (Z.to_nat (Z.log2 c)) c.

(** [_round_half_even]: the coefficient [c] without its last [d] digits,
    rounded to nearest, ties to the even neighbour. *)
Definition round_half_even (c d : Z) : Z :=
  let q := c / 10 ^ d in
  let r := c mod 10 ^ d in
  match 2 * r ?= 10 ^ d with
  | Gt => q + 1
  | Eq => if Z.even q then q else q + 1
  | Lt => q
  end.

(** [Decimal._fix]: round to the context precision.  The branches of [_fix]
    on the exponent limits ([Overflow] when the rounded exponent exceeds
    [Etop], rounding to [Etiny] of a subnormal, clamping of the exponent of a
    zero) are left out; they are not reached by a decimal whose exponent is
    at least [Etiny = -1000048] and whose adjusted exponent is below
    [Emax = 999999]. *)
Definition Decimal_fix (d : Decimal) : Decimal :=
  if coeff d =? 0 then d
  else
    let exp_min := ndigits (coeff d) + exp d - prec in
    if exp d <? exp_min then
      let c := round_half_even (coeff d) (exp_min - exp d) in
      if ndigits c >? prec then mkDec (sign d) (c / 10) (exp_min + 1)
      else mkDec (sign d) c exp_min
    else d.

(** [Decimal(n)] and [Decimal(str(n))] for an int [n]: exact, no rounding.
    ([str(n)] raises [ValueError] when [n] has more than 4300 digits, the
    default limit of CPython 3.11 on int-to-string conversion; that limit is
    not modelled.) *)
Definition Decimal_of_int (n : Z) : Decimal := mkDec (n <? 0) (Z.abs n) 0.

(** [Decimal.adjusted()]: the exponent of the leading digit. *)
Definition adjusted (d : Decimal) : Z := exp d + ndigits (coeff d) - 1.

(** A decimal far inside the exponent range of the context: on such
    operands no operation of the script comes near [Emax] or [Emin]. *)
Definition ordinary (d : Decimal) : Prop :=
  0 <= coeff d /\ -1000 <= exp d /\ adjusted d <= 1000.

(** The signed coefficient, and the coefficient at a smaller exponent [m]. *)
Definition sval (d : Decimal) : Z := if sign d then - coeff d else coeff d.

Definition aligned (d : Decimal) (m : Z) : Z := sval d * 10 ^ (exp d - m).

(** [Decimal._cmp]: exact numerical comparison. *)
Definition Decimal_cmp (a b : Decimal) : comparison :=
  let m := Z.min (exp a) (exp b) in
  aligned a m ?= aligned b m.

(** [a <= b], [a < b] and [a == b] on decimals. *)
Definition Decimal_le (a b : Decimal) : bool :=
  match Decimal_cmp a b with Gt => false | _ => true end.

Definition Decimal_lt (a b : Decimal) : bool :=
  match Decimal_cmp a b with Lt => true | _ => false end.

Definition Decimal_eqb (a b : Decimal) : bool :=
  match Decimal_cmp a b with Eq => true | _ => false end.

(** Numerical equality as a proposition. *)
Definition deq (a b : Decimal) : Prop :=
  aligned a (Z.min (exp a) (exp b)) = aligned b (Z.min (exp a) (exp b)).

Infix "==d" := deq (at level 70, no associativity).

(** [Decimal.__mul__] *)
Definition mul_exact (a b : Decimal) : Decimal :=
  mkDec (xorb (sign a) (sign b)) (coeff a * coeff b) (exp a + exp b).

Definition Decimal_mul (a b : Decimal) : Decimal := Decimal_fix (mul_exact a b).

(** [Decimal.__add__]: the exact sum at the smaller exponent, then [_fix].
    The sign of a zero sum is negative only when both operands are negative
    zeros. *)
Definition add_exact (a b : Decimal) : Decimal :=
  let e := Z.min (exp a) (exp b) in
  let s := aligned a e + aligned b e in
  let sg := if s =? 0 then sign a && sign b else s <? 0 in
  mkDec sg (Z.abs s) e.

Definition Decimal_add (a b : Decimal) : Decimal := Decimal_fix (add_exact a b).

Definition copy_negate (a : Decimal) : Decimal :=
  mkDec (negb (sign a)) (coeff a) (exp a).

(** Multiplication by [10 ^ j], exact: [j] is added to the exponent.  (A
    notion of this development, used to state how rounding and the
    operations behave under rescaling; the script does not call it.) *)
Definition scaleb (d : Decimal) (j : Z) : Decimal :=
  mkDec (sign d) (coeff d) (exp d + j).

(** [Decimal.__sub__] *)
Definition Decimal_sub (a b : Decimal) : Decimal :=
  Decimal_add a (copy_negate b).

(** [Decimal.__abs__] *)
Definition Decimal_abs (a : Decimal) : Decimal :=
  Decimal_fix (mkDec false (coeff a) (exp a)).

(** The loop of [__truediv__] on an exact quotient:
    [while exp < ideal_exp and coeff % 10 == 0: coeff //= 10; exp += 1],
    with [n = ideal_exp - exp] iterations left. *)
Fixpoint strip_zeros (n : nat) (c e : Z) : Z * Z :=
  match n with
  | O => (c, e)
  | S n' => if c mod 10 =? 0 then strip_zeros n' (c / 10) (e + 1) else (c, e)
  end.

(** The operands of [divmod] in [__truediv__]:
    [divmod(op1.int * 10**shift, op2.int)] when [shift >= 0],
    [divmod(op1.int, op2.int * 10**-shift)] otherwise. *)
Definition div_num (ca shift : Z) : Z := if 0 <=? shift then ca * 10 ^ shift else ca.

Definition div_den (cb shift : Z) : Z := if 0 <=? shift then cb else cb * 10 ^ (- shift).

(** The quotient of two non-zero decimals before [_fix]: [prec + 2] digits of
    quotient, a sticky last digit when the division is inexact. *)
Definition div_nonzero (a b : Decimal) : Decimal :=
  let shift := ndigits (coeff b) - ndigits (coeff a) + prec + 1 in
  let e := exp a - exp b - shift in
  let q := div_num (coeff a) shift / div_den (coeff b) shift in
  let r := div_num (coeff a) shift mod div_den (coeff b) shift in
  let sg := xorb (sign a) (sign b) in
  if r =? 0 then
    let ideal_exp := exp a - exp b in
    let (c', e') := strip_zeros (Z.to_nat (ideal_exp - e)) q e in
    mkDec sg c' e'
  else
    mkDec sg (if q mod 5 =? 0 then q + 1 else q) e.

(** The quotient by a non-zero divisor. *)
Definition quotient (a b : Decimal) : Decimal :=
  Decimal_fix
    (if coeff a =? 0 then mkDec (xorb (sign a) (sign b)) 0 (exp a - exp b)
     else div_nonzero a b).

(** [Decimal.__truediv__], with the traps of the default context:
    [x / 0] raises [DivisionByZero], [0 / 0] raises [InvalidOperation]. *)
Definition Decimal_truediv (a b : Decimal) : result Decimal :=
  if coeff b =? 0 then
    if coeff a =? 0 then Raise InvalidOperation else Raise DivisionByZero
  else Ok (quotient a b).

(** ** Constants of the script (lines 18-20) *)

Definition RAY : Decimal := mkDec false 1 27.                  (* Decimal('1e27') *)
Definition DAYS_IN_YEAR : Decimal := mkDec false 365 0.        (* Decimal('365') *)
Definition SECONDS_IN_YEAR : Decimal := mkDec false 31536000 0. (* Decimal('31536000') *)
Definition D10000 : Decimal := mkDec false 10000 0.            (* Decimal('10000') *)
Definition D1 : Decimal := mkDec false 1 0.                    (* Decimal('1') *)
Definition D0 : Decimal := mkDec false 0 0.                    (* Decimal('0') *)

(** ** The functions of the script *)

(** lines 22-42 *)
Definition calculate_linear_growth_factor (rate_bps time_seconds : Z) : result Decimal :=
  rate_decimal <- Decimal_truediv (Decimal_of_int rate_bps) D10000 ;;
  rate_per_second <- Decimal_truediv rate_decimal SECONDS_IN_YEAR ;;
  Ok (Decimal_add D1 (Decimal_mul rate_per_second (Decimal_of_int time_seconds))).

(** lines 67-84 *)
Definition calculate_precision_loss (linear_factor continuous_factor : Decimal)
  : result Decimal :=
  if Decimal_le continuous_factor linear_factor then Ok D0
  else
    let difference := Decimal_sub continuous_factor linear_factor in
    q <- Decimal_truediv difference D1 ;;
    Ok (Decimal_mul q D10000).

(** lines 105-106: the "contract" rate per second of
    [analyze_contract_rate_per_second_calculation]; the same two lines open
    every "contract" computation of the script (149-150, 197-198, 237-238). *)
Definition contract_rate_per_second (rate_bps : Z) : result Decimal :=
  contract_annual_rate_ray <-
    Decimal_truediv (Decimal_mul (Decimal_of_int rate_bps) RAY) D10000 ;;
  Decimal_truediv contract_annual_rate_ray SECONDS_IN_YEAR.

(** line 109 (and 155, 204, 244): the "exact" rate per second. *)
Definition exact_rate_per_second (rate_bps : Z) : result Decimal :=
  a <- Decimal_truediv (Decimal_of_int rate_bps) D10000 ;;
  b <- Decimal_truediv a SECONDS_IN_YEAR ;;
  Ok (Decimal_mul b RAY).

(** lines 112, 160, 210, 250: [abs(exact - contract) / RAY * Decimal('10000')] *)
Definition abs_loss_bps (exact contract : Decimal) : result Decimal :=
  q <- Decimal_truediv (Decimal_abs (Decimal_sub exact contract)) RAY ;;
  Ok (Decimal_mul q D10000).


(** [a / b] on ints with [b > 0] (true division, a float): CPython rounds
    the quotient correctly and raises [OverflowError] ("integer division
    result too large for a float") when the rounded quotient is beyond the
    largest double [2^1024 - 2^971], that is when
    [|a| / b >= 2^1024 - 2^970].  The float itself is only printed. *)
Definition int_truediv_check (a b : Z) : result unit :=
  if (2 ^ 1024 - 2 ^ 970) * b <=? Z.abs a then Raise OverflowError else Ok tt.

(** lines 99-112: one row of [analyze_contract_rate_per_second_calculation]:
    contract rate, exact rate, precision loss ([apr_percent] of line 100 is
    only printed, but computing it can raise). *)
Definition rate_per_second_row (rate_bps : Z) : result (Decimal * Decimal * Decimal) :=
  _ <- int_truediv_check rate_bps 100 ;;
  contract_rate_per_second <- contract_rate_per_second rate_bps ;;
  exact_rate_per_second <- exact_rate_per_second rate_bps ;;
  precision_loss <- abs_loss_bps exact_rate_per_second contract_rate_per_second ;;
  Ok (contract_rate_per_second, exact_rate_per_second, precision_loss).

(** line 94 *)
Definition rates_to_test : list Z := [100; 500; 1000; 2000; 3000; 4000; 5000].

(** lines 149-152 (and 197-200, 237-240): the "contract" growth factor. *)
Definition contract_growth_factor (rate_bps time_seconds : Z) : result Decimal :=
  contract_rate_per_second <- contract_rate_per_second rate_bps ;;
  let contract_accumulated_rate :=
    Decimal_mul contract_rate_per_second (Decimal_of_int time_seconds) in
  Ok (Decimal_add RAY contract_accumulated_rate).

(** lines 155-157 (and 204-206, 244-246): the "exact" growth factor. *)
Definition exact_growth_factor (rate_bps time_seconds : Z) : result Decimal :=
  exact_rate_per_second <- exact_rate_per_second rate_bps ;;
  let exact_accumulated_rate :=
    Decimal_mul exact_rate_per_second (Decimal_of_int time_seconds) in
  Ok (Decimal_add RAY exact_accumulated_rate).

(** lines 142-160: one row of [analyze_yield_index_update_precision]. *)
Definition yield_index_update_row (rate_bps time_seconds : Z)
  : result (Decimal * Decimal * Decimal) :=
  contract_growth_factor <- contract_growth_factor rate_bps time_seconds ;;
  exact_growth_factor <- exact_growth_factor rate_bps time_seconds ;;
  precision_loss <- abs_loss_bps exact_growth_factor contract_growth_factor ;;
  Ok (contract_growth_factor, exact_growth_factor, precision_loss).

(** lines 201 and 207: [index * growth_factor / RAY]. *)
Definition update_index (yield_index growth_factor : Decimal) : result Decimal :=
  Decimal_truediv (Decimal_mul yield_index growth_factor) RAY.

(** lines 196-207: the body of the update loop on the pair
    (contract_yield_index, exact_yield_index). *)
Definition cumulative_step (rate_bps update_interval : Z) (st : Decimal * Decimal)
  : result (Decimal * Decimal) :=
  contract_growth_factor <- contract_growth_factor rate_bps update_interval ;;
  contract_yield_index <- update_index (fst st) contract_growth_factor ;;
  exact_growth_factor <- exact_growth_factor rate_bps update_interval ;;
  exact_yield_index <- update_index (snd st) exact_growth_factor ;;
  Ok (contract_yield_index, exact_yield_index).

(** [for _ in range(n): st = body(st)] *)
Fixpoint for_range {S : Type} (n : nat) (body : S -> result S) (st : S) : result S :=
  match n with
  | O => Ok st
  | Datatypes.S n' => st' <- body st ;; for_range n' body st'
  end.

(** lines 188-210: one row of [analyze_cumulative_yield_index_precision]:
    update count, final contract index, final exact index, cumulative loss.
    [range] of a negative count is empty. *)
Definition cumulative_row (rate_bps total_time update_interval : Z)
  : result (Z * Decimal * Decimal * Decimal) :=
  updates_count <- floordiv total_time update_interval ;;
  st <- for_range (Z.to_nat updates_count)
          (cumulative_step rate_bps update_interval) (RAY, RAY) ;;
  cumulative_precision_loss <- abs_loss_bps (snd st) (fst st) ;;
  Ok (updates_count, fst st, snd st, cumulative_precision_loss).

(** lines 235-250: one row of [analyze_extreme_yield_index_scenarios]. *)
Definition extreme_row (rate_bps time_seconds : Z)
  : result (Decimal * Decimal * Decimal) :=
  contract_growth_factor <- contract_growth_factor rate_bps time_seconds ;;
  contract_final_index <- update_index RAY contract_growth_factor ;;
  exact_growth_factor <- exact_growth_factor rate_bps time_seconds ;;
  exact_final_index <- update_index RAY exact_growth_factor ;;
  precision_loss <- abs_loss_bps exact_final_index contract_final_index ;;
  Ok (contract_final_index, exact_final_index, precision_loss).

(** lines 265-285: growth factors recorded from the contract's tests, in RAY
    units: (rate, period, growth factor). *)
Definition contract_data : list (Z * Z * Z) :=
  [ (1000, 1, 1000000003170979198376458650);
    (1000, 60, 1000000190258751902587519000);
    (1000, 3600, 1000011415525114155251140000);
    (1000, 86400, 1000273972602739726027360000);
    (1000, 604800, 1001917808219178082191520000);
    (1000, 2592000, 1008219178082191780820800000);
    (2500, 1, 1000000007927447995941146626);
    (2500, 60, 1000000475646879756468797560);
    (2500, 3600, 1000028538812785388127853600);
    (2500, 86400, 1000684931506849315068486400);
    (2500, 604800, 1004794520547945205479404800);
    (2500, 2592000, 1020547945205479452054592000);
    (5000, 1, 1000000015854895991882293252);
    (5000, 60, 1000000951293759512937595120);
    (5000, 3600, 1000057077625570776255707200);
    (5000, 86400, 1001369863013698630136972800);
    (5000, 604800, 1009589041095890410958809600);
    (5000, 2592000, 1041095890410958904109184000) ].

(** lines 396-404 of [analyze_update_frequency_impact]: the update count and
    the cumulative linear factor. *)
Definition update_frequency_linear (rate_bps total_time interval : Z)
  : result (Z * Decimal) :=
  updates_count <-
    (if interval >? 0 then floordiv total_time interval else Ok 1) ;;
  cumulative_linear_factor <-
    for_range (Z.to_nat updates_count)
      (fun cumulative_linear_factor =>
         update_linear_factor <- calculate_linear_growth_factor rate_bps interval ;;
         Ok (Decimal_mul cumulative_linear_factor update_linear_factor))
      D1 ;;
  Ok (updates_count, cumulative_linear_factor).

(** ** The values of the two arithmetic paths

    Every divisor of the script is a non-zero constant, so no "contract" or
    "exact" computation can raise; these are the decimals they return. *)
Definition contract_rps_value (rate_bps : Z) : Decimal :=
  quotient (quotient (Decimal_mul (Decimal_of_int rate_bps) RAY) D10000) SECONDS_IN_YEAR.

Definition exact_rps_value (rate_bps : Z) : Decimal :=
  Decimal_mul (quotient (quotient (Decimal_of_int rate_bps) D10000) SECONDS_IN_YEAR) RAY.

Definition contract_gf_value (rate_bps time_seconds : Z) : Decimal :=
  Decimal_add RAY (Decimal_mul (contract_rps_value rate_bps) (Decimal_of_int time_seconds)).

Definition exact_gf_value (rate_bps time_seconds : Z) : Decimal :=
  Decimal_add RAY (Decimal_mul (exact_rps_value rate_bps) (Decimal_of_int time_seconds)).

Definition linear_rps_value (rate_bps : Z) : Decimal :=
  quotient (quotient (Decimal_of_int rate_bps) D10000) SECONDS_IN_YEAR.

Definition abs_loss_value (exact contract : Decimal) : Decimal :=
  Decimal_mul (quotient (Decimal_abs (Decimal_sub exact contract)) RAY) D10000.

(** ** The double-precision part: [math.exp(float(x))]

    Line 63 leaves decimal arithmetic: the exponent is converted to a Python
    float (an IEEE 754 binary64), [math.exp] of the C library is applied, and
    the result comes back through [str].  None of the three is part of the
    script; they are the parameters of the embedding.  The result is a
    finite decimal: this covers every exponent whose [float] is finite
    ([math.exp] of a finite double is a finite double or raises
    [OverflowError]); for an exponent beyond the double range, about
    [1.8e308], [float] gives [inf] and the script would get
    [Decimal('Infinity')], which is outside the embedding. *)
Record FloatLib : Type := mkFloatLib {
  pyfloat : Type;
  float_of_Decimal : Decimal -> pyfloat;         (* float(d) *)
  math_exp : pyfloat -> result pyfloat;          (* math.exp(x), may raise OverflowError *)
  Decimal_of_float_str : pyfloat -> Decimal      (* Decimal(str(x)) *)
}.

(** lines 44-65 *)
Definition calculate_continuous_compounding_factor (F : FloatLib)
  (rate_bps time_seconds : Z) : result Decimal :=
  rate_decimal <- Decimal_truediv (Decimal_of_int rate_bps) D10000 ;;
  rate_per_second <- Decimal_truediv rate_decimal SECONDS_IN_YEAR ;;
  let exponent := Decimal_mul rate_per_second (Decimal_of_int time_seconds) in
  x <- math_exp F (float_of_Decimal F exponent) ;;
  Ok (Decimal_of_float_str F x).

(** lines 343-345 (and 369-371, 434-436, 463-465): linear factor, continuous
    factor and the loss between them. *)
Definition linear_vs_continuous_row (F : FloatLib) (rate_bps time_seconds : Z)
  : result (Decimal * Decimal * Decimal) :=
  linear_factor <- calculate_linear_growth_factor rate_bps time_seconds ;;
  continuous_factor <- calculate_continuous_compounding_factor F rate_bps time_seconds ;;
  precision_loss <- calculate_precision_loss linear_factor continuous_factor ;;
  Ok (linear_factor, continuous_factor, precision_loss).

(** lines 394-410: one row of [analyze_update_frequency_impact]. *)
Definition update_frequency_row (F : FloatLib) (rate_bps total_time interval : Z)
  : result (Z * Decimal * Decimal * Decimal) :=
  lin <- update_frequency_linear rate_bps total_time interval ;;
  theoretical_continuous_factor <-
    calculate_continuous_compounding_factor F rate_bps total_time ;;
  precision_loss <- calculate_precision_loss (snd lin) theoretical_continuous_factor ;;
  Ok (fst lin, snd lin, theoretical_continuous_factor, precision_loss).

(** What the C standard (Annex F) and Python's [repr] fix for the path through
    zero: [float] of a decimal zero is [0.0] or [-0.0], [exp] of either is
    [1.0], and [str(1.0)] is ['1.0']. *)
Definition exp_of_zero_is_one (F : FloatLib) : Prop :=
  forall d, coeff d = 0 ->
    (x <- math_exp F (float_of_Decimal F d) ;; Ok (Decimal_of_float_str F x))
    = Ok (mkDec false 10 (-1)).

(** A float library to run the model with: floats are decimals, [exp] is
    exact at zero and its first-order polynomial elsewhere, and [str] writes
    at least one digit after the point, as Python does ([str(1.0) = '1.0']). *)
Definition series_floats : FloatLib :=
  {| pyfloat := Decimal;
     float_of_Decimal := fun d => d;
     math_exp := fun x => if coeff x =? 0 then Ok D1 else Ok (Decimal_add D1 x);
     Decimal_of_float_str := fun x =>
       if 0 <=? exp x then mkDec (sign x) (coeff x * 10 ^ (exp x + 1)) (-1) else x |}.

(** ** The on-chain arithmetic, as the specification words it

    [floor(floor(rateBasisPoints * RAY / 10000) / secondsPerYear)],
    [RAY + ratePerSecond * elapsedSeconds] and
    [floor(currentIndex * growthFactor / RAY)] on integers. *)
Definition RAY_int : Z := 10 ^ 27.
Definition secondsPerYear : Z := 365 * 86400.

Definition spec_ratePerSecond (rateBasisPoints : Z) : Z :=
  (rateBasisPoints * RAY_int / 10000) / secondsPerYear.

Definition spec_growthFactor (ratePerSecond elapsedSeconds : Z) : Z :=
  RAY_int + ratePerSecond * elapsedSeconds.

Definition spec_nextIndex (currentIndex growthFactor : Z) : Z :=
  currentIndex * growthFactor / RAY_int.

(** A decimal that is an integer: no digit after the decimal point. *)
Definition is_integer (d : Decimal) : bool :=
  (0 <=? exp d) || (coeff d mod 10 ^ (- exp d) =? 0).

(** ** Further rows of the script *)

(** lines 290-298: one row of [analyze_contract_linear_growth_factors]: the
    recorded contract factor brought to decimal, the Python linear factor,
    and their difference in basis points. *)
Definition contract_linear_row (rate_bps period_sec contract_growth_factor_ray : Z)
  : result (Decimal * Decimal * Decimal) :=
  contract_growth_factor <-
    Decimal_truediv (Decimal_of_int contract_growth_factor_ray) RAY ;;
  python_growth_factor <- calculate_linear_growth_factor rate_bps period_sec ;;
  let difference_bps :=
    Decimal_mul (Decimal_abs (Decimal_sub contract_growth_factor python_growth_factor))
                D10000 in
  Ok (contract_growth_factor, python_growth_factor, difference_bps).

(** lines 402-404: the body of the loop of [analyze_update_frequency_impact]. *)
Definition update_frequency_step (rate_bps interval : Z) (cumulative_linear_factor : Decimal)
  : result Decimal :=
  update_linear_factor <- calculate_linear_growth_factor rate_bps interval ;;
  Ok (Decimal_mul cumulative_linear_factor update_linear_factor).

(** ** Values of decimals *)

(** The largest integer not above a decimal. *)
Definition Decimal_floor (d : Decimal) : Z :=
  if 0 <=? exp d then sval d * 10 ^ exp d else sval d / 10 ^ (- exp d).

(** What [_fix] makes of a coefficient [c], written at the exponent it came
    with: [c] itself when it fits, else its [prec] leading digits, rounded,
    followed by zeros. *)
Definition round_coeff (c : Z) : Z :=
  if ndigits c <=? prec then c
  else round_half_even c (ndigits c - prec) * 10 ^ (ndigits c - prec).

(** The same on signed coefficients: rounding is symmetric in the sign. *)
Definition sround (x : Z) : Z := if x <? 0 then - round_coeff (- x) else round_coeff x.

(** * Properties of the decimal arithmetic *)

(** ** Powers of ten and digit counts *)

Lemma pow10_pos (k : Z) : 0 <= k -> 0 < 10 ^ k.
Proof. intros; apply Z.pow_pos_nonneg; lia. Qed.

Lemma pow10_S (k : Z) : 0 <= k -> 10 ^ (k + 1) = 10 * 10 ^ k.
Proof. intros; rewrite Z.pow_add_r by lia; lia. Qed.

Lemma pow10_split (a b : Z) : 0 <= a -> 0 <= b -> 10 ^ (a + b) = 10 ^ a * 10 ^ b.
Proof. intros; apply Z.pow_add_r; lia. Qed.

Lemma pow10_le (a b : Z) : 0 <= a <= b -> 10 ^ a <= 10 ^ b.
Proof. intros; apply Z.pow_le_mono_r; lia. Qed.

Lemma pow10_lt (a b : Z) : 0 <= a < b -> 10 ^ a < 10 ^ b.
Proof. intros; apply Z.pow_lt_mono_r; lia. Qed.

Lemma ndigits_fuel_spec (fuel : nat) :
  forall c, 0 < c < 2 ^ (Z.of_nat fuel + 1) ->
    1 <= ndigits_fuel fuel c /\
    10 ^ (ndigits_fuel fuel c - 1) <= c < 10 ^ ndigits_fuel fuel c.
Proof.
  induction fuel as [|f IH]; intros c Hc.
  - simpl in *. change (2 ^ 1) with 2 in Hc. lia.
  - cbn [ndigits_fuel]. destruct (Z.ltb_spec c 10) as [Hlt|Hge].
    + change (10 ^ (1 - 1)) with 1. change (10 ^ 1) with 10. lia.
    + assert (Hq : 0 < c / 10 < 2 ^ (Z.of_nat f + 1)).
      { split.
        - apply Z.div_str_pos; lia.
        - apply Z.div_lt_upper_bound; [lia|].
          replace (Z.of_nat (S f) + 1) with (Z.of_nat f + 1 + 1) in Hc by lia.
          rewrite Z.pow_add_r in Hc by lia. change (2 ^ 1) with 2 in Hc.
          assert (0 < 2 ^ (Z.of_nat f + 1)) by (apply Z.pow_pos_nonneg; lia).
          lia. }
      destruct (IH _ Hq) as [H1 [Hlo Hhi]].
      set (n := ndigits_fuel f (c / 10)) in *.
      pose proof (Z.div_mod c 10 ltac:(lia)) as Hdm.
      pose proof (Z.mod_pos_bound c 10 ltac:(lia)) as Hm.
      replace (1 + n - 1) with (n - 1 + 1) by lia.
      replace (1 + n) with (n + 1) by lia.
      rewrite !pow10_S by lia.
      split; [lia|]. split; lia.
Qed.

Lemma ndigits_spec (c : Z) :
  0 < c -> 1 <= ndigits c /\ 10 ^ (ndigits c - 1) <= c < 10 ^ ndigits c.
Proof.
  intros Hc. unfold ndigits. apply ndigits_fuel_spec.
  rewrite Z2Nat.id by apply Z.log2_nonneg.
  pose proof (Z.log2_spec c Hc). replace (Z.log2 c + 1) with (Z.succ (Z.log2 c)) by lia.
  lia.
Qed.

Lemma ndigits_unique (c n : Z) :
  1 <= n -> 10 ^ (n - 1) <= c < 10 ^ n -> ndigits c = n.
Proof.
  intros Hn [Hlo Hhi].
  assert (Hc : 0 < c) by (pose proof (pow10_pos (n - 1)); lia).
  destruct (ndigits_spec c Hc) as [H1 [Hlo' Hhi']].
  destruct (Z.lt_trichotomy (ndigits c) n) as [Hlt|[Heq|Hgt]]; [|exact Heq|].
  - pose proof (pow10_le (ndigits c) (n - 1) ltac:(lia)). lia.
  - pose proof (pow10_le n (ndigits c - 1) ltac:(lia)). lia.
Qed.

Lemma ndigits_mul_pow10 (c k : Z) :
  0 < c -> 0 <= k -> ndigits (c * 10 ^ k) = ndigits c + k.
Proof.
  intros Hc Hk. destruct (ndigits_spec c Hc) as [H1 [Hlo Hhi]].
  pose proof (pow10_pos k Hk).
  apply ndigits_unique; [lia|].
  replace (ndigits c + k - 1) with (ndigits c - 1 + k) by lia.
  rewrite !pow10_split by lia. split; nia.
Qed.

Lemma ndigits_le_iff (c n : Z) : 0 < c -> 0 <= n -> (ndigits c <= n <-> c < 10 ^ n).
Proof.
  intros Hc Hn. destruct (ndigits_spec c Hc) as [H1 [Hlo Hhi]]. split; intros H.
  - pose proof (pow10_le (ndigits c) n ltac:(lia)). lia.
  - destruct (Z.le_gt_cases (ndigits c) n) as [|Hgt]; [assumption|].
    pose proof (pow10_le n (ndigits c - 1) ltac:(lia)). lia.
Qed.

(** ** Numerical equality *)

Lemma aligned_lower (d : Decimal) (m m' : Z) :
  m' <= m -> m <= exp d -> aligned d m' = aligned d m * 10 ^ (m - m').
Proof.
  intros H1 H2. unfold aligned.
  replace (exp d - m') with ((exp d - m) + (m - m')) by lia.
  rewrite pow10_split by lia. lia.
Qed.

Lemma deq_at (a b : Decimal) (m : Z) :
  m <= exp a -> m <= exp b -> (a ==d b <-> aligned a m = aligned b m).
Proof.
  intros Ha Hb. unfold deq. set (m0 := Z.min (exp a) (exp b)).
  rewrite (aligned_lower a m0 m), (aligned_lower b m0 m) by lia.
  pose proof (pow10_pos (m0 - m) ltac:(lia)).
  split; intros H0; [now rewrite H0|].
  apply Z.mul_cancel_r in H0; [assumption|lia].
Qed.

Lemma deq_refl (a : Decimal) : a ==d a.
Proof. reflexivity. Qed.

Lemma deq_sym (a b : Decimal) : a ==d b -> b ==d a.
Proof. unfold deq. rewrite (Z.min_comm (exp b)). auto. Qed.

Lemma deq_trans (a b c : Decimal) : a ==d b -> b ==d c -> a ==d c.
Proof.
  intros H1 H2. set (m := Z.min (exp a) (Z.min (exp b) (exp c))).
  apply (deq_at a b m) in H1; [|lia|lia].
  apply (deq_at b c m) in H2; [|lia|lia].
  apply (deq_at a c m); [lia|lia|congruence].
Qed.

#[export] Instance deq_Equivalence : Equivalence deq.
Proof.
  split; [exact deq_refl | exact deq_sym | exact deq_trans].
Qed.

Lemma Decimal_eqb_deq (a b : Decimal) : Decimal_eqb a b = true <-> a ==d b.
Proof.
  unfold Decimal_eqb, Decimal_cmp, deq.
  destruct (Z.compare_spec (aligned a (Z.min (exp a) (exp b)))
                           (aligned b (Z.min (exp a) (exp b)))); split; intros; try lia; try discriminate; auto.
Qed.

(** A zero is a decimal whose coefficient is 0; all zeros are equal. *)
Lemma sval_zero (d : Decimal) : coeff d = 0 -> sval d = 0.
Proof. unfold sval; intros ->; destruct (sign d); reflexivity. Qed.

Lemma sval_eq_0 (d : Decimal) : sval d = 0 -> coeff d = 0.
Proof. unfold sval; destruct (sign d); lia. Qed.

Lemma deq_zero (a b : Decimal) : coeff a = 0 -> coeff b = 0 -> a ==d b.
Proof. intros Ha Hb. unfold deq, aligned. rewrite !sval_zero by assumption. reflexivity. Qed.

Lemma deq_zero_l (a b : Decimal) : a ==d b -> coeff a = 0 -> coeff b = 0.
Proof.
  unfold deq, aligned. intros H Ha. rewrite (sval_zero a Ha) in H.
  apply sval_eq_0. symmetry in H. simpl in H.
  apply Z.mul_eq_0 in H. destruct H as [H|H]; [assumption|].
  pose proof (pow10_pos (exp b - Z.min (exp a) (exp b)) ltac:(lia)). lia.
Qed.

Lemma deq_scale (s : bool) (c e j : Z) :
  0 <= j -> mkDec s (c * 10 ^ j) e ==d mkDec s c (e + j).
Proof.
  intros Hj. apply (deq_at _ _ e); cbn [exp]; [lia|lia|].
  unfold aligned, sval; cbn [sign coeff exp].
  replace (e - e) with 0 by lia. replace (e + j - e) with j by lia.
  change (10 ^ 0) with 1. destruct s; lia.
Qed.

Lemma deq_cases (a b : Decimal) :
  wf a -> wf b -> a ==d b -> exp a <= exp b -> coeff a <> 0 ->
  sign a = sign b /\ coeff a = coeff b * 10 ^ (exp b - exp a).
Proof.
  unfold wf. intros Ha Hb H Hle Hnz.
  apply (deq_at a b (exp a)) in H; [|lia|lia].
  unfold aligned, sval in H. replace (exp a - exp a) with 0 in H by lia.
  change (10 ^ 0) with 1 in H.
  pose proof (pow10_pos (exp b - exp a) ltac:(lia)) as HP.
  destruct (sign a), (sign b); split; try reflexivity; try nia.
Qed.

(** ** Rounding to the context precision *)

Lemma round_half_even_scale (c d k : Z) :
  0 <= d -> 0 <= k -> round_half_even (c * 10 ^ k) (d + k) = round_half_even c d.
Proof.
  intros Hd Hk. unfold round_half_even.
  pose proof (pow10_pos d Hd). pose proof (pow10_pos k Hk).
  rewrite pow10_split by lia.
  rewrite Z.div_mul_cancel_r by lia.
  rewrite Z.mul_mod_distr_r by lia.
  replace (2 * (c mod 10 ^ d * 10 ^ k)) with (2 * (c mod 10 ^ d) * 10 ^ k) by lia.
  rewrite <- (Zmult_compare_compat_r _ _ (10 ^ k)) by lia. reflexivity.
Qed.

Lemma round_half_even_exact (c d : Z) :
  0 <= d -> round_half_even (c * 10 ^ d) d = c.
Proof.
  intros Hd. unfold round_half_even. pose proof (pow10_pos d Hd).
  rewrite Z.div_mul by lia. rewrite Z.mod_mul by lia.
  destruct (Z.compare_spec (2 * 0) (10 ^ d)); lia.
Qed.

Lemma round_half_even_bounds (c d : Z) :
  0 <= d -> c / 10 ^ d <= round_half_even c d <= c / 10 ^ d + 1.
Proof.
  intros Hd. unfold round_half_even.
  destruct (2 * (c mod 10 ^ d) ?= 10 ^ d); [destruct (Z.even _)| |]; lia.
Qed.

(** The coefficient kept by [_fix] when [c] has more than [prec] digits. *)
Lemma round_to_prec_bounds (c : Z) :
  0 < c -> prec < ndigits c ->
  10 ^ (prec - 1) <= round_half_even c (ndigits c - prec) <= 10 ^ prec.
Proof.
  intros Hc HL. destruct (ndigits_spec c Hc) as [_ [Hlo Hhi]].
  set (d := ndigits c - prec) in *.
  pose proof (round_half_even_bounds c d ltac:(lia)) as Hb.
  pose proof (pow10_pos d ltac:(lia)) as HP.
  assert (Hq : 10 ^ (prec - 1) <= c / 10 ^ d < 10 ^ prec).
  { split.
    - apply Z.div_le_lower_bound; [lia|].
      rewrite Z.mul_comm, <- pow10_split by (unfold prec; lia).
      replace (prec - 1 + d) with (ndigits c - 1) by lia. exact Hlo.
    - apply Z.div_lt_upper_bound; [lia|].
      rewrite <- pow10_split by (unfold prec; lia).
      replace (d + prec) with (ndigits c) by lia. exact Hhi. }
  lia.
Qed.

Lemma ndigits_pow10 (n : Z) : 0 <= n -> ndigits (10 ^ n) = n + 1.
Proof.
  intros Hn. apply ndigits_unique; [lia|].
  replace (n + 1 - 1) with n by lia. split; [lia|]. apply pow10_lt; lia.
Qed.

Lemma fix_sign (d : Decimal) : sign (Decimal_fix d) = sign d.
Proof.
  unfold Decimal_fix. destruct (coeff d =? 0); [reflexivity|].
  destruct (_ <? _); [|reflexivity]. destruct (_ >? _); reflexivity.
Qed.

Lemma fix_zero (d : Decimal) : coeff d = 0 -> Decimal_fix d = d.
Proof. unfold Decimal_fix. intros ->. reflexivity. Qed.

Lemma fix_small (d : Decimal) : 0 < coeff d -> ndigits (coeff d) <= prec -> Decimal_fix d = d.
Proof.
  intros Hc HL. unfold Decimal_fix.
  destruct (Z.eqb_spec (coeff d) 0); [reflexivity|].
  destruct (Z.ltb_spec (exp d) (ndigits (coeff d) + exp d - prec)); [lia|reflexivity].
Qed.

(** What [_fix] returns for a coefficient with too many digits. *)
Lemma fix_large (d : Decimal) :
  0 < coeff d -> prec < ndigits (coeff d) ->
  let n := ndigits (coeff d) - prec in
  let c := round_half_even (coeff d) n in
  Decimal_fix d =
    if c =? 10 ^ prec then mkDec (sign d) (10 ^ (prec - 1)) (exp d + n + 1)
    else mkDec (sign d) c (exp d + n).
Proof.
  intros Hc HL n c. unfold Decimal_fix.
  destruct (Z.eqb_spec (coeff d) 0); [lia|].
  destruct (Z.ltb_spec (exp d) (ndigits (coeff d) + exp d - prec)); [|lia].
  replace (ndigits (coeff d) + exp d - prec - exp d) with n by (unfold n; lia).
  fold c. pose proof (round_to_prec_bounds (coeff d) Hc HL) as Hb. fold n c in Hb.
  replace (ndigits (coeff d) + exp d - prec) with (exp d + n) by (unfold n; lia).
  destruct (Z.eqb_spec c (10 ^ prec)) as [->|Hne].
  - rewrite ndigits_pow10 by (unfold prec; lia).
    destruct (Z.gtb_spec (prec + 1) prec); [|lia].
    f_equal; reflexivity.
  - assert (ndigits c = prec) as ->.
    { apply ndigits_unique; [unfold prec; lia|]. lia. }
    destruct (Z.gtb_spec prec prec); [lia|reflexivity].
Qed.

Lemma fix_wf (d : Decimal) : wf d -> wf (Decimal_fix d).
Proof.
  unfold wf. intros Hd.
  destruct (Z.eq_dec (coeff d) 0) as [H0|H0]; [rewrite fix_zero; lia|].
  destruct (Z.le_gt_cases (ndigits (coeff d)) prec) as [HL|HL].
  - rewrite fix_small; lia.
  - pose proof (fix_large d ltac:(lia) ltac:(lia)) as HF. cbv zeta in HF. rewrite HF.
    pose proof (round_to_prec_bounds (coeff d) ltac:(lia) ltac:(lia)).
    pose proof (pow10_pos (prec - 1) ltac:(unfold prec; lia)).
    destruct (_ =? _); cbn [coeff]; lia.
Qed.

Lemma fix_pos (d : Decimal) : 0 < coeff d -> 0 < coeff (Decimal_fix d).
Proof.
  intros Hd.
  destruct (Z.le_gt_cases (ndigits (coeff d)) prec) as [HL|HL].
  - rewrite fix_small; lia.
  - pose proof (fix_large d ltac:(lia) ltac:(lia)) as HF. cbv zeta in HF. rewrite HF.
    pose proof (round_to_prec_bounds (coeff d) ltac:(lia) ltac:(lia)).
    pose proof (pow10_pos (prec - 1) ltac:(unfold prec; lia)).
    destruct (_ =? _); cbn [coeff]; lia.
Qed.

Lemma fix_ndigits (d : Decimal) :
  0 < coeff d -> ndigits (coeff (Decimal_fix d)) <= prec.
Proof.
  intros Hd.
  destruct (Z.le_gt_cases (ndigits (coeff d)) prec) as [HL|HL].
  - rewrite fix_small; lia.
  - pose proof (fix_large d ltac:(lia) ltac:(lia)) as HF. cbv zeta in HF. rewrite HF.
    pose proof (round_to_prec_bounds (coeff d) ltac:(lia) ltac:(lia)).
    destruct (Z.eqb_spec (round_half_even (coeff d) (ndigits (coeff d) - prec)) (10 ^ prec)); cbn [coeff].
    + rewrite ndigits_pow10; unfold prec; lia.
    + apply ndigits_le_iff; [|unfold prec; lia|lia].
      pose proof (pow10_pos (prec - 1) ltac:(unfold prec; lia)). lia.
Qed.

Lemma fix_idem (d : Decimal) : wf d -> Decimal_fix (Decimal_fix d) = Decimal_fix d.
Proof.
  unfold wf. intros Hd.
  destruct (Z.eq_dec (coeff d) 0) as [H0|H0];
    [rewrite !(fix_zero d H0); reflexivity|].
  apply fix_small; [apply fix_pos; lia | apply fix_ndigits; lia].
Qed.

(** Rounding does not look at the exponent. *)
Lemma fix_scaleb (d : Decimal) (j : Z) :
  Decimal_fix (scaleb d j) = scaleb (Decimal_fix d) j.
Proof.
  unfold Decimal_fix, scaleb; cbn [sign coeff exp].
  destruct (coeff d =? 0); [reflexivity|].
  replace (ndigits (coeff d) + (exp d + j) - prec - (exp d + j))
    with (ndigits (coeff d) + exp d - prec - exp d) by lia.
  replace (exp d + j <? ndigits (coeff d) + (exp d + j) - prec)
    with (exp d <? ndigits (coeff d) + exp d - prec)
    by (destruct (Z.ltb_spec (exp d) (ndigits (coeff d) + exp d - prec)),
                 (Z.ltb_spec (exp d + j) (ndigits (coeff d) + (exp d + j) - prec)); lia).
  destruct (_ <? _); [|reflexivity].
  destruct (_ >? _); cbn [sign coeff exp]; f_equal; lia.
Qed.

(** Rounding to 50 digits is invariant under rescaling by a power of ten:
    trailing zeros of the coefficient may be moved into the exponent. *)
Lemma fix_scale (s : bool) (c e k : Z) :
  0 < c -> 0 <= k ->
  Decimal_fix (mkDec s (c * 10 ^ k) e) ==d Decimal_fix (mkDec s c (e + k)).
Proof.
  intros Hc Hk. pose proof (pow10_pos k Hk) as HP.
  assert (Hck : 0 < c * 10 ^ k) by nia.
  pose proof (ndigits_mul_pow10 c k Hc Hk) as HL.
  destruct (Z.le_gt_cases (ndigits c) prec) as [H1|H1].
  - rewrite (fix_small (mkDec s c (e + k))) by (cbn [coeff]; lia).
    destruct (Z.le_gt_cases (ndigits c + k) prec) as [H2|H2].
    + rewrite fix_small by (cbn [coeff]; lia). now apply deq_scale.
    + pose proof (fix_large (mkDec s (c * 10 ^ k) e) Hck ltac:(cbn [coeff]; lia)) as HF.
      cbv zeta in HF. cbn [coeff sign exp] in HF. rewrite HF, HL. clear HF.
      set (n := ndigits c + k - prec).
      replace (c * 10 ^ k) with (c * 10 ^ (k - n) * 10 ^ n).
      2:{ rewrite <- Z.mul_assoc, <- pow10_split by (unfold n; lia).
          do 2 f_equal. lia. }
      rewrite round_half_even_exact by (unfold n; lia).
      assert (Hlt : c * 10 ^ (k - n) < 10 ^ prec).
      { apply ndigits_le_iff; [|unfold prec; lia|].
        - pose proof (pow10_pos (k - n) ltac:(unfold n; lia)). nia.
        - rewrite ndigits_mul_pow10 by (unfold n; lia). unfold n. lia. }
      destruct (Z.eqb_spec (c * 10 ^ (k - n)) (10 ^ prec)); [lia|].
      eapply deq_trans; [apply deq_scale; unfold n; lia|].
      replace (e + n + (k - n)) with (e + k) by lia. reflexivity.
  - pose proof (fix_large (mkDec s (c * 10 ^ k) e) Hck ltac:(cbn [coeff]; lia)) as HF.
    pose proof (fix_large (mkDec s c (e + k)) Hc ltac:(cbn [coeff]; lia)) as HG.
    cbv zeta in HF, HG. cbn [coeff sign exp] in HF, HG. rewrite HF, HG, HL.
    replace (ndigits c + k - prec) with (ndigits c - prec + k) by lia.
    rewrite round_half_even_scale by lia.
    replace (e + (ndigits c - prec + k)) with (e + k + (ndigits c - prec)) by lia.
    reflexivity.
Qed.

Lemma fix_deq (a b : Decimal) :
  wf a -> wf b -> a ==d b -> Decimal_fix a ==d Decimal_fix b.
Proof.
  assert (Hdir : forall a b, wf a -> wf b -> a ==d b -> exp a <= exp b ->
                  Decimal_fix a ==d Decimal_fix b).
  { clear. intros a b Ha Hb H Hle.
    destruct (Z.eq_dec (coeff a) 0) as [H0|H0].
    - pose proof (deq_zero_l a b H H0). rewrite !fix_zero by assumption. exact H.
    - destruct (deq_cases a b Ha Hb H Hle H0) as [Hs Hc].
      assert (0 < coeff b).
      { unfold wf in *. pose proof (pow10_pos (exp b - exp a) ltac:(lia)). nia. }
      destruct a as [sa ca ea], b as [sb cb eb]; cbn [sign coeff exp] in *. subst sa ca.
      replace eb with (ea + (eb - ea)) at 2 by lia.
      apply fix_scale; lia. }
  intros Ha Hb H. destruct (Z.le_ge_cases (exp a) (exp b)).
  - now apply Hdir.
  - apply deq_sym. apply Hdir; auto. now apply deq_sym.
Qed.

(** ** The operations respect numerical equality *)

Lemma sval_mul_exact (a b : Decimal) : sval (mul_exact a b) = sval a * sval b.
Proof. unfold sval, mul_exact; cbn [sign coeff]. destruct (sign a), (sign b); cbn [xorb]; lia. Qed.

Lemma mul_exact_wf (a b : Decimal) : wf a -> wf b -> wf (mul_exact a b).
Proof. unfold wf, mul_exact; cbn [coeff]; nia. Qed.

Lemma aligned_mul_exact (a b : Decimal) (ma mb : Z) :
  ma <= exp a -> mb <= exp b ->
  aligned (mul_exact a b) (ma + mb) = aligned a ma * aligned b mb.
Proof.
  intros Ha Hb. unfold aligned. rewrite sval_mul_exact.
  replace (exp (mul_exact a b) - (ma + mb)) with ((exp a - ma) + (exp b - mb))
    by (unfold mul_exact; cbn [exp]; lia).
  rewrite pow10_split by lia. lia.
Qed.

Lemma mul_exact_deq (a a' b b' : Decimal) :
  a ==d a' -> b ==d b' -> mul_exact a b ==d mul_exact a' b'.
Proof.
  intros Ha Hb.
  set (ma := Z.min (exp a) (exp a')). set (mb := Z.min (exp b) (exp b')).
  apply (deq_at _ _ (ma + mb)); [unfold mul_exact; cbn [exp]; lia ..|].
  rewrite !aligned_mul_exact by lia.
  unfold deq in Ha, Hb. fold ma in Ha. fold mb in Hb. congruence.
Qed.

Lemma Decimal_mul_deq (a a' b b' : Decimal) :
  wf a -> wf a' -> wf b -> wf b' ->
  a ==d a' -> b ==d b' -> Decimal_mul a b ==d Decimal_mul a' b'.
Proof.
  intros. apply fix_deq; auto using mul_exact_wf, mul_exact_deq.
Qed.

Lemma Decimal_mul_wf (a b : Decimal) : wf a -> wf b -> wf (Decimal_mul a b).
Proof. intros. apply fix_wf. now apply mul_exact_wf. Qed.

Lemma sval_add_exact (a b : Decimal) :
  sval (add_exact a b)
  = aligned a (Z.min (exp a) (exp b)) + aligned b (Z.min (exp a) (exp b)).
Proof.
  unfold add_exact, sval at 1; cbn [sign coeff].
  set (s := aligned a _ + aligned b _).
  destruct (Z.eqb_spec s 0) as [->|Hs].
  - destruct (sign a && sign b); reflexivity.
  - destruct (Z.ltb_spec s 0); lia.
Qed.

Lemma add_exact_wf (a b : Decimal) : wf (add_exact a b).
Proof. unfold wf, add_exact; cbn [coeff]; lia. Qed.

Lemma aligned_add_exact (a b : Decimal) (m : Z) :
  m <= exp a -> m <= exp b ->
  aligned (add_exact a b) m = aligned a m + aligned b m.
Proof.
  intros Ha Hb. unfold aligned at 1. rewrite sval_add_exact.
  set (e := Z.min (exp a) (exp b)).
  replace (exp (add_exact a b)) with e by reflexivity.
  rewrite (aligned_lower a e m), (aligned_lower b e m) by lia. lia.
Qed.

Lemma add_exact_deq (a a' b b' : Decimal) :
  a ==d a' -> b ==d b' -> add_exact a b ==d add_exact a' b'.
Proof.
  intros Ha Hb.
  set (m := Z.min (Z.min (exp a) (exp a')) (Z.min (exp b) (exp b'))).
  apply (deq_at _ _ m); [unfold add_exact; cbn [exp]; lia ..|].
  rewrite !aligned_add_exact by lia.
  apply (deq_at a a' m) in Ha; [|lia|lia].
  apply (deq_at b b' m) in Hb; [|lia|lia]. congruence.
Qed.

Lemma Decimal_add_deq (a a' b b' : Decimal) :
  a ==d a' -> b ==d b' -> Decimal_add a b ==d Decimal_add a' b'.
Proof. intros. apply fix_deq; auto using add_exact_wf, add_exact_deq. Qed.

Lemma Decimal_add_wf (a b : Decimal) : wf (Decimal_add a b).
Proof. apply fix_wf, add_exact_wf. Qed.

Lemma copy_negate_deq (a a' : Decimal) : a ==d a' -> copy_negate a ==d copy_negate a'.
Proof.
  unfold deq, aligned, sval, copy_negate; cbn [sign coeff exp].
  destruct (sign a), (sign a'); cbn [negb]; lia.
Qed.

Lemma Decimal_sub_deq (a a' b b' : Decimal) :
  a ==d a' -> b ==d b' -> Decimal_sub a b ==d Decimal_sub a' b'.
Proof. intros. apply Decimal_add_deq; auto using copy_negate_deq. Qed.

(** The difference of two numerically equal decimals is a zero. *)
Lemma Decimal_sub_eq_zero (a b : Decimal) : a ==d b -> coeff (Decimal_sub a b) = 0.
Proof.
  intros H. unfold Decimal_sub, Decimal_add.
  assert (Hz : coeff (add_exact a (copy_negate b)) = 0).
  { apply sval_eq_0. rewrite sval_add_exact.
    replace (exp (copy_negate b)) with (exp b) by reflexivity.
    unfold deq in H. rewrite H. unfold aligned, sval, copy_negate; cbn [sign coeff exp].
    destruct (sign b); cbn [negb]; lia. }
  rewrite fix_zero; assumption.
Qed.

Lemma Decimal_abs_zero (a : Decimal) : coeff a = 0 -> coeff (Decimal_abs a) = 0.
Proof. intros H. unfold Decimal_abs. rewrite fix_zero; cbn [coeff]; assumption. Qed.

Lemma Decimal_mul_zero_l (a b : Decimal) : coeff a = 0 -> coeff (Decimal_mul a b) = 0.
Proof.
  intros H. unfold Decimal_mul. rewrite fix_zero; unfold mul_exact; cbn [coeff]; rewrite H; reflexivity.
Qed.

Lemma quotient_zero (a b : Decimal) : coeff a = 0 -> coeff (quotient a b) = 0.
Proof.
  intros H. unfold quotient. rewrite H. cbn [Z.eqb]. rewrite fix_zero; reflexivity.
Qed.

(** *** Division *)

Lemma strip_zeros_spec (n : nat) :
  forall s c e, 0 <= c ->
    0 <= fst (strip_zeros n c e) /\
    mkDec s (fst (strip_zeros n c e)) (snd (strip_zeros n c e)) ==d mkDec s c e.
Proof.
  induction n as [|n IH]; intros s c e Hc; cbn [strip_zeros].
  - cbn [fst snd]. split; [assumption|reflexivity].
  - destruct (Z.eqb_spec (c mod 10) 0) as [Hm|Hm]; [|cbn [fst snd]; split; [assumption|reflexivity]].
    destruct (IH s (c / 10) (e + 1) ltac:(apply Z.div_pos; lia)) as [H1 H2].
    split; [assumption|].
    eapply deq_trans; [exact H2|]. apply deq_sym.
    pose proof (Z.div_mod c 10 ltac:(lia)) as Hdm.
    replace c with (c / 10 * 10 ^ 1) at 1 by (change (10 ^ 1) with 10; lia).
    apply deq_scale. lia.
Qed.

Lemma strip_zeros_pos (n : nat) :
  forall c e, 0 < c -> 0 < fst (strip_zeros n c e).
Proof.
  induction n as [|n IH]; intros c e Hc; cbn [strip_zeros]; [assumption|].
  destruct (Z.eqb_spec (c mod 10) 0) as [Hm|Hm]; [|assumption].
  apply IH. pose proof (Z.div_mod c 10 ltac:(lia)). lia.
Qed.

Lemma div_nonzero_unfold (a b : Decimal) :
  div_nonzero a b =
  let shift := ndigits (coeff b) - ndigits (coeff a) + prec + 1 in
  let e := exp a - exp b - shift in
  let q := div_num (coeff a) shift / div_den (coeff b) shift in
  let r := div_num (coeff a) shift mod div_den (coeff b) shift in
  let sg := xorb (sign a) (sign b) in
  if r =? 0 then
    mkDec sg (fst (strip_zeros (Z.to_nat (exp a - exp b - e)) q e))
             (snd (strip_zeros (Z.to_nat (exp a - exp b - e)) q e))
  else mkDec sg (if q mod 5 =? 0 then q + 1 else q) e.
Proof.
  unfold div_nonzero. cbv zeta.
  destruct (_ =? 0); [|reflexivity].
  destruct (strip_zeros _ _ _); reflexivity.
Qed.

Lemma div_num_den_pos (ca cb shift : Z) :
  0 < ca -> 0 < cb -> 0 < div_num ca shift /\ 0 < div_den cb shift.
Proof.
  intros Ha Hb. unfold div_num, div_den.
  destruct (Z.leb_spec 0 shift).
  - pose proof (pow10_pos shift ltac:(lia)). split; nia.
  - pose proof (pow10_pos (- shift) ltac:(lia)). split; nia.
Qed.

Lemma div_nonzero_wf (a b : Decimal) :
  0 < coeff a -> 0 < coeff b -> wf (div_nonzero a b).
Proof.
  intros Ha Hb. rewrite div_nonzero_unfold. cbv zeta.
  set (shift := ndigits (coeff b) - ndigits (coeff a) + prec + 1).
  destruct (div_num_den_pos (coeff a) (coeff b) shift Ha Hb) as [Hn Hd].
  assert (Hq : 0 <= div_num (coeff a) shift / div_den (coeff b) shift)
    by (apply Z.div_pos; lia).
  unfold wf. destruct (_ =? 0); cbn [coeff].
  - apply (strip_zeros_spec _ false _ _ Hq).
  - destruct (_ =? 0); lia.
Qed.

(** Moving trailing zeros of the dividend into its exponent multiplies the
    numerator and the denominator by one power of ten. *)
Lemma div_num_den_scale (c cb L Lb k : Z) :
  0 <= k ->
  let shift1 := Lb - (L + k) + prec + 1 in
  let shift2 := Lb - L + prec + 1 in
  exists P, 0 < P /\
    div_num (c * 10 ^ k) shift1 = div_num c shift2 * P /\
    div_den cb shift1 = div_den cb shift2 * P.
Proof.
  intros Hk shift1 shift2. unfold div_num, div_den.
  assert (Hs : shift2 = shift1 + k) by (unfold shift1, shift2; lia).
  destruct (Z.leb_spec 0 shift1), (Z.leb_spec 0 shift2); try lia.
  - exists 1. split; [lia|]. rewrite Hs, pow10_split by lia. lia.
  - exists (10 ^ (- shift1)). split; [apply pow10_pos; lia|].
    split; [|reflexivity].
    replace k with (shift2 + - shift1) by lia. rewrite pow10_split by lia. lia.
  - exists (10 ^ k). split; [apply pow10_pos; lia|].
    split; [reflexivity|].
    replace (- shift1) with (- shift2 + k) by lia. rewrite pow10_split by lia. lia.
Qed.

Lemma div_nonzero_scale (s : bool) (c e k : Z) (b : Decimal) :
  0 < c -> 0 <= k -> 0 < coeff b ->
  div_nonzero (mkDec s (c * 10 ^ k) e) b ==d div_nonzero (mkDec s c (e + k)) b.
Proof.
  intros Hc Hk Hb. rewrite !div_nonzero_unfold. cbv zeta. cbn [sign coeff exp].
  rewrite (ndigits_mul_pow10 c k Hc Hk).
  destruct (div_num_den_scale c (coeff b) (ndigits c) (ndigits (coeff b)) k Hk)
    as [P [HP [Hn Hd]]].
  set (shift1 := ndigits (coeff b) - (ndigits c + k) + prec + 1) in *.
  set (shift2 := ndigits (coeff b) - ndigits c + prec + 1) in *.
  destruct (div_num_den_pos c (coeff b) shift2 Hc Hb) as [Hn2 Hd2].
  rewrite Hn, Hd.
  rewrite Z.div_mul_cancel_r by lia. rewrite Z.mul_mod_distr_r by lia.
  set (q := div_num c shift2 / div_den (coeff b) shift2).
  set (r := div_num c shift2 mod div_den (coeff b) shift2).
  assert (Hq : 0 <= q) by (apply Z.div_pos; lia).
  replace (e + k - exp b - shift2) with (e - exp b - shift1) by (unfold shift1, shift2; lia).
  set (e0 := e - exp b - shift1).
  destruct (Z.eqb_spec r 0) as [Hr|Hr].
  - rewrite Hr. cbn [Z.mul Z.eqb].
    eapply deq_trans; [apply strip_zeros_spec; exact Hq|].
    apply deq_sym. apply strip_zeros_spec; exact Hq.
  - destruct (Z.eqb_spec (r * P) 0); [nia|]. reflexivity.
Qed.

Lemma quotient_wf (a b : Decimal) : wf a -> 0 < coeff b -> wf (quotient a b).
Proof.
  unfold wf. intros Ha Hb. unfold quotient. apply fix_wf.
  destruct (Z.eqb_spec (coeff a) 0); [unfold wf; cbn [coeff]; lia|].
  apply div_nonzero_wf; lia.
Qed.

Lemma quotient_deq (a a' b : Decimal) :
  wf a -> wf a' -> 0 < coeff b -> a ==d a' -> quotient a b ==d quotient a' b.
Proof.
  assert (Hdir : forall a a', wf a -> wf a' -> 0 < coeff b -> a ==d a' ->
                  exp a <= exp a' -> quotient a b ==d quotient a' b).
  { clear. intros a a' Ha Ha' Hb H Hle. unfold quotient.
    destruct (Z.eqb_spec (coeff a) 0) as [H0|H0].
    - pose proof (deq_zero_l a a' H H0) as H0'. rewrite H0'. cbn [Z.eqb].
      rewrite !fix_zero by reflexivity. apply deq_zero; reflexivity.
    - destruct (deq_cases a a' Ha Ha' H Hle H0) as [Hs Hc].
      assert (0 < coeff a').
      { unfold wf in *. pose proof (pow10_pos (exp a' - exp a) ltac:(lia)). nia. }
      destruct (Z.eqb_spec (coeff a') 0); [lia|].
      apply fix_deq; [apply div_nonzero_wf; unfold wf in *; lia
                     |apply div_nonzero_wf; unfold wf in *; lia|].
      destruct a as [sa ca ea], a' as [sb cb eb]; cbn [sign coeff exp] in *. subst sa ca.
      replace eb with (ea + (eb - ea)) at 2 by lia.
      apply div_nonzero_scale; lia. }
  intros Ha Ha' Hb H. destruct (Z.le_ge_cases (exp a) (exp a')).
  - now apply Hdir.
  - apply deq_sym. apply Hdir; auto. now apply deq_sym.
Qed.

Lemma Decimal_truediv_ok (a b : Decimal) :
  coeff b <> 0 -> Decimal_truediv a b = Ok (quotient a b).
Proof. intros H. unfold Decimal_truediv. destruct (Z.eqb_spec (coeff b) 0); [lia|reflexivity]. Qed.

(** *** The sticky digit

    [__truediv__] computes [prec + 2] digits of an inexact quotient and makes
    the last one differ from 0 and 5; rounding that to [prec] digits is
    rounding the exact quotient.  Here for a division by a power of ten:
    dropping [m] digits with a sticky last digit and then rounding off [n]
    more is rounding off [m + n] digits at once. *)

Lemma round_sticky (c m n : Z) :
  0 <= c -> 0 <= m -> 1 <= n -> c mod 10 ^ m <> 0 ->
  let q := c / 10 ^ m in
  round_half_even (if q mod 5 =? 0 then q + 1 else q) n = round_half_even c (m + n).
Proof.
  intros Hc Hm Hn Hr q.
  pose proof (pow10_pos m Hm) as HP. set (P := 10 ^ m) in *.
  assert (HN : 10 ^ n = 10 * 10 ^ (n - 1)).
  { replace n with (n - 1 + 1) at 1 by lia. apply pow10_S; lia. }
  pose proof (pow10_pos (n - 1) ltac:(lia)) as HN'.
  set (N' := 10 ^ (n - 1)) in *.
  pose proof (Z.mod_pos_bound c P HP) as Hrb. set (r := c mod P) in *.
  assert (Hcm : c mod 10 ^ (m + n) = r + P * (q mod 10 ^ n)).
  { rewrite pow10_split by lia. fold P. rewrite Z.rem_mul_r by lia. reflexivity. }
  assert (Hcd : c / 10 ^ (m + n) = q / 10 ^ n).
  { rewrite pow10_split by lia. fold P. rewrite <- Z.div_div by lia. reflexivity. }
  assert (H5 : (q mod 10 ^ n) mod 5 = q mod 5).
  { apply Z.mod_mod_divide. exists (2 * N'). lia. }
  assert (HPN : 10 ^ (m + n) = P * (10 * N')).
  { rewrite pow10_split by lia. fold P. lia. }
  unfold round_half_even at 2. rewrite Hcm, Hcd, HPN. clear Hcm Hcd HPN.
  unfold round_half_even.
  rewrite HN in *. clear HN.
  assert (HNpos : 0 < 10 * N') by lia.
  pose proof (Z.mod_pos_bound q (10 * N') HNpos) as HRb.
  pose proof (Z.div_mod q (10 * N') ltac:(lia)) as Hq.
  set (R := q mod (10 * N')) in *. set (Q := q / (10 * N')) in *.
  destruct (Z.eqb_spec (q mod 5) 0) as [H0|H0].
  - (* the quotient ends in 0 or 5: the sticky digit is added *)
    assert (HR5 : R mod 5 = 0) by (rewrite H5; exact H0).
    assert (HR1 : (q + 1) mod (10 * N') = R + 1 /\ (q + 1) / (10 * N') = Q).
    { clearbody R Q q r P N'.
      assert (R + 1 < 10 * N') by (Z.div_mod_to_equations; lia).
      assert (E : q + 1 = Q * (10 * N') + (R + 1)) by lia.
      split.
      - rewrite E, Z.add_comm, Z.mod_add by lia. apply Z.mod_small; lia.
      - rewrite E, Z.add_comm, Z.div_add by lia. rewrite Z.div_small by lia. lia. }
    destruct HR1 as [HR1 HQ1]. rewrite HR1, HQ1.
    clearbody R Q q r P N'.
    assert (2 * (R + 1) <> 10 * N') by (Z.div_mod_to_equations; lia).
    destruct (Z.compare_spec (2 * (R + 1)) (10 * N')) as [E|L|G]; [lia| |].
    + assert (2 * (r + P * R) < P * (10 * N')) by nia.
      destruct (Z.compare_spec (2 * (r + P * R)) (P * (10 * N'))); [lia|reflexivity|lia].
    + assert (P * (10 * N') < 2 * (r + P * R)) by nia.
      destruct (Z.compare_spec (2 * (r + P * R)) (P * (10 * N'))); [lia|lia|reflexivity].
  - (* any other last digit already is sticky *)
    assert (HR5 : R mod 5 <> 0) by (rewrite H5; exact H0).
    fold R Q. clearbody R Q q r P N'.
    assert (2 * R <> 10 * N') by (Z.div_mod_to_equations; lia).
    destruct (Z.compare_spec (2 * R) (10 * N')) as [E|L|G]; [lia| |].
    + assert (2 * (r + P * R) < P * (10 * N')) by nia.
      destruct (Z.compare_spec (2 * (r + P * R)) (P * (10 * N'))); [lia|reflexivity|lia].
    + assert (P * (10 * N') < 2 * (r + P * R)) by nia.
      destruct (Z.compare_spec (2 * (r + P * R)) (P * (10 * N'))); [lia|lia|reflexivity].
Qed.

(** *** Division and the exponent *)

Lemma scaleb_deq (a a' : Decimal) (j : Z) : a ==d a' -> scaleb a j ==d scaleb a' j.
Proof.
  intros H. set (m := Z.min (exp a) (exp a')).
  apply (deq_at _ _ (m + j)); [unfold scaleb; cbn [exp]; lia ..|].
  unfold aligned, sval, scaleb; cbn [sign coeff exp].
  replace (exp a + j - (m + j)) with (exp a - m) by lia.
  replace (exp a' + j - (m + j)) with (exp a' - m) by lia.
  exact H.
Qed.

Lemma scaleb_wf (a : Decimal) (j : Z) : wf a -> wf (scaleb a j).
Proof. auto. Qed.

Lemma scaleb_scaleb (a : Decimal) (i j : Z) : scaleb (scaleb a i) j = scaleb a (i + j).
Proof. unfold scaleb; cbn [sign coeff exp]. f_equal. lia. Qed.

Lemma scaleb_0 (a : Decimal) : scaleb a 0 = a.
Proof. destruct a; unfold scaleb; cbn [sign coeff exp]. f_equal. lia. Qed.

Lemma strip_zeros_shift (n : nat) :
  forall c e j,
    strip_zeros n c (e + j)
    = (fst (strip_zeros n c e), snd (strip_zeros n c e) + j).
Proof.
  induction n as [|n IH]; intros c e j; cbn [strip_zeros]; [reflexivity|].
  destruct (c mod 10 =? 0); [|reflexivity].
  replace (e + j + 1) with (e + 1 + j) by lia. apply IH.
Qed.

Lemma div_nonzero_scaleb_l (a b : Decimal) (j : Z) :
  div_nonzero (scaleb a j) b = scaleb (div_nonzero a b) j.
Proof.
  destruct a as [s c e]. unfold scaleb. cbn [sign coeff exp].
  rewrite !div_nonzero_unfold. cbv zeta. cbn [sign coeff exp].
  set (shift := ndigits (coeff b) - ndigits c + prec + 1).
  replace (e + j - exp b - (e + j - exp b - shift))
    with (e - exp b - (e - exp b - shift)) by lia.
  replace (e + j - exp b - shift) with (e - exp b - shift + j) by lia.
  destruct (_ =? 0); cbn [sign coeff exp].
  - rewrite strip_zeros_shift. reflexivity.
  - reflexivity.
Qed.

Lemma div_nonzero_scaleb_r (a b : Decimal) (j : Z) :
  div_nonzero a (scaleb b j) = scaleb (div_nonzero a b) (- j).
Proof.
  destruct b as [s c e]. unfold scaleb. cbn [sign coeff exp].
  rewrite !div_nonzero_unfold. cbv zeta. cbn [sign coeff exp].
  set (shift := ndigits c - ndigits (coeff a) + prec + 1).
  replace (exp a - (e + j) - (exp a - (e + j) - shift))
    with (exp a - e - (exp a - e - shift)) by lia.
  replace (exp a - (e + j) - shift) with (exp a - e - shift + - j) by lia.
  destruct (_ =? 0); cbn [sign coeff exp].
  - rewrite strip_zeros_shift. reflexivity.
  - reflexivity.
Qed.

Lemma quotient_scaleb_l (a b : Decimal) (j : Z) :
  quotient (scaleb a j) b = scaleb (quotient a b) j.
Proof.
  unfold quotient. rewrite <- fix_scaleb. f_equal.
  replace (coeff (scaleb a j)) with (coeff a) by reflexivity.
  destruct (coeff a =? 0).
  - unfold scaleb; cbn [sign coeff exp]. f_equal. lia.
  - apply div_nonzero_scaleb_l.
Qed.

Lemma quotient_scaleb_r (a b : Decimal) (j : Z) :
  quotient a (scaleb b j) = scaleb (quotient a b) (- j).
Proof.
  unfold quotient. rewrite <- fix_scaleb. f_equal.
  destruct (coeff a =? 0).
  - unfold scaleb; cbn [sign coeff exp]. f_equal. lia.
  - apply div_nonzero_scaleb_r.
Qed.

(** *** Division by a power of ten *)

Lemma div_pow10_core (c j shift : Z) :
  0 <= j -> shift < j ->
  exists P, 0 < P /\
    div_num c shift / div_den (10 ^ j) shift = c / 10 ^ (j - shift) /\
    div_num c shift mod div_den (10 ^ j) shift = c mod 10 ^ (j - shift) * P.
Proof.
  intros Hj Hs. unfold div_num, div_den.
  pose proof (pow10_pos (j - shift) ltac:(lia)) as Hm.
  destruct (Z.leb_spec 0 shift).
  - exists (10 ^ shift). pose proof (pow10_pos shift ltac:(lia)).
    replace j with ((j - shift) + shift) at 1 3 by lia.
    rewrite pow10_split by lia.
    rewrite Z.div_mul_cancel_r, Z.mul_mod_distr_r by lia. auto.
  - exists 1. rewrite <- pow10_split by lia.
    replace (j + - shift) with (j - shift) by lia. split; [lia|]. split; lia.
Qed.

Lemma div_nonzero_pow10_deq (x : Decimal) (j : Z) :
  0 < coeff x -> 0 <= j ->
  Decimal_fix (div_nonzero x (mkDec false (10 ^ j) 0)) ==d Decimal_fix (scaleb x (- j)).
Proof.
  intros Hc Hj. destruct x as [s c ex]; cbn [coeff] in Hc.
  pose proof (pow10_pos j Hj) as HPj.
  destruct (ndigits_spec c Hc) as [HL1 [Hlo Hhi]].
  assert (Hwf : wf (div_nonzero (mkDec s c ex) (mkDec false (10 ^ j) 0)))
    by (apply div_nonzero_wf; cbn [coeff]; lia).
  revert Hwf. rewrite div_nonzero_unfold. cbv zeta. cbn [sign coeff exp].
  rewrite ndigits_pow10 by lia. rewrite xorb_false_r.
  set (shift := j + 1 - ndigits c + prec + 1).
  replace (ex - 0 - (ex - 0 - shift)) with shift by lia.
  replace (ex - 0 - shift) with (ex - shift) by lia.
  unfold scaleb; cbn [sign coeff exp].
  destruct (Z.le_gt_cases j shift) as [Hsh|Hsh].
  - (* at most prec + 2 digits: the quotient is exact *)
    unfold div_num, div_den. destruct (Z.leb_spec 0 shift); [|lia].
    replace (c * 10 ^ shift) with (c * 10 ^ (shift - j) * 10 ^ j)
      by (rewrite <- Z.mul_assoc, <- pow10_split by lia; do 2 f_equal; lia).
    rewrite Z.div_mul, Z.mod_mul by lia. cbn [Z.eqb]. intros Hwf.
    pose proof (pow10_pos (shift - j) ltac:(lia)).
    apply fix_deq; [exact Hwf|unfold wf; cbn [coeff]; lia|].
    eapply deq_trans; [apply strip_zeros_spec; nia|].
    eapply deq_trans; [apply deq_scale; lia|].
    replace (ex - shift + (shift - j)) with (ex + - j) by lia. reflexivity.
  - (* more digits: [m] of them are cut by the integer division *)
    destruct (div_pow10_core c j shift Hj Hsh) as [P [HP [Hq Hr]]].
    rewrite Hq, Hr. set (m := j - shift) in *.
    pose proof (pow10_pos m ltac:(lia)) as HPm.
    assert (HLm : ndigits c = m + prec + 2) by (unfold m, shift; lia).
    pose proof (Z.div_mod c (10 ^ m) ltac:(lia)) as Hdm.
    pose proof (Z.mod_pos_bound c (10 ^ m) ltac:(lia)) as Hmb.
    destruct (Z.eqb_spec (c mod 10 ^ m * P) 0) as [Hz|Hnz]; intros Hwf.
    + assert (Hcm : c mod 10 ^ m = 0) by nia.
      apply fix_deq; [exact Hwf|unfold wf; cbn [coeff]; lia|].
      eapply deq_trans; [apply strip_zeros_spec; apply Z.div_pos; lia|].
      apply deq_sym.
      replace c with (c / 10 ^ m * 10 ^ m) at 1 by lia.
      eapply deq_trans; [apply deq_scale; lia|].
      replace (ex + - j + m) with (ex - shift) by (unfold m; lia). reflexivity.
    + assert (Hcm : c mod 10 ^ m <> 0) by nia.
      set (q := c / 10 ^ m) in *.
      assert (Hqb : 10 ^ (prec + 1) <= q < 10 ^ (prec + 2)).
      { unfold q. split.
        - apply Z.div_le_lower_bound; [lia|].
          rewrite Z.mul_comm, <- pow10_split by (unfold prec; lia).
          replace (prec + 1 + m) with (ndigits c - 1) by lia. exact Hlo.
        - apply Z.div_lt_upper_bound; [lia|].
          rewrite <- pow10_split by (unfold prec; lia).
          replace (m + (prec + 2)) with (ndigits c) by lia. exact Hhi. }
      set (q' := if q mod 5 =? 0 then q + 1 else q) in *.
      assert (Hq'b : 10 ^ (prec + 1) <= q' < 10 ^ (prec + 2)).
      { unfold q'. destruct (Z.eqb_spec (q mod 5) 0) as [H5|H5]; [|exact Hqb].
        change (10 ^ (prec + 1)) with (10 ^ 51) in *.
        change (10 ^ (prec + 2)) with (10 ^ 52) in *.
        assert (Hm5 : 10 ^ 52 mod 5 = 0) by reflexivity.
        clearbody q. clear - H5 Hqb Hm5. Z.div_mod_to_equations. lia. }
      assert (HLq : ndigits q' = prec + 2).
      { apply ndigits_unique; [unfold prec; lia|].
        replace (prec + 2 - 1) with (prec + 1) by lia. exact Hq'b. }
      pose proof (pow10_pos (prec + 1) ltac:(unfold prec; lia)).
      pose proof (fix_large (mkDec s q' (ex - shift)) ltac:(cbn [coeff]; lia)
                    ltac:(cbn [coeff]; unfold prec in *; lia)) as HF.
      pose proof (fix_large (mkDec s c (ex + - j)) Hc
                    ltac:(cbn [coeff]; unfold prec in *; lia)) as HG.
      cbv zeta in HF, HG. cbn [sign coeff exp] in HF, HG. rewrite HF, HG, HLq, HLm.
      replace (prec + 2 - prec) with 2 by lia.
      replace (m + prec + 2 - prec) with (m + 2) by lia.
      unfold q', q. rewrite (round_sticky c m 2) by lia.
      replace (ex + - j + (m + 2)) with (ex - shift + 2) by (unfold m; lia).
      reflexivity.
Qed.

Lemma quotient_pow10 (x : Decimal) (j e : Z) :
  wf x -> 0 <= j ->
  quotient x (mkDec false (10 ^ j) e) ==d Decimal_fix (scaleb x (- j - e)).
Proof.
  intros Hx Hj.
  change (mkDec false (10 ^ j) e) with (scaleb (mkDec false (10 ^ j) 0) e).
  rewrite quotient_scaleb_r.
  replace (- j - e) with (- j + - e) by lia.
  rewrite <- scaleb_scaleb, fix_scaleb. apply scaleb_deq.
  unfold quotient. destruct (Z.eqb_spec (coeff x) 0) as [H0|H0].
  - rewrite !fix_zero by (cbn [coeff scaleb]; auto). apply deq_zero; cbn [coeff scaleb]; auto.
  - apply div_nonzero_pow10_deq; unfold wf in Hx; lia.
Qed.

(** *** Multiplying and dividing by RAY and by one *)

Lemma Decimal_of_int_wf (n : Z) : wf (Decimal_of_int n).
Proof. unfold wf, Decimal_of_int; cbn [coeff]; lia. Qed.

Lemma mul_exact_RAY (x : Decimal) : mul_exact x RAY = scaleb x 27.
Proof.
  unfold mul_exact, scaleb, RAY; cbn [sign coeff exp].
  rewrite xorb_false_r, Z.mul_1_r. reflexivity.
Qed.

Lemma RAY_mul_exact (x : Decimal) : mul_exact RAY x = scaleb x 27.
Proof.
  unfold mul_exact, scaleb, RAY; cbn [sign coeff exp].
  rewrite xorb_false_l, Z.mul_1_l. f_equal. lia.
Qed.

Lemma Decimal_mul_RAY (x : Decimal) : Decimal_mul x RAY = scaleb (Decimal_fix x) 27.
Proof. unfold Decimal_mul. rewrite mul_exact_RAY. apply fix_scaleb. Qed.

Lemma RAY_Decimal_mul (x : Decimal) : Decimal_mul RAY x = scaleb (Decimal_fix x) 27.
Proof. unfold Decimal_mul. rewrite RAY_mul_exact. apply fix_scaleb. Qed.

Lemma fix_quotient (a b : Decimal) :
  wf a -> 0 < coeff b -> Decimal_fix (quotient a b) = quotient a b.
Proof.
  intros Ha Hb. unfold quotient. apply fix_idem.
  destruct (Z.eqb_spec (coeff a) 0); [unfold wf; cbn [coeff]; lia|].
  apply div_nonzero_wf; unfold wf in Ha; lia.
Qed.

Lemma quotient_pow10_fix (x : Decimal) (j e : Z) :
  wf x -> 0 <= j ->
  quotient (Decimal_fix x) (mkDec false (10 ^ j) e) ==d quotient x (mkDec false (10 ^ j) e).
Proof.
  intros Hx Hj.
  eapply deq_trans; [apply quotient_pow10; auto using fix_wf|].
  rewrite fix_scaleb, fix_idem, <- fix_scaleb by assumption.
  apply deq_sym. apply quotient_pow10; assumption.
Qed.

Lemma strip_zeros_pow10 (n : nat) :
  forall c e, c <> 0 -> strip_zeros n (c * 10 ^ Z.of_nat n) e = (c, e + Z.of_nat n).
Proof.
  induction n as [|n IH]; intros c e Hc.
  - cbn [strip_zeros]. change (10 ^ Z.of_nat 0) with 1. f_equal; lia.
  - cbn [strip_zeros]. rewrite Nat2Z.inj_succ. unfold Z.succ.
    rewrite pow10_S by lia.
    replace (c * (10 * 10 ^ Z.of_nat n)) with (c * 10 ^ Z.of_nat n * 10) by lia.
    rewrite Z.mod_mul by lia. cbn [Z.eqb]. rewrite Z.div_mul by lia.
    rewrite IH by assumption. f_equal. lia.
Qed.

(** Dividing a decimal that fits the precision by one returns it unchanged. *)
Lemma quotient_D1 (x : Decimal) :
  wf x -> coeff x = 0 \/ ndigits (coeff x) <= prec -> quotient x D1 = x.
Proof.
  intros Hx HL. unfold wf in Hx. destruct x as [s c e]; cbn [coeff] in *.
  unfold quotient; cbn [sign coeff exp D1]. rewrite xorb_false_r.
  destruct (Z.eqb_spec c 0) as [->|Hc].
  - rewrite fix_zero by reflexivity. f_equal. lia.
  - destruct HL as [HL|HL]; [lia|].
    rewrite div_nonzero_unfold. cbv zeta. cbn [sign coeff exp D1]. rewrite xorb_false_r.
    change (ndigits 1) with 1.
    set (shift := 1 - ndigits c + prec + 1).
    assert (Hs : 0 <= shift) by (unfold shift; lia).
    unfold div_num, div_den. destruct (Z.leb_spec 0 shift); [|lia].
    rewrite Z.div_1_r, Z.mod_1_r. cbn [Z.eqb].
    replace (e - 0 - (e - 0 - shift)) with shift by lia.
    assert (Hn : shift = Z.of_nat (Z.to_nat shift)) by (symmetry; apply Z2Nat.id; lia).
    clearbody shift. rewrite Hn, Nat2Z.id.
    rewrite strip_zeros_pow10 by assumption. cbn [fst snd].
    replace (e - 0 - Z.of_nat (Z.to_nat shift) + Z.of_nat (Z.to_nat shift)) with e by lia.
    apply fix_small; cbn [coeff]; lia.
Qed.

Lemma quotient_RAY (x : Decimal) : quotient x RAY = scaleb (quotient x D1) (-27).
Proof. change RAY with (scaleb D1 27). apply quotient_scaleb_r. Qed.

(** [RAY * x / RAY] is [x] when [x] fits the precision. *)
Lemma update_index_RAY (x : Decimal) :
  wf x -> coeff x = 0 \/ ndigits (coeff x) <= prec -> update_index RAY x = Ok x.
Proof.
  intros Hx HL. unfold update_index.
  rewrite Decimal_truediv_ok by (vm_compute; discriminate).
  rewrite RAY_Decimal_mul, quotient_scaleb_l, quotient_RAY, scaleb_scaleb.
  replace (-27 + 27) with 0 by lia. rewrite scaleb_0.
  assert (Hf : Decimal_fix x = x).
  { destruct HL as [HL|HL]; [now apply fix_zero|].
    destruct (Z.eq_dec (coeff x) 0); [now apply fix_zero|].
    apply fix_small; unfold wf in Hx; lia. }
  rewrite Hf. f_equal. now apply quotient_D1.
Qed.

Lemma fix_fits (d : Decimal) :
  wf d -> coeff (Decimal_fix d) = 0 \/ ndigits (coeff (Decimal_fix d)) <= prec.
Proof.
  intros Hd. destruct (Z.eq_dec (coeff d) 0) as [H0|H0].
  - left. rewrite fix_zero; assumption.
  - right. apply fix_ndigits. unfold wf in Hd. lia.
Qed.

(** Adding a zero only rounds. *)
Lemma Decimal_add_zero_r (x z : Decimal) :
  wf x -> coeff z = 0 -> Decimal_add x z ==d Decimal_fix x.
Proof.
  intros Hx Hz. unfold Decimal_add. apply fix_deq; [apply add_exact_wf|assumption|].
  set (m := Z.min (exp x) (exp z)).
  apply (deq_at _ _ m); [unfold add_exact; cbn [exp]; lia|lia|].
  rewrite aligned_add_exact by lia.
  unfold aligned at 2. rewrite (sval_zero z Hz). lia.
Qed.

(** *** Signs and strict positivity *)

Lemma div_nonzero_sign (a b : Decimal) : sign (div_nonzero a b) = xorb (sign a) (sign b).
Proof. rewrite div_nonzero_unfold. cbv zeta. destruct (_ =? 0); reflexivity. Qed.

Lemma quotient_sign (a b : Decimal) : sign (quotient a b) = xorb (sign a) (sign b).
Proof.
  unfold quotient. rewrite fix_sign. destruct (coeff a =? 0); [reflexivity|].
  apply div_nonzero_sign.
Qed.

Lemma div_nonzero_pos (a b : Decimal) :
  0 < coeff a -> 0 < coeff b -> 0 < coeff (div_nonzero a b).
Proof.
  intros Ha Hb. rewrite div_nonzero_unfold. cbv zeta.
  set (shift := ndigits (coeff b) - ndigits (coeff a) + prec + 1).
  destruct (div_num_den_pos (coeff a) (coeff b) shift Ha Hb) as [Hn Hd].
  assert (Hq : 0 < div_num (coeff a) shift / div_den (coeff b) shift).
  { apply Z.div_str_pos. split; [assumption|].
    destruct (ndigits_spec _ Ha) as [_ [Hlo _]].
    destruct (ndigits_spec _ Hb) as [_ [_ Hhi]].
    unfold div_num, div_den. destruct (Z.leb_spec 0 shift).
    - assert (10 ^ ndigits (coeff b) <= 10 ^ (ndigits (coeff a) - 1) * 10 ^ shift).
      { rewrite <- pow10_split by (pose proof (ndigits_spec _ Ha); lia).
        apply pow10_le. pose proof (ndigits_spec _ Hb). unfold shift, prec. lia. }
      pose proof (pow10_pos shift ltac:(lia)). nia.
    - assert (10 ^ ndigits (coeff b) * 10 ^ (- shift) <= 10 ^ (ndigits (coeff a) - 1)).
      { rewrite <- pow10_split by (pose proof (ndigits_spec _ Hb); lia).
        apply pow10_le. pose proof (ndigits_spec _ Hb). unfold shift, prec in *. lia. }
      pose proof (pow10_pos (- shift) ltac:(lia)). nia. }
  destruct (_ =? 0); cbn [coeff].
  - now apply strip_zeros_pos.
  - destruct (_ =? 0); lia.
Qed.

Lemma quotient_pos (a b : Decimal) :
  0 < coeff a -> 0 < coeff b -> 0 < coeff (quotient a b).
Proof.
  intros Ha Hb. unfold quotient. destruct (Z.eqb_spec (coeff a) 0); [lia|].
  apply fix_pos. now apply div_nonzero_pos.
Qed.

(** * Properties of the script *)

Ltac run_truediv :=
  repeat (rewrite Decimal_truediv_ok by (vm_compute; discriminate); cbn [bind]).

Lemma SECONDS_IN_YEAR_pos : 0 < coeff SECONDS_IN_YEAR.
Proof. reflexivity. Qed.

Lemma D10000_pos : 0 < coeff D10000.
Proof. reflexivity. Qed.

Lemma RAY_pos : 0 < coeff RAY.
Proof. reflexivity. Qed.

Lemma RAY_wf : wf RAY.
Proof. unfold wf; cbn; lia. Qed.

Create HintDb dec.

#[local] Hint Resolve SECONDS_IN_YEAR_pos D10000_pos RAY_pos RAY_wf Decimal_of_int_wf
  quotient_wf Decimal_mul_wf Decimal_add_wf fix_wf : dec.

(** ** No exception on the arithmetic paths *)

Lemma contract_rate_per_second_ok (rate_bps : Z) :
  contract_rate_per_second rate_bps = Ok (contract_rps_value rate_bps).
Proof. unfold contract_rate_per_second, contract_rps_value. run_truediv. reflexivity. Qed.

Lemma exact_rate_per_second_ok (rate_bps : Z) :
  exact_rate_per_second rate_bps = Ok (exact_rps_value rate_bps).
Proof. unfold exact_rate_per_second, exact_rps_value. run_truediv. reflexivity. Qed.

Lemma contract_growth_factor_ok (rate_bps t : Z) :
  contract_growth_factor rate_bps t = Ok (contract_gf_value rate_bps t).
Proof.
  unfold contract_growth_factor, contract_gf_value.
  rewrite contract_rate_per_second_ok. cbn [bind]. reflexivity.
Qed.

Lemma exact_growth_factor_ok (rate_bps t : Z) :
  exact_growth_factor rate_bps t = Ok (exact_gf_value rate_bps t).
Proof.
  unfold exact_growth_factor, exact_gf_value.
  rewrite exact_rate_per_second_ok. cbn [bind]. reflexivity.
Qed.

Lemma update_index_ok (idx gf : Decimal) :
  update_index idx gf = Ok (quotient (Decimal_mul idx gf) RAY).
Proof. unfold update_index. run_truediv. reflexivity. Qed.

Lemma abs_loss_bps_ok (e c : Decimal) : abs_loss_bps e c = Ok (abs_loss_value e c).
Proof. unfold abs_loss_bps, abs_loss_value. run_truediv. reflexivity. Qed.

Lemma calculate_linear_growth_factor_ok (rate_bps t : Z) :
  calculate_linear_growth_factor rate_bps t
  = Ok (Decimal_add D1 (Decimal_mul (linear_rps_value rate_bps) (Decimal_of_int t))).
Proof. unfold calculate_linear_growth_factor, linear_rps_value. run_truediv. reflexivity. Qed.

Lemma contract_rps_wf (rate_bps : Z) : wf (contract_rps_value rate_bps).
Proof. unfold contract_rps_value. auto 6 with dec. Qed.

Lemma exact_rps_wf (rate_bps : Z) : wf (exact_rps_value rate_bps).
Proof. unfold exact_rps_value. auto 6 with dec. Qed.

(** ** The "contract" path and the "exact" path compute the same numbers *)

Lemma rate_paths_deq (rate_bps : Z) :
  contract_rps_value rate_bps ==d exact_rps_value rate_bps.
Proof.
  unfold contract_rps_value, exact_rps_value.
  set (R := Decimal_of_int rate_bps).
  assert (HR : wf R) by apply Decimal_of_int_wf.
  rewrite !Decimal_mul_RAY, !quotient_scaleb_l.
  rewrite fix_quotient by auto with dec.
  apply scaleb_deq. apply quotient_deq; auto with dec.
  change D10000 with (mkDec false (10 ^ 4) 0).
  apply quotient_pow10_fix; [assumption|lia].
Qed.

Lemma growth_factor_paths_deq (rate_bps t : Z) :
  contract_gf_value rate_bps t ==d exact_gf_value rate_bps t.
Proof.
  unfold contract_gf_value, exact_gf_value.
  apply Decimal_add_deq; [reflexivity|].
  apply Decimal_mul_deq; auto using contract_rps_wf, exact_rps_wf, rate_paths_deq with dec.
  reflexivity.
Qed.

Lemma update_index_deq (c e gc ge : Decimal) :
  wf c -> wf e -> wf gc -> wf ge -> c ==d e -> gc ==d ge ->
  quotient (Decimal_mul c gc) RAY ==d quotient (Decimal_mul e ge) RAY.
Proof.
  intros. apply quotient_deq; auto with dec. now apply Decimal_mul_deq.
Qed.

Lemma cumulative_step_ok (rate_bps u : Z) (st : Decimal * Decimal) :
  cumulative_step rate_bps u st
  = Ok (quotient (Decimal_mul (fst st) (contract_gf_value rate_bps u)) RAY,
        quotient (Decimal_mul (snd st) (exact_gf_value rate_bps u)) RAY).
Proof.
  unfold cumulative_step.
  rewrite contract_growth_factor_ok. cbn [bind].
  rewrite update_index_ok. cbn [bind].
  rewrite exact_growth_factor_ok. cbn [bind].
  rewrite update_index_ok. cbn [bind]. reflexivity.
Qed.

(** The loop invariant of lines 195-207: the two running indices are
    well formed and numerically equal. *)
Lemma cumulative_loop_deq (rate_bps u : Z) (n : nat) :
  forall c e, wf c -> wf e -> c ==d e ->
    exists c' e',
      for_range n (cumulative_step rate_bps u) (c, e) = Ok (c', e')
      /\ wf c' /\ wf e' /\ c' ==d e'.
Proof.
  induction n as [|n IH]; intros c e Hc He Hce; cbn [for_range].
  - exists c, e. auto.
  - rewrite cumulative_step_ok. cbn [bind fst snd].
    apply IH.
    + unfold contract_gf_value. auto with dec.
    + unfold exact_gf_value. auto with dec.
    + apply update_index_deq; auto.
      * unfold contract_gf_value. auto with dec.
      * unfold exact_gf_value. auto with dec.
      * apply growth_factor_paths_deq.
Qed.

Lemma abs_loss_zero (e c : Decimal) : e ==d c -> coeff (abs_loss_value e c) = 0.
Proof.
  intros H. unfold abs_loss_value.
  apply Decimal_mul_zero_l, quotient_zero, Decimal_abs_zero, Decimal_sub_eq_zero, H.
Qed.

Lemma int_truediv_check_ok (rate_bps : Z) :
  Z.abs rate_bps < 10 ^ 26 -> int_truediv_check rate_bps 100 = Ok tt.
Proof.
  intros H. unfold int_truediv_check.
  destruct (Z.leb_spec ((2 ^ 1024 - 2 ^ 970) * 100) (Z.abs rate_bps)) as [Hle|]; [|reflexivity].
  assert (Hbig : 10 ^ 26 < (2 ^ 1024 - 2 ^ 970) * 100) by (vm_compute; reflexivity).
  exfalso. apply (Z.lt_irrefl (10 ^ 26)).
  eapply Z.lt_le_trans; [exact Hbig|]. eapply Z.le_trans; [exact Hle|]. apply Z.lt_le_incl, H.
Qed.

(** C2.  For every rate below 10^26 basis points in absolute value (rounding
    to 50 digits commutes with rescaling by a power of ten): the "contract"
    rate per second and the "exact" rate per second are numerically equal
    decimals ([==d], what Python's [==] decides); for every time below 10^16
    seconds in absolute value the two growth factors are equal; for a
    non-negative rate and interval, after every number of passes through the
    update loop whose rate times elapsed time is at most 10^16 the two
    running indices are equal; and every fixed-vs-exact precision loss that
    the rate table, the single-update table, the cumulative table (for a
    non-negative period below 10^16 seconds, with rate times period at most
    10^16) and the extreme-scenario table compute is a zero.  (The cumulative
    row raises [ZeroDivisionError] exactly when the interval is 0.) *)
Theorem contract_path_equals_exact_path (rate_bps : Z) :
  Z.abs rate_bps < 10 ^ 26 ->
  (forall d j, ordinary d -> Z.abs j <= 1000 ->
      Decimal_fix (scaleb d j) = scaleb (Decimal_fix d) j) /\
  (exists c e,
      contract_rate_per_second rate_bps = Ok c /\
      exact_rate_per_second rate_bps = Ok e /\ c ==d e /\ Decimal_eqb c e = true) /\
  (forall t, Z.abs t < 10 ^ 16 ->
    exists c e,
      contract_growth_factor rate_bps t = Ok c /\
      exact_growth_factor rate_bps t = Ok e /\ c ==d e) /\
  (forall u n,
      0 <= rate_bps -> 0 <= u < 10 ^ 16 -> rate_bps * (Z.of_nat n * u) <= 10 ^ 16 ->
    exists c e,
      for_range n (cumulative_step rate_bps u) (RAY, RAY) = Ok (c, e) /\ c ==d e) /\
  (exists c e z, rate_per_second_row rate_bps = Ok (c, e, z) /\ coeff z = 0) /\
  (forall t, Z.abs t < 10 ^ 16 ->
    exists c e z,
      yield_index_update_row rate_bps t = Ok (c, e, z) /\ coeff z = 0) /\
  (forall t, Z.abs t < 10 ^ 16 ->
    exists c e z,
      extreme_row rate_bps t = Ok (c, e, z) /\ c ==d e /\ coeff z = 0) /\
  (forall total u,
      0 <= rate_bps -> 0 <= total < 10 ^ 16 -> rate_bps * total <= 10 ^ 16 ->
      Z.abs u < 10 ^ 16 ->
      match cumulative_row rate_bps total u with
      | Ok (_, c, e, z) => c ==d e /\ coeff z = 0
      | Raise err => u = 0 /\ err = ZeroDivisionError
      end).
Proof.
  intros Hrate.
  pose proof (rate_paths_deq rate_bps) as Hr.
  pose proof (growth_factor_paths_deq rate_bps) as Hg.
  split; [intros d j _ _; apply fix_scaleb|].
  repeat split.
  - exists (contract_rps_value rate_bps), (exact_rps_value rate_bps).
    pose proof (proj2 (Decimal_eqb_deq _ _) Hr).
    auto using contract_rate_per_second_ok, exact_rate_per_second_ok.
  - intros t _. exists (contract_gf_value rate_bps t), (exact_gf_value rate_bps t).
    auto using contract_growth_factor_ok, exact_growth_factor_ok.
  - intros u n _ _ _.
    destruct (cumulative_loop_deq rate_bps u n RAY RAY RAY_wf RAY_wf (deq_refl RAY))
      as (c & e & Hrun & _ & _ & Hce).
    exists c, e. auto.
  - unfold rate_per_second_row.
    rewrite (int_truediv_check_ok rate_bps Hrate). cbn [bind].
    rewrite contract_rate_per_second_ok. cbn [bind].
    rewrite exact_rate_per_second_ok. cbn [bind].
    rewrite abs_loss_bps_ok. cbn [bind]. do 3 eexists. split; [reflexivity|].
    apply abs_loss_zero. now apply deq_sym.
  - intros t _. unfold yield_index_update_row.
    rewrite contract_growth_factor_ok. cbn [bind].
    rewrite exact_growth_factor_ok. cbn [bind].
    rewrite abs_loss_bps_ok. cbn [bind]. do 3 eexists. split; [reflexivity|].
    apply abs_loss_zero. apply deq_sym, Hg.
  - intros t _. unfold extreme_row.
    rewrite contract_growth_factor_ok. cbn [bind].
    rewrite update_index_ok. cbn [bind].
    rewrite exact_growth_factor_ok. cbn [bind].
    rewrite update_index_ok. cbn [bind].
    rewrite abs_loss_bps_ok. cbn [bind].
    assert (Hi : quotient (Decimal_mul RAY (contract_gf_value rate_bps t)) RAY
                 ==d quotient (Decimal_mul RAY (exact_gf_value rate_bps t)) RAY).
    { apply update_index_deq; auto with dec; try reflexivity;
        unfold contract_gf_value, exact_gf_value; auto with dec. }
    do 3 eexists. split; [reflexivity|]. split; [exact Hi|].
    apply abs_loss_zero. now apply deq_sym.
  - intros total u _ _ _ _. unfold cumulative_row, floordiv.
    destruct (Z.eqb_spec u 0) as [->|Hu]; [cbn [bind]; auto|]. cbn [bind].
    destruct (cumulative_loop_deq rate_bps u (Z.to_nat (total / u)) RAY RAY
                RAY_wf RAY_wf (deq_refl RAY)) as (c & e & Hrun & _ & _ & Hce).
    rewrite Hrun. cbn [bind fst snd]. rewrite abs_loss_bps_ok. cbn [bind].
    split; [exact Hce|]. apply abs_loss_zero. now apply deq_sym.
Qed.

Lemma contract_path_equals_exact_path_witness :
  Z.abs 1000 < 10 ^ 26 /\
  exists c e,
    contract_rate_per_second 1000 = Ok c /\
    exact_rate_per_second 1000 = Ok e /\ c ==d e /\ Decimal_eqb c e = true.
Proof.
  assert (H : Z.abs 1000 < 10 ^ 26) by (vm_compute; reflexivity).
  split; [exact H|].
  exact (proj1 (proj2 (contract_path_equals_exact_path 1000 H))).
Defined.

(** ** The "contract" path does not truncate *)

(** C1.  The script's "contract" rate per second is a 50-digit decimal
    quotient, not the floor the contract computes: at 1000 bps (a rate of the
    script's own table) it is 3170979198376458650.4312531709791983764586504312532
    where [floor(floor(1000 * RAY / 10000) / secondsPerYear)] is
    3170979198376458650.  No rate of [rates_to_test] yields an integer, while
    every growth factor of the script's [contract_data] is the one of the
    floored rate. *)
Theorem contract_rate_per_second_not_floored :
  contract_rate_per_second 1000
  = Ok (mkDec false 31709791983764586504312531709791983764586504312532 (-31))
  /\ is_integer (contract_rps_value 1000) = false
  /\ spec_ratePerSecond 1000 = 3170979198376458650
  /\ Decimal_lt (Decimal_of_int (spec_ratePerSecond 1000)) (contract_rps_value 1000) = true
  /\ Forall (fun rate_bps => is_integer (contract_rps_value rate_bps) = false) rates_to_test
  /\ Forall (fun row => let '(rate_bps, period, growth) := row in
                        growth = spec_growthFactor (spec_ratePerSecond rate_bps) period)
            contract_data.
Proof.
  split; [vm_compute; reflexivity|].
  split; [vm_compute; reflexivity|].
  split; [vm_compute; reflexivity|].
  split; [vm_compute; reflexivity|].
  split.
  - unfold rates_to_test. repeat constructor; vm_compute; reflexivity.
  - unfold contract_data. repeat constructor; vm_compute; reflexivity.
Qed.

(** C3.  The index update is the decimal quotient [index * factor / RAY]
    rounded to 50 digits, not its floor.  On the integers
    index = factor = 1000000003170979198376458650 (the contract's growth
    factor for 1000 bps over one second) it returns
    1000000006341958406808026376.5362083002560465151598 where the floor is
    1000000006341958406808026376; and the first update of the script's own
    loop (1000 bps, every second) yields the index
    1000000003170979198376458650.4312531709791983764587 where the
    fixed-point model gives 1000000003170979198376458650. *)
Theorem update_index_not_floored :
  update_index (Decimal_of_int 1000000003170979198376458650)
               (Decimal_of_int 1000000003170979198376458650)
  = Ok (mkDec false 10000000063419584068080263765362083002560465151598 (-22))
  /\ is_integer (mkDec false 10000000063419584068080263765362083002560465151598 (-22)) = false
  /\ spec_nextIndex 1000000003170979198376458650 1000000003170979198376458650
     = 1000000006341958406808026376
  /\ for_range 1 (cumulative_step 1000 1) (RAY, RAY)
     = Ok (mkDec false 10000000031709791983764586504312531709791983764587 (-22),
           mkDec false 10000000031709791983764586504312531709791983764587 (-22))
  /\ is_integer (mkDec false 10000000031709791983764586504312531709791983764587 (-22)) = false
  /\ spec_nextIndex RAY_int (spec_growthFactor (spec_ratePerSecond 1000) 1)
     = 1000000003170979198376458650.
Proof.
  repeat split; vm_compute; reflexivity.
Qed.

(** ** The precision-loss evaluator *)

Lemma Decimal_le_deq (a b : Decimal) : a ==d b -> Decimal_le a b = true.
Proof.
  intros H. unfold Decimal_le, Decimal_cmp. unfold deq in H. rewrite H.
  rewrite Z.compare_refl. reflexivity.
Qed.

Lemma Decimal_le_false (a b : Decimal) :
  Decimal_le b a = false ->
  aligned a (Z.min (exp b) (exp a)) < aligned b (Z.min (exp b) (exp a)).
Proof.
  unfold Decimal_le, Decimal_cmp.
  destruct (Z.compare_spec (aligned b (Z.min (exp b) (exp a)))
                           (aligned a (Z.min (exp b) (exp a)))); intros; try discriminate; lia.
Qed.

Lemma sval_pos (d : Decimal) : wf d -> 0 < sval d -> sign d = false /\ 0 < coeff d.
Proof. unfold wf, sval. destruct (sign d); intros; split; try reflexivity; lia. Qed.

Lemma aligned_copy_negate (a : Decimal) (m : Z) :
  aligned (copy_negate a) m = - aligned a m.
Proof.
  unfold aligned, sval, copy_negate; cbn [sign coeff exp].
  destruct (sign a); cbn [negb]; lia.
Qed.

(** A strictly larger minuend gives a strictly positive difference. *)
Lemma Decimal_sub_pos (a b : Decimal) :
  Decimal_le b a = false ->
  sign (Decimal_sub b a) = false /\ 0 < coeff (Decimal_sub b a).
Proof.
  intros H. apply Decimal_le_false in H.
  unfold Decimal_sub, Decimal_add.
  destruct (sval_pos (add_exact b (copy_negate a)) (add_exact_wf _ _)) as [Hs Hc].
  { rewrite sval_add_exact. replace (exp (copy_negate a)) with (exp a) by reflexivity.
    rewrite aligned_copy_negate. lia. }
  rewrite fix_sign. split; [assumption|]. now apply fix_pos.
Qed.

Lemma Decimal_sub_fits (a b : Decimal) :
  coeff (Decimal_sub b a) = 0 \/ ndigits (coeff (Decimal_sub b a)) <= prec.
Proof. unfold Decimal_sub, Decimal_add. apply fix_fits, add_exact_wf. Qed.

Lemma Decimal_mul_pos (a b : Decimal) :
  0 < coeff a -> 0 < coeff b ->
  sign (Decimal_mul a b) = xorb (sign a) (sign b) /\ 0 < coeff (Decimal_mul a b).
Proof.
  intros Ha Hb. unfold Decimal_mul. rewrite fix_sign. split; [reflexivity|].
  apply fix_pos. unfold mul_exact; cbn [coeff]. nia.
Qed.

Lemma fix_magnitude (d d' : Decimal) :
  coeff d = coeff d' -> exp d = exp d' ->
  coeff (Decimal_fix d) = coeff (Decimal_fix d') /\ exp (Decimal_fix d) = exp (Decimal_fix d').
Proof.
  intros Hc He. unfold Decimal_fix. rewrite Hc, He.
  destruct (coeff d' =? 0); [auto|].
  destruct (_ <? _); [|auto]. destruct (_ >? _); cbn [coeff exp]; auto.
Qed.

(** [abs(a - b)] does not depend on the order of [a] and [b]. *)
Lemma Decimal_abs_sub_comm (a b : Decimal) :
  Decimal_abs (Decimal_sub a b) = Decimal_abs (Decimal_sub b a).
Proof.
  unfold Decimal_abs, Decimal_sub, Decimal_add.
  destruct (fix_magnitude (add_exact a (copy_negate b)) (add_exact b (copy_negate a)))
    as [Hc He].
  - unfold add_exact; cbn [coeff exp copy_negate].
    rewrite (Z.min_comm (exp b) (exp a)), !aligned_copy_negate. lia.
  - unfold add_exact; cbn [coeff exp copy_negate]. apply Z.min_comm.
  - rewrite Hc, He. reflexivity.
Qed.

Lemma Decimal_sub_nonzero (a b : Decimal) :
  ~ a ==d b -> 0 < coeff (Decimal_sub a b).
Proof.
  intros H. unfold Decimal_sub, Decimal_add. apply fix_pos.
  unfold add_exact; cbn [coeff exp copy_negate]. rewrite aligned_copy_negate.
  unfold deq in H. lia.
Qed.

Lemma Decimal_abs_pos (a : Decimal) : 0 < coeff a -> 0 < coeff (Decimal_abs a).
Proof. intros H. unfold Decimal_abs. apply fix_pos. exact H. Qed.

Lemma deq_dec (a b : Decimal) : {a ==d b} + {~ a ==d b}.
Proof. unfold deq. apply Z.eq_dec. Qed.

Lemma abs_loss_value_sign (a b : Decimal) : sign (abs_loss_value a b) = false.
Proof.
  unfold abs_loss_value, Decimal_mul. rewrite fix_sign. cbn [mul_exact sign D10000].
  rewrite quotient_sign. unfold Decimal_abs. rewrite fix_sign. reflexivity.
Qed.

Lemma abs_loss_value_pos (a b : Decimal) :
  ~ a ==d b -> 0 < coeff (abs_loss_value a b).
Proof.
  intros H. unfold abs_loss_value.
  apply Decimal_mul_pos; [|reflexivity].
  apply quotient_pos; [|reflexivity].
  apply Decimal_abs_pos, Decimal_sub_nonzero, H.
Qed.

(** C4 (as the code has it).  On ordinary decimals (exponent and adjusted
    exponent within 1000 of zero, far from the limits of the context)
    [calculate_precision_loss linear continuous] is one-sided: it returns
    exactly [Decimal('0')] whenever [continuous <= linear], in particular
    when the two are equal; when [continuous > linear] it returns
    [(continuous - linear) * 10000] (the division by [Decimal('1')] changes
    nothing), a strictly positive decimal.  The symmetric formula
    [abs(a - b) / RAY * 10000] is the one the script writes inline for its
    contract-vs-exact comparisons: that one is symmetric, never negative, and
    zero exactly when its inputs are equal. *)
Theorem calculate_precision_loss_one_sided (linear continuous : Decimal) :
  ordinary linear -> ordinary continuous ->
  (Decimal_le continuous linear = true ->
     calculate_precision_loss linear continuous = Ok D0) /\
  (linear ==d continuous -> calculate_precision_loss linear continuous = Ok D0) /\
  (Decimal_le continuous linear = false ->
     calculate_precision_loss linear continuous
     = Ok (Decimal_mul (Decimal_sub continuous linear) D10000)
     /\ sign (Decimal_mul (Decimal_sub continuous linear) D10000) = false
     /\ 0 < coeff (Decimal_mul (Decimal_sub continuous linear) D10000)) /\
  (abs_loss_bps linear continuous = abs_loss_bps continuous linear
   /\ exists z, abs_loss_bps linear continuous = Ok z
                /\ sign z = false /\ (coeff z = 0 <-> linear ==d continuous)).
Proof.
  intros _ _.
  split; [unfold calculate_precision_loss; intros ->; reflexivity|].
  split; [unfold calculate_precision_loss; intros H;
          rewrite (Decimal_le_deq continuous linear) by (now apply deq_sym);
          reflexivity|].
  split.
  - unfold calculate_precision_loss. intros H. rewrite H. run_truediv.
    rewrite quotient_D1 by (apply Decimal_add_wf || apply Decimal_sub_fits).
    destruct (Decimal_sub_pos linear continuous H) as [Hs Hp].
    destruct (Decimal_mul_pos (Decimal_sub continuous linear) D10000 Hp D10000_pos)
      as [Hs' Hp'].
    rewrite Hs in Hs'. auto.
  - rewrite !abs_loss_bps_ok. split.
    + unfold abs_loss_value. rewrite Decimal_abs_sub_comm. reflexivity.
    + eexists. split; [reflexivity|]. split; [apply abs_loss_value_sign|].
      split; [|apply abs_loss_zero].
      intros Hz. destruct (deq_dec linear continuous) as [|Hn]; [assumption|].
      pose proof (abs_loss_value_pos _ _ Hn). lia.
Qed.

Lemma ordinary_Decimal_of_int_1 : ordinary (Decimal_of_int 1).
Proof. unfold ordinary, adjusted. repeat split; vm_compute; discriminate. Qed.

Lemma ordinary_Decimal_of_int_2 : ordinary (Decimal_of_int 2).
Proof. unfold ordinary, adjusted. repeat split; vm_compute; discriminate. Qed.

Lemma calculate_precision_loss_one_sided_witness :
  ordinary (Decimal_of_int 1) /\ ordinary (Decimal_of_int 2) /\
  (Decimal_le (Decimal_of_int 2) (Decimal_of_int 1) = false ->
     calculate_precision_loss (Decimal_of_int 1) (Decimal_of_int 2)
     = Ok (Decimal_mul (Decimal_sub (Decimal_of_int 2) (Decimal_of_int 1)) D10000)
     /\ sign (Decimal_mul (Decimal_sub (Decimal_of_int 2) (Decimal_of_int 1)) D10000) = false
     /\ 0 < coeff (Decimal_mul (Decimal_sub (Decimal_of_int 2) (Decimal_of_int 1)) D10000)).
Proof.
  split; [exact ordinary_Decimal_of_int_1|]. split; [exact ordinary_Decimal_of_int_2|].
  exact (proj1 (proj2 (proj2 (calculate_precision_loss_one_sided
                                (Decimal_of_int 1) (Decimal_of_int 2)
                                ordinary_Decimal_of_int_1 ordinary_Decimal_of_int_2)))).
Defined.

(** C4 as stated fails: with linear = 2 and continuous = 1 the inputs differ
    by one unit (10000 basis points) and the evaluator returns zero, while
    with the arguments exchanged it returns 10000: neither symmetric nor
    positive whenever the inputs differ. *)
Lemma calculate_precision_loss_not_symmetric :
  calculate_precision_loss (Decimal_of_int 2) (Decimal_of_int 1) = Ok D0
  /\ calculate_precision_loss (Decimal_of_int 1) (Decimal_of_int 2)
     = Ok (mkDec false 10000 0)
  /\ Decimal_eqb (Decimal_of_int 2) (Decimal_of_int 1) = false.
Proof. repeat split; vm_compute; reflexivity. Qed.

(** ** Elapsed time zero *)

Lemma Decimal_mul_zero_r (a b : Decimal) : coeff b = 0 -> coeff (Decimal_mul a b) = 0.
Proof.
  intros H. unfold Decimal_mul.
  rewrite fix_zero; unfold mul_exact; cbn [coeff]; rewrite H; lia.
Qed.

Lemma Decimal_of_int_0 : coeff (Decimal_of_int 0) = 0.
Proof. reflexivity. Qed.

Lemma contract_gf_at_zero (rate_bps : Z) : contract_gf_value rate_bps 0 ==d RAY.
Proof.
  unfold contract_gf_value.
  eapply deq_trans;
    [apply Decimal_add_zero_r; [apply RAY_wf | apply Decimal_mul_zero_r, Decimal_of_int_0]|].
  reflexivity.
Qed.

Lemma exact_gf_at_zero (rate_bps : Z) : exact_gf_value rate_bps 0 ==d RAY.
Proof.
  unfold exact_gf_value.
  eapply deq_trans;
    [apply Decimal_add_zero_r; [apply RAY_wf | apply Decimal_mul_zero_r, Decimal_of_int_0]|].
  reflexivity.
Qed.

Lemma linear_at_zero (rate_bps : Z) :
  Decimal_add D1 (Decimal_mul (linear_rps_value rate_bps) (Decimal_of_int 0)) ==d D1.
Proof.
  eapply deq_trans;
    [apply Decimal_add_zero_r;
       [unfold wf; cbn; lia | apply Decimal_mul_zero_r, Decimal_of_int_0]|].
  reflexivity.
Qed.

Lemma calculate_continuous_compounding_factor_unfold (F : FloatLib) (rate_bps t : Z) :
  calculate_continuous_compounding_factor F rate_bps t
  = (x <- math_exp F (float_of_Decimal F
                        (Decimal_mul (linear_rps_value rate_bps) (Decimal_of_int t))) ;;
     Ok (Decimal_of_float_str F x)).
Proof.
  unfold calculate_continuous_compounding_factor, linear_rps_value.
  run_truediv. reflexivity.
Qed.

Lemma series_floats_exp_of_zero : exp_of_zero_is_one series_floats.
Proof.
  intros d Hd. cbn [series_floats math_exp float_of_Decimal Decimal_of_float_str].
  rewrite Hd. reflexivity.
Qed.

(** C10.  With [time_seconds = 0], for every rate below 10^26 basis points
    in absolute value: the "contract" growth factor and the "exact" growth
    factor both equal RAY and their loss is a zero; the linear factor equals
    1; and, for a float library in which [exp(float(0))] prints as ['1.0'],
    the continuous factor equals 1 and the loss between the linear and the
    continuous factor, in either order, is exactly [Decimal('0')]. *)
Theorem zero_time_is_baseline (F : FloatLib) (rate_bps : Z) :
  Z.abs rate_bps < 10 ^ 26 ->
  exp_of_zero_is_one F ->
  (exists c e z,
      yield_index_update_row rate_bps 0 = Ok (c, e, z)
      /\ c ==d RAY /\ e ==d RAY /\ coeff z = 0) /\
  (exists l c,
      linear_vs_continuous_row F rate_bps 0 = Ok (l, c, D0)
      /\ l ==d D1 /\ c ==d D1
      /\ calculate_precision_loss c l = Ok D0).
Proof.
  intros _ HF. split.
  - unfold yield_index_update_row.
    rewrite contract_growth_factor_ok. cbn [bind].
    rewrite exact_growth_factor_ok. cbn [bind].
    rewrite abs_loss_bps_ok. cbn [bind].
    do 3 eexists. split; [reflexivity|].
    pose proof (contract_gf_at_zero rate_bps) as Hc.
    pose proof (exact_gf_at_zero rate_bps) as He.
    repeat split; auto.
    apply abs_loss_zero. eapply deq_trans; [exact He|now apply deq_sym].
  - unfold linear_vs_continuous_row.
    rewrite calculate_linear_growth_factor_ok. cbn [bind].
    rewrite calculate_continuous_compounding_factor_unfold.
    rewrite (HF _ (Decimal_mul_zero_r _ _ Decimal_of_int_0)). cbn [bind].
    pose proof (linear_at_zero rate_bps) as Hl.
    set (l := Decimal_add D1 _) in *.
    assert (Hc : mkDec false 10 (-1) ==d D1) by reflexivity.
    assert (Hlc : mkDec false 10 (-1) ==d l)
      by (eapply deq_trans; [exact Hc|now apply deq_sym]).
    exists l, (mkDec false 10 (-1)). unfold calculate_precision_loss.
    rewrite (Decimal_le_deq _ _ Hlc), (Decimal_le_deq _ _ (deq_sym _ _ Hlc)).
    cbn [bind]. auto.
Qed.

Lemma zero_time_is_baseline_witness :
  Z.abs 1000 < 10 ^ 26 /\ exp_of_zero_is_one series_floats /\
  exists l c,
    linear_vs_continuous_row series_floats 1000 0 = Ok (l, c, D0)
    /\ l ==d D1 /\ c ==d D1 /\ calculate_precision_loss c l = Ok D0.
Proof.
  assert (H : Z.abs 1000 < 10 ^ 26) by (vm_compute; reflexivity).
  split; [exact H|]. split; [exact series_floats_exp_of_zero|].
  exact (proj2 (zero_time_is_baseline series_floats 1000 H series_floats_exp_of_zero)).
Defined.

(** ** A single update over the whole period *)

Lemma contract_gf_fits (rate_bps t : Z) :
  coeff (contract_gf_value rate_bps t) = 0
  \/ ndigits (coeff (contract_gf_value rate_bps t)) <= prec.
Proof. unfold contract_gf_value, Decimal_add. apply fix_fits, add_exact_wf. Qed.

Lemma exact_gf_fits (rate_bps t : Z) :
  coeff (exact_gf_value rate_bps t) = 0
  \/ ndigits (coeff (exact_gf_value rate_bps t)) <= prec.
Proof. unfold exact_gf_value, Decimal_add. apply fix_fits, add_exact_wf. Qed.

Lemma extreme_row_single_step (rate_bps t : Z) :
  extreme_row rate_bps t = yield_index_update_row rate_bps t.
Proof.
  unfold extreme_row, yield_index_update_row.
  rewrite contract_growth_factor_ok. cbn [bind].
  rewrite update_index_RAY
    by (apply contract_gf_fits || (unfold contract_gf_value; apply Decimal_add_wf)).
  cbn [bind]. rewrite exact_growth_factor_ok. cbn [bind].
  rewrite update_index_RAY
    by (apply exact_gf_fits || (unfold exact_gf_value; apply Decimal_add_wf)).
  reflexivity.
Qed.

(** C9 (for a positive period).  For every rate below 10^26 basis points in
    absolute value and every period [0 < total_time < 10^16], a cumulative
    scenario whose update interval is the whole period performs exactly one
    update, and its final contract index, final exact index and loss are
    those of the single-update row for the same rate and period (and of the
    extreme-scenario row): the final index is the single-step growth
    factor. *)
Theorem one_step_cumulative_is_single_step (rate_bps total_time : Z) :
  Z.abs rate_bps < 10 ^ 26 -> 0 < total_time < 10 ^ 16 ->
  exists g e z,
    cumulative_row rate_bps total_time total_time = Ok (1, g, e, z)
    /\ yield_index_update_row rate_bps total_time = Ok (g, e, z)
    /\ extreme_row rate_bps total_time = Ok (g, e, z)
    /\ contract_growth_factor rate_bps total_time = Ok g.
Proof.
  intros _ [Ht _]. rewrite extreme_row_single_step.
  unfold cumulative_row, yield_index_update_row, floordiv.
  destruct (Z.eqb_spec total_time 0); [lia|]. cbn [bind].
  rewrite Z.div_same by lia. change (Z.to_nat 1) with 1%nat. cbn [for_range].
  rewrite cumulative_step_ok. cbn [bind fst snd].
  rewrite contract_growth_factor_ok. cbn [bind].
  rewrite exact_growth_factor_ok. cbn [bind].
  pose proof (update_index_RAY (contract_gf_value rate_bps total_time)
                ltac:(unfold contract_gf_value; apply Decimal_add_wf)
                (contract_gf_fits _ _)) as Hc.
  pose proof (update_index_RAY (exact_gf_value rate_bps total_time)
                ltac:(unfold exact_gf_value; apply Decimal_add_wf)
                (exact_gf_fits _ _)) as He.
  rewrite update_index_ok in Hc, He. injection Hc as Hc. injection He as He.
  rewrite Hc, He.
  destruct (abs_loss_bps (exact_gf_value rate_bps total_time)
                         (contract_gf_value rate_bps total_time)) as [z|err] eqn:Hz;
    [|rewrite abs_loss_bps_ok in Hz; discriminate].
  cbn [bind]. exists (contract_gf_value rate_bps total_time),
                     (exact_gf_value rate_bps total_time), z. auto.
Qed.

Lemma one_step_cumulative_is_single_step_witness :
  Z.abs 1000 < 10 ^ 26 /\ 0 < 86400 < 10 ^ 16 /\
  exists g e z,
    cumulative_row 1000 86400 86400 = Ok (1, g, e, z)
    /\ yield_index_update_row 1000 86400 = Ok (g, e, z)
    /\ extreme_row 1000 86400 = Ok (g, e, z)
    /\ contract_growth_factor 1000 86400 = Ok g.
Proof.
  assert (H1 : Z.abs 1000 < 10 ^ 26) by (vm_compute; reflexivity).
  assert (H2 : 0 < 86400 < 10 ^ 16) by (split; vm_compute; reflexivity).
  split; [exact H1|]. split; [exact H2|].
  exact (one_step_cumulative_is_single_step 1000 86400 H1 H2).
Defined.

(** C9 as stated fails at [timeSeconds = 0], a valid RateSpec: the cumulative
    scenario divides [0 // 0] and raises, while the single-step model returns
    its row. *)
Lemma one_step_cumulative_zero_period :
  cumulative_row 1000 0 0 = Raise ZeroDivisionError
  /\ yield_index_update_row 1000 0
     = Ok (mkDec false 10000000000000000000000000000000000000000000000000 (-22),
           mkDec false 10000000000000000000000000000000000000000000000000 (-22),
           mkDec false 0 (-49)).
Proof. split; vm_compute; reflexivity. Qed.

(** ** Inputs that are not validated *)



Lemma contract_rps_sign (rate_bps : Z) :
  sign (contract_rps_value rate_bps) = (rate_bps <? 0).
Proof.
  unfold contract_rps_value. rewrite !quotient_sign.
  unfold Decimal_mul. rewrite fix_sign. cbn [mul_exact sign Decimal_of_int RAY SECONDS_IN_YEAR D10000].
  now rewrite !xorb_false_r.
Qed.

Lemma contract_rps_nonzero (rate_bps : Z) :
  rate_bps <> 0 -> 0 < coeff (contract_rps_value rate_bps).
Proof.
  intros H. unfold contract_rps_value.
  apply quotient_pos; [|reflexivity]. apply quotient_pos; [|reflexivity].
  unfold Decimal_mul. apply fix_pos. cbn [mul_exact coeff Decimal_of_int RAY]. lia.
Qed.

(** C7 as stated fails: a negative rate, a negative time and a rate above the
    5000 bps cap are all computed with, and the result for 6000 bps over a
    year (1.6) is not the clamped one (1.5). *)
Lemma invalid_rate_spec_not_rejected :
  calculate_linear_growth_factor (-1000) 1
  = Ok (mkDec false 99999999682902080162354134956874682902080162354135 (-50))
  /\ calculate_linear_growth_factor 1000 (-86400)
     = Ok (mkDec false 99972602739726027397260273972602739726027397260274 (-50))
  /\ calculate_linear_growth_factor 6000 31536000
     = Ok (mkDec false 16000000000000000000000000000000000000000000000000 (-49))
  /\ calculate_linear_growth_factor 5000 31536000
     = Ok (mkDec false 15000000000000000000000000000000000000000000000000 (-49))
  /\ exists v, calculate_continuous_compounding_factor series_floats (-7000) (-3) = Ok v.
Proof.
  repeat split; try (vm_compute; reflexivity). eexists. vm_compute. reflexivity.
Qed.

(** ** The linear factor at very long periods *)


(** * Order: rounding and the operations are monotone *)

Lemma Decimal_le_at (a b : Decimal) (m : Z) :
  m <= exp a -> m <= exp b -> (Decimal_le a b = true <-> aligned a m <= aligned b m).
Proof.
  intros Ha Hb. unfold Decimal_le, Decimal_cmp. set (m0 := Z.min (exp a) (exp b)).
  rewrite (aligned_lower a m0 m), (aligned_lower b m0 m) by lia.
  pose proof (pow10_pos (m0 - m) ltac:(lia)).
  destruct (Z.compare_spec (aligned a m0) (aligned b m0)); split; intros; try discriminate;
    try reflexivity; nia.
Qed.

Lemma Decimal_le_compat (a a' b b' : Decimal) :
  a ==d a' -> b ==d b' -> Decimal_le a b = true -> Decimal_le a' b' = true.
Proof.
  intros Ha Hb H.
  set (m := Z.min (Z.min (exp a) (exp a')) (Z.min (exp b) (exp b'))).
  apply (Decimal_le_at a b m) in H; [|lia|lia].
  apply (deq_at a a' m) in Ha; [|lia|lia].
  apply (deq_at b b' m) in Hb; [|lia|lia].
  apply (Decimal_le_at a' b' m); lia.
Qed.

Lemma Decimal_le_refl (a : Decimal) : Decimal_le a a = true.
Proof. apply Decimal_le_deq. reflexivity. Qed.

Lemma Decimal_le_trans (a b c : Decimal) :
  Decimal_le a b = true -> Decimal_le b c = true -> Decimal_le a c = true.
Proof.
  intros H1 H2. set (m := Z.min (exp a) (Z.min (exp b) (exp c))).
  apply (Decimal_le_at a b m) in H1; [|lia|lia].
  apply (Decimal_le_at b c m) in H2; [|lia|lia].
  apply (Decimal_le_at a c m); lia.
Qed.

Lemma round_half_even_mono (c c' d : Z) :
  0 <= d -> c <= c' -> round_half_even c d <= round_half_even c' d.
Proof.
  intros Hd Hc. pose proof (pow10_pos d Hd) as HP.
  pose proof (Z.div_le_mono c c' (10 ^ d) HP Hc) as Hq.
  destruct (Z.eq_dec (c / 10 ^ d) (c' / 10 ^ d)) as [E|NE].
  - pose proof (Z.div_mod c (10 ^ d) ltac:(lia)) as H1.
    pose proof (Z.div_mod c' (10 ^ d) ltac:(lia)) as H2.
    unfold round_half_even. rewrite E in *.
    set (q := c' / 10 ^ d) in *. set (r := c mod 10 ^ d) in *. set (r' := c' mod 10 ^ d) in *.
    assert (r <= r') by nia. clearbody q r r'.
    destruct (Z.compare_spec (2 * r) (10 ^ d)), (Z.compare_spec (2 * r') (10 ^ d));
      destruct (Z.even q); lia.
  - pose proof (round_half_even_bounds c d Hd). pose proof (round_half_even_bounds c' d Hd).
    lia.
Qed.

Lemma ndigits_mono (a b : Z) : 0 < a <= b -> ndigits a <= ndigits b.
Proof.
  intros [Ha Hab].
  destruct (ndigits_spec a Ha) as [_ [Hlo _]].
  destruct (ndigits_spec b ltac:(lia)) as [H1 [_ Hhi]].
  destruct (Z.le_gt_cases (ndigits a) (ndigits b)) as [|Hgt]; [assumption|].
  pose proof (pow10_le (ndigits b) (ndigits a - 1) ltac:(lia)). lia.
Qed.

Lemma round_coeff_fits (c : Z) : ndigits c <= prec -> round_coeff c = c.
Proof. intros H. unfold round_coeff. destruct (Z.leb_spec (ndigits c) prec); [reflexivity|lia]. Qed.

Lemma round_coeff_large (c : Z) :
  0 < c -> prec < ndigits c ->
  round_coeff c = round_half_even c (ndigits c - prec) * 10 ^ (ndigits c - prec)
  /\ 10 ^ (ndigits c - 1) <= round_coeff c <= 10 ^ ndigits c.
Proof.
  intros Hc HL. unfold round_coeff. destruct (Z.leb_spec (ndigits c) prec); [lia|].
  split; [reflexivity|].
  pose proof (round_to_prec_bounds c Hc HL) as Hb.
  pose proof (pow10_pos (ndigits c - prec) ltac:(lia)) as HP.
  assert (E1 : 10 ^ (ndigits c - 1) = 10 ^ (prec - 1) * 10 ^ (ndigits c - prec)).
  { rewrite <- pow10_split by (unfold prec in *; lia). f_equal. lia. }
  assert (E2 : 10 ^ ndigits c = 10 ^ prec * 10 ^ (ndigits c - prec)).
  { rewrite <- pow10_split by (unfold prec in *; lia). f_equal. lia. }
  rewrite E1, E2. clear E1 E2.
  set (P := 10 ^ (ndigits c - prec)) in *.
  set (q := round_half_even c (ndigits c - prec)) in *. clearbody P q. nia.
Qed.

Lemma round_coeff_mono (a b : Z) : 0 < a <= b -> round_coeff a <= round_coeff b.
Proof.
  intros [Ha Hab]. assert (Hb : 0 < b) by lia.
  pose proof (ndigits_mono a b ltac:(lia)) as HL.
  destruct (ndigits_spec a Ha) as [Ha0 [Halo Hahi]].
  destruct (ndigits_spec b Hb) as [Hb0 [Hblo Hbhi]].
  destruct (Z.le_gt_cases (ndigits b) prec) as [Hbs|Hbl].
  - rewrite !round_coeff_fits by lia. assumption.
  - destruct (round_coeff_large b Hb Hbl) as [Eb [Hb1 Hb2]].
    destruct (Z.le_gt_cases (ndigits a) prec) as [Has|Hal].
    + rewrite (round_coeff_fits a) by lia.
      pose proof (pow10_le (ndigits a) (ndigits b - 1) ltac:(lia)). lia.
    + destruct (round_coeff_large a Ha Hal) as [Ea [Ha1 Ha2]].
      destruct (Z.eq_dec (ndigits a) (ndigits b)) as [E|NE].
      * rewrite Ea, Eb, E.
        pose proof (pow10_pos (ndigits b - prec) ltac:(lia)).
        pose proof (round_half_even_mono a b (ndigits b - prec) ltac:(lia) Hab). nia.
      * pose proof (pow10_le (ndigits a) (ndigits b - 1) ltac:(lia)). lia.
Qed.

Lemma round_coeff_0 : round_coeff 0 = 0.
Proof. reflexivity. Qed.

Lemma round_coeff_pos (c : Z) : 0 < c -> 0 < round_coeff c.
Proof.
  intros Hc. pose proof (ndigits_spec c Hc) as [H1 _].
  destruct (Z.le_gt_cases (ndigits c) prec).
  - rewrite round_coeff_fits; lia.
  - destruct (round_coeff_large c Hc ltac:(lia)) as [_ [Hlo _]].
    pose proof (pow10_pos (ndigits c - 1) ltac:(lia)). lia.
Qed.

Lemma sround_mono (x y : Z) : x <= y -> sround x <= sround y.
Proof.
  intros H. unfold sround.
  destruct (Z.ltb_spec x 0), (Z.ltb_spec y 0); try lia.
  - pose proof (round_coeff_mono (- y) (- x) ltac:(lia)). lia.
  - pose proof (round_coeff_pos (- x) ltac:(lia)).
    destruct (Z.eq_dec y 0) as [->|]; [rewrite round_coeff_0; lia|].
    pose proof (round_coeff_pos y ltac:(lia)). lia.
  - destruct (Z.eq_dec x 0) as [->|].
    + rewrite round_coeff_0. destruct (Z.eq_dec y 0) as [->|]; [rewrite round_coeff_0; lia|].
      pose proof (round_coeff_pos y ltac:(lia)). lia.
    + apply round_coeff_mono. lia.
Qed.

Lemma fix_exp_ge (d : Decimal) : wf d -> exp d <= exp (Decimal_fix d).
Proof.
  unfold wf. intros Hd.
  destruct (Z.eq_dec (coeff d) 0) as [H0|H0]; [rewrite fix_zero; lia|].
  destruct (Z.le_gt_cases (ndigits (coeff d)) prec) as [HL|HL].
  - rewrite fix_small; lia.
  - pose proof (fix_large d ltac:(lia) ltac:(lia)) as HF. cbv zeta in HF. rewrite HF.
    destruct (_ =? _); cbn [exp]; lia.
Qed.

(** The value of [_fix d], read at the exponent of [d]. *)
Lemma aligned_fix (d : Decimal) :
  wf d -> aligned (Decimal_fix d) (exp d) = sround (sval d).
Proof.
  unfold wf. intros Hd. destruct d as [s c e]; cbn [coeff exp] in *.
  destruct (Z.eq_dec c 0) as [->|H0].
  - rewrite fix_zero by reflexivity. unfold aligned, sval, sround; cbn [sign coeff exp].
    replace (e - e) with 0 by lia. destruct s; reflexivity.
  - assert (Hc : 0 < c) by lia.
    assert (Hsr : sround (sval (mkDec s c e)) = if s then - round_coeff c else round_coeff c).
    { unfold sround, sval; cbn [sign coeff]. destruct s.
      - destruct (Z.ltb_spec (- c) 0); [|lia]. f_equal. f_equal. lia.
      - destruct (Z.ltb_spec c 0); [lia|reflexivity]. }
    rewrite Hsr. clear Hsr.
    destruct (Z.le_gt_cases (ndigits c) prec) as [HL|HL].
    + rewrite fix_small by (cbn [coeff]; lia). rewrite round_coeff_fits by lia.
      unfold aligned, sval; cbn [sign coeff exp]. replace (e - e) with 0 by lia.
      destruct s; change (10 ^ 0) with 1; lia.
    + pose proof (fix_large (mkDec s c e) Hc HL) as HF. cbv zeta in HF.
      cbn [sign coeff exp] in HF. rewrite HF. clear HF.
      destruct (round_coeff_large c Hc HL) as [E _]. rewrite E.
      set (n := ndigits c - prec). assert (0 < n) by (unfold n; lia).
      destruct (Z.eqb_spec (round_half_even c n) (10 ^ prec)) as [Heq|Hne].
      * rewrite Heq. unfold aligned, sval; cbn [sign coeff exp].
        replace (e + n + 1 - e) with (1 + n) by lia. rewrite pow10_split by lia.
        change (10 ^ (prec - 1)) with (10 ^ 49). change (10 ^ prec) with (10 ^ 50).
        change (10 ^ 1) with 10. destruct s; lia.
      * unfold aligned, sval; cbn [sign coeff exp].
        replace (e + n - e) with n by lia. destruct s; lia.
Qed.

(** Rounding to the context precision is monotone. *)
Lemma fix_mono (a b : Decimal) :
  wf a -> wf b -> Decimal_le a b = true -> Decimal_le (Decimal_fix a) (Decimal_fix b) = true.
Proof.
  intros Ha Hb H. set (m := Z.min (exp a) (exp b)).
  apply (Decimal_le_at a b m) in H; [|lia|lia].
  set (a' := mkDec (sign a) (coeff a * 10 ^ (exp a - m)) m).
  set (b' := mkDec (sign b) (coeff b * 10 ^ (exp b - m)) m).
  assert (Ea : a' ==d a).
  { unfold a'. eapply deq_trans; [apply deq_scale; lia|].
    replace (m + (exp a - m)) with (exp a) by lia. destruct a; reflexivity. }
  assert (Eb : b' ==d b).
  { unfold b'. eapply deq_trans; [apply deq_scale; lia|].
    replace (m + (exp b - m)) with (exp b) by lia. destruct b; reflexivity. }
  assert (Wa : wf a').
  { unfold wf, a' in *; cbn [coeff]. pose proof (pow10_pos (exp a - m) ltac:(lia)). nia. }
  assert (Wb : wf b').
  { unfold wf, b' in *; cbn [coeff]. pose proof (pow10_pos (exp b - m) ltac:(lia)). nia. }
  apply (Decimal_le_compat (Decimal_fix a') (Decimal_fix a) (Decimal_fix b') (Decimal_fix b));
    [apply fix_deq; assumption | apply fix_deq; assumption |].
  pose proof (fix_exp_ge a' Wa) as Ga. pose proof (fix_exp_ge b' Wb) as Gb.
  apply (Decimal_le_at _ _ m); [exact Ga | exact Gb |].
  pose proof (aligned_fix a' Wa) as Fa. pose proof (aligned_fix b' Wb) as Fb.
  cbn [exp a' b'] in Fa, Fb. rewrite Fa, Fb. apply sround_mono.
  assert (Sa : sval a' = aligned a m).
  { unfold a', sval, aligned; cbn [sign coeff]. unfold sval. destruct (sign a); lia. }
  assert (Sb : sval b' = aligned b m).
  { unfold b', sval, aligned; cbn [sign coeff]. unfold sval. destruct (sign b); lia. }
  rewrite Sa, Sb. exact H.
Qed.

Lemma sval_Decimal_of_int (n : Z) : sval (Decimal_of_int n) = n.
Proof. unfold sval, Decimal_of_int; cbn [sign coeff]. destruct (Z.ltb_spec n 0); lia. Qed.

Lemma aligned_Decimal_of_int (n : Z) : aligned (Decimal_of_int n) 0 = n.
Proof.
  unfold aligned. rewrite sval_Decimal_of_int. cbn [Decimal_of_int exp].
  change (10 ^ (0 - 0)) with 1. lia.
Qed.

Lemma Decimal_of_int_mono (n n' : Z) :
  n <= n' -> Decimal_le (Decimal_of_int n) (Decimal_of_int n') = true.
Proof.
  intros H. apply (Decimal_le_at _ _ 0); cbn [Decimal_of_int exp]; try lia.
  now rewrite !aligned_Decimal_of_int.
Qed.

Lemma mul_exact_mono_r (r a b : Decimal) :
  0 <= sval r -> Decimal_le a b = true ->
  Decimal_le (mul_exact r a) (mul_exact r b) = true.
Proof.
  intros Hr H. set (m := Z.min (exp a) (exp b)).
  apply (Decimal_le_at a b m) in H; [|lia|lia].
  apply (Decimal_le_at _ _ (exp r + m)); [unfold mul_exact; cbn [exp]; lia ..|].
  rewrite !aligned_mul_exact by lia.
  assert (0 <= aligned r (exp r)).
  { unfold aligned. replace (exp r - exp r) with 0 by lia. change (10 ^ 0) with 1. lia. }
  nia.
Qed.

Lemma Decimal_mul_mono_r (r a b : Decimal) :
  wf r -> wf a -> wf b -> 0 <= sval r -> Decimal_le a b = true ->
  Decimal_le (Decimal_mul r a) (Decimal_mul r b) = true.
Proof.
  intros. apply fix_mono; auto using mul_exact_wf, mul_exact_mono_r.
Qed.

Lemma add_exact_mono_r (c a b : Decimal) :
  Decimal_le a b = true -> Decimal_le (add_exact c a) (add_exact c b) = true.
Proof.
  intros H. set (m := Z.min (exp c) (Z.min (exp a) (exp b))).
  apply (Decimal_le_at a b m) in H; [|lia|lia].
  apply (Decimal_le_at _ _ m); [unfold add_exact; cbn [exp]; lia ..|].
  rewrite !aligned_add_exact by lia. lia.
Qed.

Lemma Decimal_add_mono_r (c a b : Decimal) :
  Decimal_le a b = true -> Decimal_le (Decimal_add c a) (Decimal_add c b) = true.
Proof. intros. apply fix_mono; auto using add_exact_wf, add_exact_mono_r. Qed.

Lemma scaleb_mono (a b : Decimal) (j : Z) :
  Decimal_le a b = true -> Decimal_le (scaleb a j) (scaleb b j) = true.
Proof.
  intros H. set (m := Z.min (exp a) (exp b)).
  apply (Decimal_le_at a b m) in H; [|lia|lia].
  apply (Decimal_le_at _ _ (m + j)); [unfold scaleb; cbn [exp]; lia ..|].
  unfold aligned, sval, scaleb in *; cbn [sign coeff exp].
  replace (exp a + j - (m + j)) with (exp a - m) by lia.
  replace (exp b + j - (m + j)) with (exp b - m) by lia. exact H.
Qed.

Lemma quotient_RAY_deq (x : Decimal) :
  wf x -> quotient x RAY ==d Decimal_fix (scaleb x (-27)).
Proof.
  intros Hx. change RAY with (mkDec false (10 ^ 0) 27).
  replace (-27) with (- 0 - 27) by lia. apply quotient_pow10; [assumption|lia].
Qed.

Lemma quotient_RAY_mono (a b : Decimal) :
  wf a -> wf b -> Decimal_le a b = true ->
  Decimal_le (quotient a RAY) (quotient b RAY) = true.
Proof.
  intros Ha Hb H.
  apply (Decimal_le_compat (Decimal_fix (scaleb a (-27))) _ (Decimal_fix (scaleb b (-27))));
    [apply deq_sym, quotient_RAY_deq; assumption
    |apply deq_sym, quotient_RAY_deq; assumption|].
  apply fix_mono; auto using scaleb_wf, scaleb_mono.
Qed.

Lemma linear_rps_sign (rate_bps : Z) : sign (linear_rps_value rate_bps) = (rate_bps <? 0).
Proof.
  unfold linear_rps_value. rewrite !quotient_sign.
  cbn [sign Decimal_of_int SECONDS_IN_YEAR D10000]. now rewrite !xorb_false_r.
Qed.

Lemma linear_rps_wf (rate_bps : Z) : wf (linear_rps_value rate_bps).
Proof. unfold linear_rps_value. auto 6 with dec. Qed.

Lemma linear_rps_nonneg (rate_bps : Z) : 0 <= rate_bps -> 0 <= sval (linear_rps_value rate_bps).
Proof.
  intros H. pose proof (linear_rps_wf rate_bps) as Hw. unfold wf in Hw.
  unfold sval. rewrite linear_rps_sign. destruct (Z.ltb_spec rate_bps 0); lia.
Qed.

Lemma contract_rps_nonneg (rate_bps : Z) : 0 <= rate_bps -> 0 <= sval (contract_rps_value rate_bps).
Proof.
  intros H. pose proof (contract_rps_wf rate_bps) as Hw. unfold wf in Hw.
  unfold sval. rewrite contract_rps_sign. destruct (Z.ltb_spec rate_bps 0); lia.
Qed.

Lemma exact_rps_sign (rate_bps : Z) : sign (exact_rps_value rate_bps) = (rate_bps <? 0).
Proof.
  unfold exact_rps_value, Decimal_mul. rewrite fix_sign. cbn [mul_exact sign RAY].
  rewrite xorb_false_r. exact (linear_rps_sign rate_bps).
Qed.

Lemma exact_rps_nonneg (rate_bps : Z) : 0 <= rate_bps -> 0 <= sval (exact_rps_value rate_bps).
Proof.
  intros H. pose proof (exact_rps_wf rate_bps) as Hw. unfold wf in Hw.
  unfold sval. rewrite exact_rps_sign. destruct (Z.ltb_spec rate_bps 0); lia.
Qed.

(** * Further properties of the script *)

(** ** The linear factor and the index only grow *)

(** X6.  For a non-negative rate below 10^26 basis points and times below
    10^16 seconds in absolute value, the linear growth factor never
    decreases when the elapsed time grows, and it is at least 1 for a
    non-negative time. *)
Theorem linear_growth_factor_monotone (rate_bps t1 t2 : Z) :
  0 <= rate_bps < 10 ^ 26 -> Z.abs t1 < 10 ^ 16 -> Z.abs t2 < 10 ^ 16 -> t1 <= t2 ->
  exists l1 l2,
    calculate_linear_growth_factor rate_bps t1 = Ok l1
    /\ calculate_linear_growth_factor rate_bps t2 = Ok l2
    /\ Decimal_le l1 l2 = true
    /\ (0 <= t1 -> Decimal_le D1 l1 = true).
Proof.
  intros [Hr _] _ _ Ht. rewrite !calculate_linear_growth_factor_ok.
  do 2 eexists. split; [reflexivity|]. split; [reflexivity|].
  pose proof (linear_rps_wf rate_bps) as Hw.
  pose proof (linear_rps_nonneg rate_bps Hr) as Hn.
  split.
  - apply Decimal_add_mono_r. apply Decimal_mul_mono_r; auto with dec.
    now apply Decimal_of_int_mono.
  - intros H0.
    apply (Decimal_le_compat
             (Decimal_add D1 (Decimal_mul (linear_rps_value rate_bps) (Decimal_of_int 0)))
             D1 _ _ (linear_at_zero rate_bps) (deq_refl _)).
    apply Decimal_add_mono_r. apply Decimal_mul_mono_r; auto with dec.
    now apply Decimal_of_int_mono.
Qed.

Lemma linear_growth_factor_monotone_witness :
  0 <= 1000 < 10 ^ 26 /\ Z.abs 3600 < 10 ^ 16 /\ Z.abs 86400 < 10 ^ 16 /\ 3600 <= 86400 /\
  exists l1 l2,
    calculate_linear_growth_factor 1000 3600 = Ok l1
    /\ calculate_linear_growth_factor 1000 86400 = Ok l2
    /\ Decimal_le l1 l2 = true
    /\ (0 <= 3600 -> Decimal_le D1 l1 = true).
Proof.
  assert (H1 : 0 <= 1000 < 10 ^ 26) by (split; [lia | reflexivity]).
  assert (H2 : Z.abs 3600 < 10 ^ 16) by reflexivity.
  assert (H3 : Z.abs 86400 < 10 ^ 16) by reflexivity.
  assert (H4 : 3600 <= 86400) by lia.
  split; [exact H1|]. split; [exact H2|]. split; [exact H3|]. split; [exact H4|].
  exact (linear_growth_factor_monotone 1000 3600 86400 H1 H2 H3 H4).
Defined.

Lemma Decimal_le_RAY_pos (x : Decimal) : Decimal_le RAY x = true -> 0 < sval x.
Proof.
  intros H. set (m := Z.min 27 (exp x)).
  apply (Decimal_le_at RAY x m) in H; [|cbn [RAY exp]; lia|lia].
  unfold aligned in H. cbn [RAY sval sign coeff exp] in H.
  pose proof (pow10_pos (27 - m) ltac:(lia)). pose proof (pow10_pos (exp x - m) ltac:(lia)).
  nia.
Qed.

Lemma quotient_fits (a b : Decimal) :
  wf a -> 0 < coeff b ->
  coeff (quotient a b) = 0 \/ ndigits (coeff (quotient a b)) <= prec.
Proof.
  intros Ha Hb. unfold quotient. apply fix_fits.
  destruct (Z.eqb_spec (coeff a) 0); [unfold wf; cbn [coeff]; lia|].
  apply div_nonzero_wf; unfold wf in Ha; lia.
Qed.

Lemma fits_fix (x : Decimal) :
  wf x -> coeff x = 0 \/ ndigits (coeff x) <= prec -> Decimal_fix x = x.
Proof.
  intros Hx [H|H]; [now apply fix_zero|].
  destruct (Z.eq_dec (coeff x) 0); [now apply fix_zero|].
  apply fix_small; unfold wf in Hx; lia.
Qed.

(** [x * RAY / RAY] is [x] when [x] fits the precision. *)
Lemma mul_RAY_div_RAY (x : Decimal) :
  wf x -> coeff x = 0 \/ ndigits (coeff x) <= prec ->
  quotient (Decimal_mul x RAY) RAY = x.
Proof.
  intros Hx HL. rewrite Decimal_mul_RAY, quotient_scaleb_l, quotient_RAY, scaleb_scaleb.
  replace (-27 + 27) with 0 by lia. rewrite scaleb_0, fits_fix by assumption.
  now apply quotient_D1.
Qed.

Lemma growth_factor_ge_RAY (r : Decimal) (u : Z) :
  wf r -> 0 <= sval r -> 0 <= u ->
  Decimal_le RAY (Decimal_add RAY (Decimal_mul r (Decimal_of_int u))) = true.
Proof.
  intros Hr Hs Hu.
  apply (Decimal_le_compat (Decimal_add RAY (Decimal_mul r (Decimal_of_int 0))) RAY
           (Decimal_add RAY (Decimal_mul r (Decimal_of_int u)))
           (Decimal_add RAY (Decimal_mul r (Decimal_of_int u)))).
  - eapply deq_trans;
      [apply Decimal_add_zero_r; [apply RAY_wf | apply Decimal_mul_zero_r, Decimal_of_int_0]|].
    reflexivity.
  - reflexivity.
  - apply Decimal_add_mono_r, Decimal_mul_mono_r; auto with dec.
    now apply Decimal_of_int_mono.
Qed.

(** One index update with a factor of at least RAY does not decrease a
    non-negative index that fits the precision. *)
Lemma update_index_grows (idx gf : Decimal) :
  wf idx -> wf gf -> (coeff idx = 0 \/ ndigits (coeff idx) <= prec) ->
  Decimal_le RAY idx = true -> Decimal_le RAY gf = true ->
  Decimal_le idx (quotient (Decimal_mul idx gf) RAY) = true.
Proof.
  intros Hi Hg Hf Hri Hrg.
  pose proof (Decimal_le_RAY_pos idx Hri) as Hp.
  rewrite <- (mul_RAY_div_RAY idx Hi Hf) at 1.
  apply quotient_RAY_mono; auto with dec.
  apply Decimal_mul_mono_r; auto with dec. lia.
Qed.

Lemma contract_gf_ge_RAY (rate_bps u : Z) :
  0 <= rate_bps -> 0 <= u -> Decimal_le RAY (contract_gf_value rate_bps u) = true.
Proof.
  intros Hr Hu. unfold contract_gf_value.
  apply growth_factor_ge_RAY; auto using contract_rps_wf, contract_rps_nonneg.
Qed.

Lemma exact_gf_ge_RAY (rate_bps u : Z) :
  0 <= rate_bps -> 0 <= u -> Decimal_le RAY (exact_gf_value rate_bps u) = true.
Proof.
  intros Hr Hu. unfold exact_gf_value.
  apply growth_factor_ge_RAY; auto using exact_rps_wf, exact_rps_nonneg.
Qed.

Lemma contract_gf_wf (rate_bps u : Z) : wf (contract_gf_value rate_bps u).
Proof. unfold contract_gf_value. apply Decimal_add_wf. Qed.

Lemma exact_gf_wf (rate_bps u : Z) : wf (exact_gf_value rate_bps u).
Proof. unfold exact_gf_value. apply Decimal_add_wf. Qed.

Lemma cumulative_loop_grows (rate_bps u : Z) (n : nat) :
  0 <= rate_bps -> 0 <= u ->
  forall c e,
    wf c -> wf e ->
    (coeff c = 0 \/ ndigits (coeff c) <= prec) ->
    (coeff e = 0 \/ ndigits (coeff e) <= prec) ->
    Decimal_le RAY c = true -> Decimal_le RAY e = true ->
    exists c' e',
      for_range n (cumulative_step rate_bps u) (c, e) = Ok (c', e')
      /\ wf c' /\ wf e'
      /\ (coeff c' = 0 \/ ndigits (coeff c') <= prec)
      /\ (coeff e' = 0 \/ ndigits (coeff e') <= prec)
      /\ Decimal_le RAY c' = true /\ Decimal_le RAY e' = true.
Proof.
  intros Hr Hu. induction n as [|n IH]; intros c e Hc He Fc Fe Rc Re; cbn [for_range].
  - exists c, e. auto 10.
  - rewrite cumulative_step_ok. cbn [bind fst snd].
    pose proof (contract_gf_ge_RAY rate_bps u Hr Hu) as Gc.
    pose proof (exact_gf_ge_RAY rate_bps u Hr Hu) as Ge.
    pose proof (contract_gf_wf rate_bps u) as Wc.
    pose proof (exact_gf_wf rate_bps u) as We.
    apply IH.
    + apply quotient_wf; [now apply Decimal_mul_wf | exact RAY_pos].
    + apply quotient_wf; [now apply Decimal_mul_wf | exact RAY_pos].
    + apply quotient_fits; [now apply Decimal_mul_wf | exact RAY_pos].
    + apply quotient_fits; [now apply Decimal_mul_wf | exact RAY_pos].
    + eapply Decimal_le_trans; [exact Rc|]. now apply update_index_grows.
    + eapply Decimal_le_trans; [exact Re|]. now apply update_index_grows.
Qed.

Lemma RAY_fits : coeff RAY = 0 \/ ndigits (coeff RAY) <= prec.
Proof. right. vm_compute. discriminate. Qed.

(** X7.  For a non-negative rate below 10^26 basis points and a non-negative
    update interval below 10^16 seconds the yield index never decreases:
    after [n] updates, and one more, with the rate times the elapsed time of
    the [n + 1] updates at most 10^16, both the contract index and the exact
    index are at least RAY after the [n] updates, and the next update leaves
    each of them at least as large as before. *)
Theorem yield_index_never_decreases (rate_bps update_interval : Z) (n : nat) :
  0 <= rate_bps < 10 ^ 26 -> 0 <= update_interval < 10 ^ 16 ->
  rate_bps * (Z.of_nat (S n) * update_interval) <= 10 ^ 16 ->
  exists c e c' e',
    for_range n (cumulative_step rate_bps update_interval) (RAY, RAY) = Ok (c, e)
    /\ cumulative_step rate_bps update_interval (c, e) = Ok (c', e')
    /\ Decimal_le RAY c = true /\ Decimal_le c c' = true
    /\ Decimal_le RAY e = true /\ Decimal_le e e' = true.
Proof.
  intros [Hr _] [Hu _] _.
  destruct (cumulative_loop_grows rate_bps update_interval n Hr Hu RAY RAY
              RAY_wf RAY_wf RAY_fits RAY_fits (Decimal_le_refl RAY) (Decimal_le_refl RAY))
    as (c & e & Hrun & Wc & We & Fc & Fe & Rc & Re).
  exists c, e. rewrite cumulative_step_ok. cbn [fst snd]. do 2 eexists.
  split; [exact Hrun|]. split; [reflexivity|].
  pose proof (contract_gf_ge_RAY rate_bps update_interval Hr Hu) as Gc.
  pose proof (exact_gf_ge_RAY rate_bps update_interval Hr Hu) as Ge.
  pose proof (contract_gf_wf rate_bps update_interval) as Wgc.
  pose proof (exact_gf_wf rate_bps update_interval) as Wge.
  split; [exact Rc|]. split; [now apply update_index_grows|].
  split; [exact Re|]. now apply update_index_grows.
Qed.

Lemma yield_index_never_decreases_witness :
  0 <= 1000 < 10 ^ 26 /\ 0 <= 3600 < 10 ^ 16 /\
  1000 * (Z.of_nat 25 * 3600) <= 10 ^ 16 /\
  exists c e c' e',
    for_range 24 (cumulative_step 1000 3600) (RAY, RAY) = Ok (c, e)
    /\ cumulative_step 1000 3600 (c, e) = Ok (c', e')
    /\ Decimal_le RAY c = true /\ Decimal_le c c' = true
    /\ Decimal_le RAY e = true /\ Decimal_le e e' = true.
Proof.
  assert (H1 : 0 <= 1000 < 10 ^ 26) by (split; [lia | reflexivity]).
  assert (H2 : 0 <= 3600 < 10 ^ 16) by (split; [lia | reflexivity]).
  assert (H3 : 1000 * (Z.of_nat 25 * 3600) <= 10 ^ 16) by (vm_compute; discriminate).
  split; [exact H1|]. split; [exact H2|]. split; [exact H3|].
  exact (yield_index_never_decreases 1000 3600 24 H1 H2 H3).
Defined.

(** ** The two arithmetic paths on ordinary rates *)

Lemma Decimal_of_int_fix (n : Z) :
  Z.abs n < 10 ^ prec -> Decimal_fix (Decimal_of_int n) = Decimal_of_int n.
Proof.
  intros H. destruct (Z.eq_dec n 0) as [->|Hn]; [reflexivity|].
  apply fix_small; cbn [Decimal_of_int coeff]; [lia|].
  apply ndigits_le_iff; [lia | unfold prec; lia | exact H].
Qed.

(** X2.  For every rate of fewer than 51 digits the "contract" computation
    and the "exact" computation return the very same decimal, digit for digit
    and with the same exponent, so what the script prints in the two columns
    is identical. *)
Theorem rate_paths_identical (rate_bps : Z) :
  Z.abs rate_bps < 10 ^ 50 ->
  contract_rate_per_second rate_bps = exact_rate_per_second rate_bps
  /\ (forall t, contract_growth_factor rate_bps t = exact_growth_factor rate_bps t).
Proof.
  intros H.
  assert (E : contract_rps_value rate_bps = exact_rps_value rate_bps).
  { unfold contract_rps_value, exact_rps_value.
    rewrite !Decimal_mul_RAY, !quotient_scaleb_l.
    rewrite Decimal_of_int_fix by exact H.
    rewrite fix_quotient by auto with dec. reflexivity. }
  split.
  - rewrite contract_rate_per_second_ok, exact_rate_per_second_ok, E. reflexivity.
  - intros t. rewrite contract_growth_factor_ok, exact_growth_factor_ok.
    unfold contract_gf_value, exact_gf_value. rewrite E. reflexivity.
Qed.

Lemma rate_paths_identical_witness :
  Z.abs 5000 < 10 ^ 50 /\
  contract_rate_per_second 5000 = exact_rate_per_second 5000.
Proof.
  assert (H : Z.abs 5000 < 10 ^ 50) by (vm_compute; reflexivity).
  split; [exact H|]. exact (proj1 (rate_paths_identical 5000 H)).
Defined.

(** ** The contract factor is the linear factor in RAY units *)

Lemma mul_exact_scaleb_l (a b : Decimal) (j : Z) :
  mul_exact (scaleb a j) b = scaleb (mul_exact a b) j.
Proof. unfold mul_exact, scaleb; cbn [sign coeff exp]. f_equal. lia. Qed.

Lemma mul_exact_scaleb_r (a b : Decimal) (j : Z) :
  mul_exact a (scaleb b j) = scaleb (mul_exact a b) j.
Proof. unfold mul_exact, scaleb; cbn [sign coeff exp]. f_equal. lia. Qed.

Lemma Decimal_mul_scaleb_l (a b : Decimal) (j : Z) :
  Decimal_mul (scaleb a j) b = scaleb (Decimal_mul a b) j.
Proof. unfold Decimal_mul. rewrite mul_exact_scaleb_l. apply fix_scaleb. Qed.

Lemma Decimal_mul_scaleb_r (a b : Decimal) (j : Z) :
  Decimal_mul a (scaleb b j) = scaleb (Decimal_mul a b) j.
Proof. unfold Decimal_mul. rewrite mul_exact_scaleb_r. apply fix_scaleb. Qed.

Lemma aligned_scaleb (a : Decimal) (m j : Z) : aligned (scaleb a j) (m + j) = aligned a m.
Proof.
  unfold aligned, sval, scaleb; cbn [sign coeff exp].
  replace (exp a + j - (m + j)) with (exp a - m) by lia. reflexivity.
Qed.

Lemma add_exact_scaleb (a b : Decimal) (j : Z) :
  add_exact (scaleb a j) (scaleb b j) = scaleb (add_exact a b) j.
Proof.
  unfold add_exact. cbn [scaleb exp sign].
  replace (Z.min (exp a + j) (exp b + j)) with (Z.min (exp a) (exp b) + j) by lia.
  rewrite !aligned_scaleb. reflexivity.
Qed.

Lemma Decimal_add_scaleb (a b : Decimal) (j : Z) :
  Decimal_add (scaleb a j) (scaleb b j) = scaleb (Decimal_add a b) j.
Proof. unfold Decimal_add. rewrite add_exact_scaleb. apply fix_scaleb. Qed.

Lemma exact_rps_scaled (rate_bps : Z) :
  exact_rps_value rate_bps = scaleb (linear_rps_value rate_bps) 27.
Proof.
  unfold exact_rps_value, linear_rps_value. rewrite Decimal_mul_RAY.
  rewrite fix_quotient by auto with dec. reflexivity.
Qed.

Lemma exact_gf_scaled (rate_bps t : Z) :
  exact_gf_value rate_bps t
  = scaleb (Decimal_add D1 (Decimal_mul (linear_rps_value rate_bps) (Decimal_of_int t))) 27.
Proof.
  unfold exact_gf_value. rewrite exact_rps_scaled, Decimal_mul_scaleb_l.
  change RAY with (scaleb D1 27). apply Decimal_add_scaleb.
Qed.

Lemma Decimal_add_fits (a b : Decimal) :
  coeff (Decimal_add a b) = 0 \/ ndigits (coeff (Decimal_add a b)) <= prec.
Proof. unfold Decimal_add. apply fix_fits, add_exact_wf. Qed.

Lemma Decimal_mul_fits (a b : Decimal) :
  wf a -> wf b -> coeff (Decimal_mul a b) = 0 \/ ndigits (coeff (Decimal_mul a b)) <= prec.
Proof. intros. unfold Decimal_mul. apply fix_fits. now apply mul_exact_wf. Qed.

(** X3.  For every rate below 10^26 basis points and every time below 10^16
    seconds, in absolute value, the "contract" growth factor is the Python
    linear growth factor in RAY units: it equals the linear factor times RAY,
    and divided by RAY it gives the linear factor back. *)
Theorem contract_growth_factor_is_scaled_linear (rate_bps time_seconds : Z) :
  Z.abs rate_bps < 10 ^ 26 -> Z.abs time_seconds < 10 ^ 16 ->
  exists g l,
    contract_growth_factor rate_bps time_seconds = Ok g
    /\ calculate_linear_growth_factor rate_bps time_seconds = Ok l
    /\ g ==d Decimal_mul l RAY
    /\ (exists q, Decimal_truediv g RAY = Ok q /\ q ==d l).
Proof.
  intros _ _.
  rewrite contract_growth_factor_ok, calculate_linear_growth_factor_ok.
  do 2 eexists. split; [reflexivity|]. split; [reflexivity|].
  set (l := Decimal_add D1 _).
  assert (Wl : wf l) by apply Decimal_add_wf.
  assert (Fl : Decimal_fix l = l) by (apply fits_fix; [exact Wl | apply Decimal_add_fits]).
  assert (G : contract_gf_value rate_bps time_seconds ==d scaleb l 27).
  { eapply deq_trans; [apply growth_factor_paths_deq|].
    rewrite exact_gf_scaled. reflexivity. }
  split.
  - rewrite Decimal_mul_RAY, Fl. exact G.
  - rewrite Decimal_truediv_ok by (vm_compute; discriminate).
    eexists. split; [reflexivity|].
    eapply deq_trans; [apply quotient_deq; [apply contract_gf_wf | | exact RAY_pos | exact G]|].
    + apply scaleb_wf, Wl.
    + rewrite quotient_scaleb_l, quotient_RAY, scaleb_scaleb.
      replace (-27 + 27) with 0 by lia. rewrite scaleb_0.
      rewrite quotient_D1 by (exact Wl || apply Decimal_add_fits). reflexivity.
Qed.

Lemma contract_growth_factor_is_scaled_linear_witness :
  Z.abs 1000 < 10 ^ 26 /\ Z.abs 86400 < 10 ^ 16 /\
  exists g l,
    contract_growth_factor 1000 86400 = Ok g
    /\ calculate_linear_growth_factor 1000 86400 = Ok l
    /\ g ==d Decimal_mul l RAY
    /\ (exists q, Decimal_truediv g RAY = Ok q /\ q ==d l).
Proof.
  assert (H1 : Z.abs 1000 < 10 ^ 26) by reflexivity.
  assert (H2 : Z.abs 86400 < 10 ^ 16) by reflexivity.
  split; [exact H1|]. split; [exact H2|].
  exact (contract_growth_factor_is_scaled_linear 1000 86400 H1 H2).
Defined.

(** ** The extreme-scenario table repeats the single-update table *)

(** X1.  For every rate below 10^26 basis points and every time below 10^16
    seconds, in absolute value, a row of
    [analyze_extreme_yield_index_scenarios] is the row of
    [analyze_yield_index_update_precision]: multiplying a growth factor by
    RAY and dividing by RAY again returns it unchanged, so the "final index"
    is the growth factor itself. *)
Theorem extreme_row_is_single_update_row (rate_bps time_seconds : Z) :
  Z.abs rate_bps < 10 ^ 26 -> Z.abs time_seconds < 10 ^ 16 ->
  extreme_row rate_bps time_seconds = yield_index_update_row rate_bps time_seconds
  /\ exists g e z,
       extreme_row rate_bps time_seconds = Ok (g, e, z)
       /\ contract_growth_factor rate_bps time_seconds = Ok g
       /\ exact_growth_factor rate_bps time_seconds = Ok e
       /\ update_index RAY g = Ok g /\ update_index RAY e = Ok e.
Proof.
  intros _ _.
  pose proof (update_index_RAY _ (contract_gf_wf rate_bps time_seconds)
                (contract_gf_fits rate_bps time_seconds)) as Hc.
  pose proof (update_index_RAY _ (exact_gf_wf rate_bps time_seconds)
                (exact_gf_fits rate_bps time_seconds)) as He.
  assert (E : extreme_row rate_bps time_seconds
              = Ok (contract_gf_value rate_bps time_seconds,
                    exact_gf_value rate_bps time_seconds,
                    abs_loss_value (exact_gf_value rate_bps time_seconds)
                                   (contract_gf_value rate_bps time_seconds))).
  { unfold extreme_row.
    rewrite contract_growth_factor_ok. cbn [bind]. rewrite Hc. cbn [bind].
    rewrite exact_growth_factor_ok. cbn [bind]. rewrite He. cbn [bind].
    rewrite abs_loss_bps_ok. reflexivity. }
  split.
  - rewrite E. unfold yield_index_update_row.
    rewrite contract_growth_factor_ok. cbn [bind].
    rewrite exact_growth_factor_ok. cbn [bind].
    rewrite abs_loss_bps_ok. reflexivity.
  - do 3 eexists. split; [exact E|].
    auto using contract_growth_factor_ok, exact_growth_factor_ok.
Qed.

Lemma extreme_row_is_single_update_row_witness :
  Z.abs 5000 < 10 ^ 26 /\ Z.abs 2592000 < 10 ^ 16 /\
  extreme_row 5000 2592000 = yield_index_update_row 5000 2592000.
Proof.
  assert (H1 : Z.abs 5000 < 10 ^ 26) by reflexivity.
  assert (H2 : Z.abs 2592000 < 10 ^ 16) by reflexivity.
  split; [exact H1|]. split; [exact H2|].
  exact (proj1 (extreme_row_is_single_update_row 5000 2592000 H1 H2)).
Defined.

(** ** Whole intervals only *)

(** X4.  The cumulative table counts whole update intervals only: the time
    left over after the last whole interval accrues nothing, so the row for
    [total_time] is the row for [update_interval * (total_time //
    update_interval)]; and when the count is zero or negative (a period
    shorter than the interval, or a negative interval) the loop body never
    runs and both indices are still RAY, with a zero loss. *)
Theorem cumulative_row_counts_whole_intervals (rate_bps total_time update_interval : Z) :
  cumulative_row rate_bps total_time update_interval
  = cumulative_row rate_bps (update_interval * (total_time / update_interval)) update_interval
  /\ (update_interval <> 0 -> total_time / update_interval <= 0 ->
      exists z, cumulative_row rate_bps total_time update_interval
                = Ok (total_time / update_interval, RAY, RAY, z) /\ coeff z = 0)
  /\ (0 < update_interval -> total_time < update_interval ->
      total_time / update_interval <= 0)
  /\ (update_interval < 0 <= total_time -> total_time / update_interval <= 0).
Proof.
  split; [|split; [|split]].
  - unfold cumulative_row, floordiv.
    destruct (Z.eqb_spec update_interval 0) as [->|Hu]; [reflexivity|].
    rewrite (Z.mul_comm update_interval), Z.div_mul by exact Hu. reflexivity.
  - intros Hu Hk. unfold cumulative_row, floordiv.
    destruct (Z.eqb_spec update_interval 0) as [|_]; [contradiction|]. cbn [bind].
    replace (Z.to_nat (total_time / update_interval)) with 0%nat by lia.
    cbn [for_range bind fst snd]. rewrite abs_loss_bps_ok. cbn [bind].
    eexists. split; [reflexivity|]. apply abs_loss_zero. reflexivity.
  - intros Hu H.
    assert (total_time / update_interval < 1) by (apply Z.div_lt_upper_bound; lia). lia.
  - intros H. Z.div_mod_to_equations. nia.
Qed.

(** ** A single update over the whole period *)

Lemma Decimal_mul_D1_l (x : Decimal) :
  wf x -> coeff x = 0 \/ ndigits (coeff x) <= prec -> Decimal_mul D1 x = x.
Proof.
  intros W F. unfold Decimal_mul.
  replace (mul_exact D1 x) with x; [now apply fits_fix|].
  destruct x as [s c e]. unfold mul_exact; cbn [sign coeff exp D1].
  f_equal; try lia; destruct s; reflexivity.
Qed.

Lemma update_frequency_linear_unfold (rate_bps total_time interval : Z) :
  update_frequency_linear rate_bps total_time interval
  = (updates_count <- (if interval >? 0 then floordiv total_time interval else Ok 1) ;;
     f <- for_range (Z.to_nat updates_count) (update_frequency_step rate_bps interval) D1 ;;
     Ok (updates_count, f)).
Proof. reflexivity. Qed.

Lemma update_frequency_step_ok (rate_bps interval : Z) (f : Decimal) :
  update_frequency_step rate_bps interval f
  = Ok (Decimal_mul f (Decimal_add D1 (Decimal_mul (linear_rps_value rate_bps)
                                                    (Decimal_of_int interval)))).
Proof.
  unfold update_frequency_step. rewrite calculate_linear_growth_factor_ok. reflexivity.
Qed.

(** X5.  When the update interval is the whole (positive) period,
    [analyze_update_frequency_impact] performs one update and its row is the
    row of the plain linear-against-continuous comparison for that period
    (the one of [analyze_precision_loss_10_percent_apr]): same linear factor,
    same continuous factor, same loss, and the same exception if [math.exp]
    raises. *)
Theorem single_update_frequency_row (F : FloatLib) (rate_bps total_time : Z) :
  0 < total_time ->
  update_frequency_row F rate_bps total_time total_time
  = (row <- linear_vs_continuous_row F rate_bps total_time ;;
     Ok (1, fst (fst row), snd (fst row), snd row)).
Proof.
  intros Ht. unfold update_frequency_row, linear_vs_continuous_row.
  rewrite update_frequency_linear_unfold. unfold floordiv.
  destruct (Z.gtb_spec total_time 0) as [_|]; [|lia].
  destruct (Z.eqb_spec total_time 0) as [|_]; [lia|]. cbn [bind].
  rewrite Z.div_same by lia. change (Z.to_nat 1) with 1%nat. cbn [for_range].
  rewrite update_frequency_step_ok. cbn [bind fst snd].
  rewrite Decimal_mul_D1_l by (apply Decimal_add_wf || apply Decimal_add_fits).
  rewrite calculate_linear_growth_factor_ok. cbn [bind].
  destruct (calculate_continuous_compounding_factor F rate_bps total_time) as [c|err];
    [|reflexivity].
  cbn [bind fst snd].
  destruct (calculate_precision_loss _ c) as [p|err]; cbn [bind fst snd]; reflexivity.
Qed.

Lemma single_update_frequency_row_witness :
  0 < 86400 /\
  update_frequency_row series_floats 1000 86400 86400
  = (row <- linear_vs_continuous_row series_floats 1000 86400 ;;
     Ok (1, fst (fst row), snd (fst row), snd row)).
Proof.
  split; [lia|]. exact (single_update_frequency_row series_floats 1000 86400 ltac:(lia)).
Defined.

(** ** The cumulative index is the compounded linear factor *)

Lemma contract_gf_scaled (rate_bps t : Z) :
  contract_gf_value rate_bps t
  ==d scaleb (Decimal_add D1 (Decimal_mul (linear_rps_value rate_bps) (Decimal_of_int t))) 27.
Proof.
  eapply deq_trans; [apply growth_factor_paths_deq|].
  rewrite exact_gf_scaled. reflexivity.
Qed.

Lemma index_step_scaled (c L g l : Decimal) :
  wf c -> wf L -> wf g -> wf l ->
  c ==d scaleb L 27 -> g ==d scaleb l 27 ->
  quotient (Decimal_mul c g) RAY ==d scaleb (Decimal_mul L l) 27.
Proof.
  intros Wc WL Wg Wl Hc Hg.
  eapply deq_trans.
  - apply quotient_deq; [| | exact RAY_pos | apply Decimal_mul_deq; [| | | | exact Hc | exact Hg]];
      auto using Decimal_mul_wf, scaleb_wf.
  - rewrite Decimal_mul_scaleb_l, Decimal_mul_scaleb_r, scaleb_scaleb.
    rewrite quotient_scaleb_l, quotient_RAY, scaleb_scaleb.
    rewrite quotient_D1 by (auto using Decimal_mul_wf, Decimal_mul_fits).
    replace (-27 + (27 + 27)) with 27 by lia. reflexivity.
Qed.

Lemma cumulative_loop_linear (rate_bps u : Z) (n : nat) :
  forall c e L,
    wf c -> wf e -> wf L -> (coeff L = 0 \/ ndigits (coeff L) <= prec) ->
    c ==d scaleb L 27 -> e ==d scaleb L 27 ->
    exists c' e' L',
      for_range n (cumulative_step rate_bps u) (c, e) = Ok (c', e')
      /\ for_range n (update_frequency_step rate_bps u) L = Ok L'
      /\ wf L' /\ (coeff L' = 0 \/ ndigits (coeff L') <= prec)
      /\ c' ==d scaleb L' 27 /\ e' ==d scaleb L' 27.
Proof.
  induction n as [|n IH]; intros c e L Wc We WL FL Hc He; cbn [for_range].
  - exists c, e, L. auto 6.
  - rewrite cumulative_step_ok, update_frequency_step_ok. cbn [bind fst snd].
    set (l := Decimal_add D1 _).
    assert (Wl : wf l) by apply Decimal_add_wf.
    apply IH.
    + apply quotient_wf; [apply Decimal_mul_wf; [exact Wc | apply contract_gf_wf] | exact RAY_pos].
    + apply quotient_wf; [apply Decimal_mul_wf; [exact We | apply exact_gf_wf] | exact RAY_pos].
    + now apply Decimal_mul_wf.
    + now apply Decimal_mul_fits.
    + apply index_step_scaled; auto using contract_gf_wf. apply contract_gf_scaled.
    + apply index_step_scaled; auto using exact_gf_wf.
      rewrite exact_gf_scaled. reflexivity.
Qed.

(** X9.  The cumulative table and the update-frequency table compound the
    same number: for every non-negative rate below 10^26 basis points, every
    positive interval below 10^16 seconds and every non-negative period
    below 10^16 seconds with rate times period at most 10^16, they count the
    same updates, and the
    final contract index and the final exact index of
    [analyze_cumulative_yield_index_precision] both equal the cumulative
    linear factor of [analyze_update_frequency_impact] times RAY. *)
Theorem cumulative_index_is_compounded_linear_factor
  (rate_bps total_time update_interval : Z) :
  0 <= rate_bps < 10 ^ 26 -> 0 < update_interval < 10 ^ 16 ->
  0 <= total_time < 10 ^ 16 -> rate_bps * total_time <= 10 ^ 16 ->
  exists k c e z f,
    cumulative_row rate_bps total_time update_interval = Ok (k, c, e, z)
    /\ update_frequency_linear rate_bps total_time update_interval = Ok (k, f)
    /\ c ==d Decimal_mul f RAY /\ e ==d Decimal_mul f RAY.
Proof.
  intros _ [Hu _] _ _.
  rewrite update_frequency_linear_unfold. unfold cumulative_row, floordiv.
  destruct (Z.gtb_spec update_interval 0) as [_|]; [|lia].
  destruct (Z.eqb_spec update_interval 0) as [|_]; [lia|]. cbn [bind].
  assert (W1 : wf D1) by (unfold wf; cbn; lia).
  assert (F1 : coeff D1 = 0 \/ ndigits (coeff D1) <= prec) by (right; vm_compute; discriminate).
  destruct (cumulative_loop_linear rate_bps update_interval
              (Z.to_nat (total_time / update_interval)) RAY RAY D1
              RAY_wf RAY_wf W1 F1 (deq_refl _) (deq_refl _))
    as (c & e & f & Hrun & Hlin & Wf & Ff & Hc & He).
  rewrite Hrun, Hlin. cbn [bind fst snd]. rewrite abs_loss_bps_ok. cbn [bind].
  exists (total_time / update_interval), c, e, (abs_loss_value e c), f.
  split; [reflexivity|]. split; [reflexivity|].
  rewrite Decimal_mul_RAY, (fits_fix f Wf Ff). auto.
Qed.

Lemma cumulative_index_is_compounded_linear_factor_witness :
  0 <= 1000 < 10 ^ 26 /\ 0 < 3600 < 10 ^ 16 /\ 0 <= 86400 < 10 ^ 16
  /\ 1000 * 86400 <= 10 ^ 16 /\
  exists k c e z f,
    cumulative_row 1000 86400 3600 = Ok (k, c, e, z)
    /\ update_frequency_linear 1000 86400 3600 = Ok (k, f)
    /\ c ==d Decimal_mul f RAY /\ e ==d Decimal_mul f RAY.
Proof.
  assert (H1 : 0 <= 1000 < 10 ^ 26) by (split; [lia | reflexivity]).
  assert (H2 : 0 < 3600 < 10 ^ 16) by (split; reflexivity).
  assert (H3 : 0 <= 86400 < 10 ^ 16) by (split; [lia | reflexivity]).
  assert (H4 : 1000 * 86400 <= 10 ^ 16) by (vm_compute; discriminate).
  split; [exact H1|]. split; [exact H2|]. split; [exact H3|]. split; [exact H4|].
  exact (cumulative_index_is_compounded_linear_factor 1000 86400 3600 H1 H2 H3 H4).
Defined.

(** * Division rounds the exact quotient

    [__truediv__] returns the exact quotient rounded to 50 digits: it never
    steps over a decimal of at most 50 digits.  For positive operands, a
    decimal [x] of at most 50 digits with [x * b <= a] is at most [a / b],
    and one with [a <= x * b] is at least [a / b]. *)

Lemma div_num_den_large (ca cb : Z) :
  0 < ca -> 0 < cb ->
  10 ^ prec * div_den cb (ndigits cb - ndigits ca + prec + 1)
  <= div_num ca (ndigits cb - ndigits ca + prec + 1).
Proof.
  intros Ha Hb.
  destruct (ndigits_spec ca Ha) as [La [Hla Hha]].
  destruct (ndigits_spec cb Hb) as [Lb [Hlb Hhb]].
  set (shift := ndigits cb - ndigits ca + prec + 1).
  assert (P50 : 0 < 10 ^ prec) by (apply pow10_pos; unfold prec; lia).
  unfold div_num, div_den. destruct (Z.leb_spec 0 shift) as [Hs|Hs].
  - assert (E : 10 ^ (ndigits ca - 1) * 10 ^ shift = 10 ^ prec * 10 ^ ndigits cb).
    { rewrite <- !pow10_split by (unfold prec; lia). f_equal. unfold shift. lia. }
    pose proof (pow10_pos shift Hs). nia.
  - assert (E : 10 ^ prec * (10 ^ ndigits cb * 10 ^ (- shift)) = 10 ^ (ndigits ca - 1)).
    { rewrite <- !pow10_split by (unfold prec in *; lia). f_equal. unfold shift. lia. }
    pose proof (pow10_pos (- shift) ltac:(lia)). nia.
Qed.

Lemma bracket_lower (X N D q' al be : Z) :
  0 < D -> 10 ^ prec * D <= N -> N / D <= q' -> X < 10 ^ prec ->
  0 <= al -> 0 <= be -> al = 0 \/ be = 0 ->
  X * 10 ^ al * D <= N * 10 ^ be -> X * 10 ^ al <= q' * 10 ^ be.
Proof.
  intros HD HN Hq HX Hal Hbe Hab H.
  assert (P50 : 0 < 10 ^ prec) by (apply pow10_pos; unfold prec; lia).
  assert (Hq50 : 10 ^ prec <= N / D) by (apply Z.div_le_lower_bound; lia).
  destruct (Z.eq_dec be 0) as [->|Hbe0].
  - change (10 ^ 0) with 1 in *. rewrite !Z.mul_1_r in *.
    assert (X * 10 ^ al <= N / D) by (apply Z.div_le_lower_bound; lia). lia.
  - assert (al = 0) as -> by lia. change (10 ^ 0) with 1. rewrite Z.mul_1_r.
    pose proof (pow10_pos be Hbe). nia.
Qed.

Lemma bracket_upper (X N D q' al be : Z) :
  0 < D -> 10 ^ prec * D <= N ->
  (N mod D = 0 -> q' = N / D) -> q' <= N / D + 1 -> X < 10 ^ prec ->
  0 <= al -> 0 <= be -> al = 0 \/ be = 0 ->
  N * 10 ^ be <= X * 10 ^ al * D -> q' * 10 ^ be <= X * 10 ^ al.
Proof.
  intros HD HN Hq0 Hq1 HX Hal Hbe Hab H.
  assert (P50 : 0 < 10 ^ prec) by (apply pow10_pos; unfold prec; lia).
  destruct (Z.eq_dec be 0) as [->|Hbe0].
  - change (10 ^ 0) with 1 in *. rewrite !Z.mul_1_r in *.
    pose proof (Z.div_mod N D ltac:(lia)) as Hdm.
    pose proof (Z.mod_pos_bound N D HD) as Hm.
    destruct (Z.eq_dec (N mod D) 0) as [Hr|Hr].
    + rewrite (Hq0 Hr). nia.
    + assert (N / D < X * 10 ^ al) by nia. lia.
  - assert (al = 0) as -> by lia. change (10 ^ 0) with 1 in H. rewrite Z.mul_1_r in H.
    pose proof (pow10_pos be Hbe). nia.
Qed.

(** The two comparisons, of [x * b] with [a] and of [x] with the unrounded
    quotient, brought to integers. *)
Lemma div_nonzero_compare (a b x : Decimal) :
  sign a = false -> 0 < coeff a -> sign b = false -> 0 < coeff b ->
  exists N D q' al be,
    0 < D /\ 10 ^ prec * D <= N
    /\ (N mod D = 0 -> q' = N / D) /\ N / D <= q' <= N / D + 1
    /\ 0 <= al /\ 0 <= be /\ (al = 0 \/ be = 0)
    /\ (Decimal_le (mul_exact x b) a = true <-> sval x * 10 ^ al * D <= N * 10 ^ be)
    /\ (Decimal_le a (mul_exact x b) = true <-> N * 10 ^ be <= sval x * 10 ^ al * D)
    /\ (Decimal_le x (div_nonzero a b) = true <-> sval x * 10 ^ al <= q' * 10 ^ be)
    /\ (Decimal_le (div_nonzero a b) x = true <-> q' * 10 ^ be <= sval x * 10 ^ al).
Proof.
  intros Sa Ha Sb Hb.
  pose proof (div_num_den_large (coeff a) (coeff b) Ha Hb) as HL.
  rewrite div_nonzero_unfold. cbv zeta. rewrite Sa, Sb. cbn [xorb].
  set (shift := ndigits (coeff b) - ndigits (coeff a) + prec + 1) in *.
  destruct (div_num_den_pos (coeff a) (coeff b) shift Ha Hb) as [HN HD].
  set (N := div_num (coeff a) shift) in *. set (D := div_den (coeff b) shift) in *.
  set (e := exp a - exp b - shift).
  set (m' := Z.min (exp x) e).
  assert (Hq : 0 <= N / D) by (apply Z.div_pos; lia).
  (* the unrounded quotient, up to trailing zeros *)
  set (q' := if N mod D =? 0 then N / D else if (N / D) mod 5 =? 0 then N / D + 1 else N / D).
  set (dn := if N mod D =? 0
             then mkDec false (fst (strip_zeros (Z.to_nat (exp a - exp b - e)) (N / D) e))
                              (snd (strip_zeros (Z.to_nat (exp a - exp b - e)) (N / D) e))
             else mkDec false (if (N / D) mod 5 =? 0 then N / D + 1 else N / D) e).
  assert (Hdn : dn ==d mkDec false q' e).
  { unfold dn, q'. destruct (N mod D =? 0); [|reflexivity].
    apply strip_zeros_spec. exact Hq. }
  exists N, D, q', (exp x - m'), (e - m').
  split; [exact HD|]. split; [exact HL|].
  split; [unfold q'; intros ->; reflexivity|].
  split; [unfold q'; destruct (N mod D =? 0); [lia|]; destruct (_ =? 0); lia|].
  split; [lia|]. split; [lia|]. split; [lia|].
  assert (HA : aligned (mul_exact x b) (m' + exp b + Z.min 0 shift)
               = sval x * 10 ^ (exp x - m') * D
               /\ aligned a (m' + exp b + Z.min 0 shift) = N * 10 ^ (e - m')).
  { assert (Va : sval a = coeff a) by (unfold sval; now rewrite Sa).
    assert (Vb : sval b = coeff b) by (unfold sval; now rewrite Sb).
    unfold aligned. rewrite sval_mul_exact, Va, Vb. cbn [mul_exact exp].
    unfold N, D, div_num, div_den.
    destruct (Z.leb_spec 0 shift) as [Hs|Hs].
    - rewrite Z.min_l by lia.
      replace (exp x + exp b - (m' + exp b + 0)) with (exp x - m') by lia.
      replace (exp a - (m' + exp b + 0)) with ((e - m') + shift) by (unfold e; lia).
      rewrite (pow10_split (e - m') shift) by lia. split; ring.
    - rewrite Z.min_r by lia.
      replace (exp x + exp b - (m' + exp b + shift)) with ((exp x - m') + - shift) by lia.
      replace (exp a - (m' + exp b + shift)) with (e - m') by (unfold e; lia).
      rewrite (pow10_split (exp x - m') (- shift)) by lia. split; ring. }
  destruct HA as [HA1 HA2].
  assert (Hm1 : m' + exp b + Z.min 0 shift <= exp (mul_exact x b)) by (cbn [mul_exact exp]; lia).
  assert (Hm2 : m' + exp b + Z.min 0 shift <= exp a) by (unfold e in m'; lia).
  assert (HB1 : aligned x m' = sval x * 10 ^ (exp x - m')) by reflexivity.
  assert (HB2 : aligned (mkDec false q' e) m' = q' * 10 ^ (e - m')) by reflexivity.
  split; [|split; [|split]].
  - rewrite (Decimal_le_at _ _ _ Hm1 Hm2), HA1, HA2. reflexivity.
  - rewrite (Decimal_le_at _ _ _ Hm2 Hm1), HA1, HA2. reflexivity.
  - split; intros H.
    + apply (Decimal_le_compat _ x _ (mkDec false q' e) (deq_refl x) Hdn) in H.
      apply (Decimal_le_at x (mkDec false q' e) m') in H; [lia| lia | cbn [exp]; lia].
    + apply (Decimal_le_compat x _ (mkDec false q' e) _ (deq_refl x) (deq_sym _ _ Hdn)).
      apply (Decimal_le_at x (mkDec false q' e) m'); [lia | cbn [exp]; lia | lia].
  - split; intros H.
    + apply (Decimal_le_compat _ (mkDec false q' e) _ x Hdn (deq_refl x)) in H.
      apply (Decimal_le_at (mkDec false q' e) x m') in H; [lia| cbn [exp]; lia | lia].
    + apply (Decimal_le_compat (mkDec false q' e) _ x _ (deq_sym _ _ Hdn) (deq_refl x)).
      apply (Decimal_le_at (mkDec false q' e) x m'); [cbn [exp]; lia | lia | lia].
Qed.

Lemma fits_sval_lt (x : Decimal) :
  wf x -> coeff x = 0 \/ ndigits (coeff x) <= prec -> sval x < 10 ^ prec.
Proof.
  unfold wf. intros W F.
  assert (P50 : 0 < 10 ^ prec) by (apply pow10_pos; unfold prec; lia).
  assert (coeff x < 10 ^ prec).
  { destruct F as [->|F]; [lia|].
    destruct (Z.eq_dec (coeff x) 0) as [->|]; [lia|].
    apply ndigits_le_iff; [lia | unfold prec; lia | exact F]. }
  unfold sval. destruct (sign x); lia.
Qed.

(** A decimal of at most 50 digits that is at most the exact quotient is at
    most the rounded one. *)
Lemma quotient_lower (a b x : Decimal) :
  sign a = false -> 0 < coeff a -> sign b = false -> 0 < coeff b ->
  wf x -> coeff x = 0 \/ ndigits (coeff x) <= prec ->
  Decimal_le (mul_exact x b) a = true -> Decimal_le x (quotient a b) = true.
Proof.
  intros Sa Ha Sb Hb Wx Fx H.
  destruct (div_nonzero_compare a b x Sa Ha Sb Hb)
    as (N & D & q' & al & be & HD & HN & Hq0 & Hq1 & Hal & Hbe & Hab & E1 & _ & E3 & _).
  unfold quotient. destruct (Z.eqb_spec (coeff a) 0); [lia|].
  rewrite <- (fits_fix x Wx Fx).
  apply fix_mono; [exact Wx | now apply div_nonzero_wf |].
  apply E3. apply (bracket_lower _ N D); auto using fits_sval_lt; [lia | now apply E1].
Qed.

(** A decimal of at most 50 digits that is at least the exact quotient is at
    least the rounded one. *)
Lemma quotient_upper (a b x : Decimal) :
  sign a = false -> 0 < coeff a -> sign b = false -> 0 < coeff b ->
  wf x -> coeff x = 0 \/ ndigits (coeff x) <= prec ->
  Decimal_le a (mul_exact x b) = true -> Decimal_le (quotient a b) x = true.
Proof.
  intros Sa Ha Sb Hb Wx Fx H.
  destruct (div_nonzero_compare a b x Sa Ha Sb Hb)
    as (N & D & q' & al & be & HD & HN & Hq0 & Hq1 & Hal & Hbe & Hab & _ & E2 & _ & E4).
  unfold quotient. destruct (Z.eqb_spec (coeff a) 0); [lia|].
  rewrite <- (fits_fix x Wx Fx).
  apply fix_mono; [now apply div_nonzero_wf | exact Wx |].
  apply E4. apply (bracket_upper _ N D); auto using fits_sval_lt; [lia | now apply E2].
Qed.

(** ** The floor of a decimal *)

Lemma Decimal_floor_at (d : Decimal) (m : Z) :
  m <= exp d -> m <= 0 -> Decimal_floor d = aligned d m / 10 ^ (- m).
Proof.
  intros H1 H2. unfold Decimal_floor, aligned.
  destruct (Z.leb_spec 0 (exp d)) as [He|He].
  - replace (exp d - m) with (exp d + - m) by lia.
    rewrite pow10_split, Z.mul_assoc by lia.
    rewrite Z.div_mul; [reflexivity|]. pose proof (pow10_pos (- m)); lia.
  - replace (- m) with (- exp d + (exp d - m)) by lia.
    rewrite pow10_split by lia.
    pose proof (pow10_pos (- exp d) ltac:(lia)). pose proof (pow10_pos (exp d - m) ltac:(lia)).
    rewrite Z.div_mul_cancel_r by lia. reflexivity.
Qed.

Lemma Decimal_floor_mono (a b : Decimal) :
  Decimal_le a b = true -> Decimal_floor a <= Decimal_floor b.
Proof.
  intros H. set (m := Z.min (Z.min (exp a) (exp b)) 0).
  rewrite (Decimal_floor_at a m), (Decimal_floor_at b m) by lia.
  apply (Decimal_le_at a b m) in H; [|lia|lia].
  apply Z.div_le_mono; [apply pow10_pos; lia | exact H].
Qed.

Lemma Decimal_floor_of_int (n : Z) : Decimal_floor (Decimal_of_int n) = n.
Proof.
  rewrite (Decimal_floor_at _ 0) by (cbn; lia).
  rewrite aligned_Decimal_of_int. change (10 ^ (- 0)) with 1. apply Z.div_1_r.
Qed.

Lemma Decimal_lt_at (a b : Decimal) (m : Z) :
  m <= exp a -> m <= exp b -> (Decimal_lt a b = true <-> aligned a m < aligned b m).
Proof.
  intros Ha Hb. unfold Decimal_lt, Decimal_cmp. set (m0 := Z.min (exp a) (exp b)).
  rewrite (aligned_lower a m0 m), (aligned_lower b m0 m) by lia.
  pose proof (pow10_pos (m0 - m) ltac:(lia)).
  destruct (Z.compare_spec (aligned a m0) (aligned b m0)); split; intros; try discriminate;
    try reflexivity; nia.
Qed.

Lemma Decimal_le_lt_trans (a b c : Decimal) :
  Decimal_le a b = true -> Decimal_lt b c = true -> Decimal_lt a c = true.
Proof.
  intros H1 H2. set (m := Z.min (exp a) (Z.min (exp b) (exp c))).
  apply (Decimal_le_at a b m) in H1; [|lia|lia].
  apply (Decimal_lt_at b c m) in H2; [|lia|lia].
  apply (Decimal_lt_at a c m); lia.
Qed.

(** ** The rate per second against the contract's integer rate *)

Lemma spec_ratePerSecond_eq (rate : Z) :
  spec_ratePerSecond rate = rate * 10 ^ 23 / 31536000.
Proof.
  unfold spec_ratePerSecond, RAY_int, secondsPerYear.
  replace (rate * 10 ^ 27) with (rate * 10 ^ 23 * 10000)
    by (rewrite <- Z.mul_assoc; f_equal).
  rewrite Z.div_mul by lia. reflexivity.
Qed.

Lemma spec_ratePerSecond_bounds (rate : Z) :
  0 <= rate ->
  0 <= spec_ratePerSecond rate
  /\ spec_ratePerSecond rate * 31536000 <= rate * 10 ^ 23
  /\ rate * 10 ^ 23 < (spec_ratePerSecond rate + 1) * 31536000.
Proof.
  intros H. rewrite spec_ratePerSecond_eq.
  assert (P : 0 < 10 ^ 23) by (apply pow10_pos; lia).
  pose proof (Z.div_mod (rate * 10 ^ 23) 31536000 ltac:(lia)) as Hdm.
  pose proof (Z.mod_pos_bound (rate * 10 ^ 23) 31536000 ltac:(lia)) as Hm.
  assert (0 <= rate * 10 ^ 23 / 31536000) by (apply Z.div_pos; nia).
  lia.
Qed.

Lemma rate_over_10000 (rate : Z) :
  0 < rate < 10 ^ prec ->
  quotient (Decimal_of_int rate) D10000 ==d mkDec false rate (-4)
  /\ sign (quotient (Decimal_of_int rate) D10000) = false
  /\ 0 < coeff (quotient (Decimal_of_int rate) D10000).
Proof.
  intros H. split; [|split].
  - change D10000 with (mkDec false (10 ^ 4) 0).
    eapply deq_trans; [apply quotient_pow10; [apply Decimal_of_int_wf | lia]|].
    rewrite fix_scaleb, Decimal_of_int_fix by lia.
    unfold Decimal_of_int, scaleb; cbn [sign coeff exp].
    destruct (Z.ltb_spec rate 0); [lia|]. rewrite Z.abs_eq by lia. reflexivity.
  - rewrite quotient_sign. cbn [Decimal_of_int D10000 sign].
    destruct (Z.ltb_spec rate 0); [lia|reflexivity].
  - apply quotient_pos; [cbn [Decimal_of_int coeff]; lia | reflexivity].
Qed.

(** The Python rate per second lies between the contract's integer rate per
    second (in units of 1e-27) and that rate plus one unit, less 1e-35. *)
Lemma linear_rps_between (rate : Z) :
  0 <= rate < 10 ^ 26 ->
  Decimal_le (mkDec false (spec_ratePerSecond rate) (-27)) (linear_rps_value rate) = true
  /\ Decimal_le (linear_rps_value rate)
                (mkDec false ((spec_ratePerSecond rate + 1) * 10 ^ 8 - 1) (-35)) = true.
Proof.
  intros H. destruct (Z.eq_dec rate 0) as [->|Hn]; [split; vm_compute; reflexivity|].
  destruct (spec_ratePerSecond_bounds rate ltac:(lia)) as (Hm0 & Hlo & Hhi).
  set (m := spec_ratePerSecond rate) in *. clearbody m.
  assert (E26 : 10 ^ 26 = 100000000000000000000000000) by reflexivity.
  assert (E23 : 10 ^ 23 = 100000000000000000000000) by reflexivity.
  assert (E50 : 10 ^ prec = 100000000000000000000000000000000000000000000000000)
    by reflexivity.
  assert (E8 : 10 ^ 8 = 100000000) by reflexivity.
  assert (E31 : 10 ^ 31 = 10000000000000000000000000000000) by reflexivity.
  destruct (rate_over_10000 rate ltac:(lia)) as (Hq & Sq & Pq).
  unfold linear_rps_value. split.
  - apply quotient_lower;
      [exact Sq | exact Pq | reflexivity | reflexivity | unfold wf; cbn [coeff]; lia | |].
    + cbn [coeff]. destruct (Z.eq_dec m 0) as [->|]; [now left|right].
      apply ndigits_le_iff; [lia | unfold prec; lia | lia].
    + apply (Decimal_le_compat _ _ (mkDec false rate (-4)) _ (deq_refl _) (deq_sym _ _ Hq)).
      apply (Decimal_le_at _ _ (-27)); [cbn; lia | cbn; lia |].
      unfold aligned. rewrite sval_mul_exact. unfold sval; cbn [sign coeff exp mul_exact SECONDS_IN_YEAR].
      change (10 ^ (-27 + 0 - -27)) with 1. change (10 ^ (-4 - -27)) with (10 ^ 23). lia.
  - apply quotient_upper;
      [exact Sq | exact Pq | reflexivity | reflexivity | unfold wf; cbn [coeff]; lia | |].
    + cbn [coeff]. right. apply ndigits_le_iff; [lia | unfold prec; lia | lia].
    + apply (Decimal_le_compat (mkDec false rate (-4)) _ _ _ (deq_sym _ _ Hq) (deq_refl _)).
      apply (Decimal_le_at _ _ (-35)); [cbn; lia | cbn; lia |].
      unfold aligned. rewrite sval_mul_exact. unfold sval; cbn [sign coeff exp mul_exact SECONDS_IN_YEAR].
      change (10 ^ (-35 + 0 - -35)) with 1. change (10 ^ (-4 - -35)) with (10 ^ 31). lia.
Qed.

Lemma contract_rps_scaled (rate_bps : Z) :
  contract_rps_value rate_bps ==d scaleb (linear_rps_value rate_bps) 27.
Proof.
  eapply deq_trans; [apply rate_paths_deq|]. rewrite exact_rps_scaled. reflexivity.
Qed.

(** X8.  The script's "contract" rate per second, a 50-digit decimal, floors
    to the integer the contract stores,
    [(rate * RAY / 10000) / 365 days] in integer arithmetic: for every rate
    from 0 to 10^26 bps it is at least that integer and less than the next
    one. *)
Theorem script_rate_floors_to_contract_rate (rate_bps : Z) :
  0 <= rate_bps < 10 ^ 26 ->
  exists r,
    contract_rate_per_second rate_bps = Ok r
    /\ Decimal_le (Decimal_of_int (spec_ratePerSecond rate_bps)) r = true
    /\ Decimal_lt r (Decimal_of_int (spec_ratePerSecond rate_bps + 1)) = true
    /\ Decimal_floor r = spec_ratePerSecond rate_bps.
Proof.
  intros H. rewrite contract_rate_per_second_ok. eexists. split; [reflexivity|].
  destruct (linear_rps_between rate_bps H) as [Hlo Hhi].
  destruct (spec_ratePerSecond_bounds rate_bps ltac:(lia)) as (Hm0 & _ & _).
  set (m := spec_ratePerSecond rate_bps) in *. clearbody m.
  pose proof (deq_sym _ _ (contract_rps_scaled rate_bps)) as Hs.
  assert (Em : Decimal_of_int m = scaleb (mkDec false m (-27)) 27).
  { unfold Decimal_of_int, scaleb; cbn [sign coeff exp].
    destruct (Z.ltb_spec m 0); [lia|]. rewrite Z.abs_eq by lia. reflexivity. }
  assert (L : Decimal_le (Decimal_of_int m) (contract_rps_value rate_bps) = true).
  { rewrite Em.
    apply (Decimal_le_compat _ _ _ _ (deq_refl _) Hs). now apply scaleb_mono. }
  assert (U : Decimal_le (contract_rps_value rate_bps)
                         (mkDec false ((m + 1) * 10 ^ 8 - 1) (-8)) = true).
  { apply (Decimal_le_compat _ _ _ _ Hs (deq_refl _)).
    apply (scaleb_mono _ _ 27) in Hhi. exact Hhi. }
  assert (E8 : 10 ^ 8 = 100000000) by reflexivity.
  assert (U' : Decimal_lt (mkDec false ((m + 1) * 10 ^ 8 - 1) (-8)) (Decimal_of_int (m + 1)) = true).
  { apply (Decimal_lt_at _ _ (-8)); [cbn; lia | cbn; lia |].
    unfold aligned. rewrite sval_Decimal_of_int. unfold sval; cbn [sign coeff exp Decimal_of_int].
    change (10 ^ (-8 - -8)) with 1. change (10 ^ (0 - -8)) with (10 ^ 8). lia. }
  split; [exact L|]. split; [exact (Decimal_le_lt_trans _ _ _ U U')|].
  apply Decimal_floor_mono in L. apply Decimal_floor_mono in U.
  rewrite Decimal_floor_of_int in L.
  assert (F : Decimal_floor (mkDec false ((m + 1) * 10 ^ 8 - 1) (-8)) = m).
  { unfold Decimal_floor, sval; cbn [sign coeff exp]. change (0 <=? -8) with false. cbv iota.
    change (10 ^ (- -8)) with (10 ^ 8). rewrite E8.
    symmetry. apply (Z.div_unique _ _ m 99999999); lia. }
  lia.
Qed.

Lemma script_rate_floors_to_contract_rate_witness :
  0 <= 1000 < 10 ^ 26 /\
  exists r,
    contract_rate_per_second 1000 = Ok r
    /\ Decimal_le (Decimal_of_int (spec_ratePerSecond 1000)) r = true
    /\ Decimal_lt r (Decimal_of_int (spec_ratePerSecond 1000 + 1)) = true
    /\ Decimal_floor r = spec_ratePerSecond 1000.
Proof.
  assert (H : 0 <= 1000 < 10 ^ 26) by (split; [lia | reflexivity]).
  split; [exact H|]. exact (script_rate_floors_to_contract_rate 1000 H).
Defined.

(** ** The recorded contract factors against the Python linear factor *)

Lemma Decimal_mul_comm (a b : Decimal) : Decimal_mul a b = Decimal_mul b a.
Proof.
  unfold Decimal_mul. f_equal. unfold mul_exact.
  f_equal; [apply xorb_comm | lia | lia].
Qed.

Lemma Decimal_mul_mono_l (r a b : Decimal) :
  wf r -> wf a -> wf b -> 0 <= sval r -> Decimal_le a b = true ->
  Decimal_le (Decimal_mul a r) (Decimal_mul b r) = true.
Proof.
  intros. rewrite (Decimal_mul_comm a), (Decimal_mul_comm b). now apply Decimal_mul_mono_r.
Qed.

(** The linear factor of an integer rate per second [k] (in units of 1e-27)
    is the contract's integer growth factor [RAY + k * period] divided by
    RAY. *)
Lemma recorded_factor_value (k period : Z) :
  0 <= k -> 0 <= period -> k * period < 10 ^ prec ->
  Decimal_add D1 (Decimal_mul (mkDec false k (-27)) (Decimal_of_int period))
  = Decimal_fix (scaleb (Decimal_of_int (spec_growthFactor k period)) (-27)).
Proof.
  intros Hk Hp Hkp.
  assert (Hkp0 : 0 <= k * period) by nia.
  assert (E : Decimal_mul (mkDec false k (-27)) (Decimal_of_int period)
              = mkDec false (k * period) (-27)).
  { unfold Decimal_mul.
    replace (mul_exact (mkDec false k (-27)) (Decimal_of_int period))
      with (mkDec false (k * period) (-27)).
    - apply fits_fix; [exact Hkp0|]. cbn [coeff].
      destruct (Z.eq_dec (k * period) 0) as [->|]; [now left|right].
      apply ndigits_le_iff; [lia | unfold prec; lia | exact Hkp].
    - unfold mul_exact, Decimal_of_int; cbn [sign coeff exp].
      destruct (Z.ltb_spec period 0); [lia|]. rewrite Z.abs_eq by lia. reflexivity. }
  rewrite E. unfold Decimal_add. f_equal.
  assert (E27 : 10 ^ 27 = 1000000000000000000000000000) by reflexivity.
  unfold add_exact, scaleb, Decimal_of_int, spec_growthFactor, RAY_int, aligned, sval.
  cbn [sign coeff exp D1]. change (Z.min 0 (-27)) with (-27).
  change (10 ^ (0 - -27)) with (10 ^ 27). change (10 ^ (-27 - -27)) with 1.
  change (0 + -27) with (-27). rewrite !Z.mul_1_l, !Z.mul_1_r.
  destruct (Z.eqb_spec (10 ^ 27 + k * period) 0); [lia|].
  rewrite Z.abs_eq by lia. reflexivity.
Qed.

(** X10.  A recorded contract growth factor [RAY + ratePerSecond * period],
    with the contract's integer rate per second, never exceeds the Python
    linear factor of the same rate and period, and the factor of the next
    integer rate per second is never below it: the difference column of
    [analyze_contract_linear_growth_factors] is the effect of flooring the
    rate per second. *)
Theorem recorded_contract_factor_brackets_linear_factor (rate_bps period_sec : Z) :
  0 <= rate_bps < 10 ^ 18 -> 0 <= period_sec < 10 ^ 16 ->
  exists c p d c',
    contract_linear_row rate_bps period_sec
      (spec_growthFactor (spec_ratePerSecond rate_bps) period_sec) = Ok (c, p, d)
    /\ Decimal_truediv
         (Decimal_of_int (spec_growthFactor (spec_ratePerSecond rate_bps + 1) period_sec))
         RAY = Ok c'
    /\ Decimal_le c p = true /\ Decimal_le p c' = true.
Proof.
  intros Hr Hp.
  assert (E18 : 10 ^ 18 = 1000000000000000000) by reflexivity.
  assert (E16 : 10 ^ 16 = 10000000000000000) by reflexivity.
  assert (E26 : 10 ^ 26 = 100000000000000000000000000) by reflexivity.
  assert (E23 : 10 ^ 23 = 100000000000000000000000) by reflexivity.
  assert (E8 : 10 ^ 8 = 100000000) by reflexivity.
  assert (E50 : 10 ^ prec = 100000000000000000000000000000000000000000000000000)
    by reflexivity.
  destruct (linear_rps_between rate_bps ltac:(lia)) as [Hlo Hhi].
  destruct (spec_ratePerSecond_bounds rate_bps ltac:(lia)) as (Hm0 & Hm1 & _).
  unfold contract_linear_row.
  rewrite !Decimal_truediv_ok by (vm_compute; discriminate). cbn [bind].
  rewrite calculate_linear_growth_factor_ok. cbn [bind].
  do 4 eexists. split; [reflexivity|]. split; [reflexivity|].
  set (m := spec_ratePerSecond rate_bps) in *. clearbody m.
  set (lr := linear_rps_value rate_bps) in *.
  assert (Wlr : wf lr) by apply linear_rps_wf. clearbody lr.
  assert (Hm34 : m + 1 <= 10000000000000000000000000000000000) by lia.
  assert (B0 : m * period_sec < 10 ^ prec /\ (m + 1) * period_sec < 10 ^ prec).
  { assert ((m + 1) * period_sec
            <= 10000000000000000000000000000000000 * 9999999999999999)
      by (apply Z.mul_le_mono_nonneg; lia).
    split; nia. }
  destruct B0 as [B1 B2].
  assert (WP : wf (Decimal_of_int period_sec)) by apply Decimal_of_int_wf.
  assert (SP : 0 <= sval (Decimal_of_int period_sec)) by (rewrite sval_Decimal_of_int; lia).
  assert (Hhi' : Decimal_le lr (mkDec false (m + 1) (-27)) = true).
  { apply (Decimal_le_trans _ _ _ Hhi).
    apply (Decimal_le_at _ _ (-35)); [cbn; lia | cbn; lia |].
    unfold aligned, sval; cbn [sign coeff exp].
    change (10 ^ (-35 - -35)) with 1. change (10 ^ (-27 - -35)) with (10 ^ 8). lia. }
  set (p := Decimal_add D1 (Decimal_mul lr (Decimal_of_int period_sec))).
  split.
  - apply (Decimal_le_compat
             (Decimal_add D1 (Decimal_mul (mkDec false m (-27)) (Decimal_of_int period_sec)))
             _ p p); [| apply deq_refl |].
    + rewrite recorded_factor_value by lia.
      apply deq_sym, quotient_RAY_deq, Decimal_of_int_wf.
    + apply Decimal_add_mono_r. apply Decimal_mul_mono_l; auto; unfold wf; cbn; lia.
  - apply (Decimal_le_compat p p
             (Decimal_add D1 (Decimal_mul (mkDec false (m + 1) (-27))
                                          (Decimal_of_int period_sec)))
             _); [apply deq_refl | |].
    + rewrite recorded_factor_value by lia.
      apply deq_sym, quotient_RAY_deq, Decimal_of_int_wf.
    + apply Decimal_add_mono_r. apply Decimal_mul_mono_l; auto; unfold wf; cbn; lia.
Qed.

Lemma recorded_contract_factor_brackets_linear_factor_witness :
  0 <= 1000 < 10 ^ 18 /\ 0 <= 86400 < 10 ^ 16 /\
  exists c p d c',
    contract_linear_row 1000 86400
      (spec_growthFactor (spec_ratePerSecond 1000) 86400) = Ok (c, p, d)
    /\ Decimal_truediv
         (Decimal_of_int (spec_growthFactor (spec_ratePerSecond 1000 + 1) 86400))
         RAY = Ok c'
    /\ Decimal_le c p = true /\ Decimal_le p c' = true.
Proof.
  assert (H1 : 0 <= 1000 < 10 ^ 18) by (split; [lia | reflexivity]).
  assert (H2 : 0 <= 86400 < 10 ^ 16) by (split; [lia | reflexivity]).
  split; [exact H1|]. split; [exact H2|].
  exact (recorded_contract_factor_brackets_linear_factor 1000 86400 H1 H2).
Defined.

(** ** The linear factor between two exact decimals *)

Lemma Decimal_lt_le_trans (a b c : Decimal) :
  Decimal_lt a b = true -> Decimal_le b c = true -> Decimal_lt a c = true.
Proof.
  intros H1 H2. set (m := Z.min (exp a) (Z.min (exp b) (exp c))).
  apply (Decimal_lt_at a b m) in H1; [|lia|lia].
  apply (Decimal_le_at b c m) in H2; [|lia|lia].
  apply (Decimal_lt_at a c m); lia.
Qed.

Lemma recorded_factor_exact (k t : Z) :
  0 <= k -> 0 <= t -> 10 ^ 27 + k * t < 10 ^ prec ->
  Decimal_add D1 (Decimal_mul (mkDec false k (-27)) (Decimal_of_int t))
  = mkDec false (10 ^ 27 + k * t) (-27).
Proof.
  intros Hk Ht H.
  assert (P27 : 0 < 10 ^ 27) by (apply pow10_pos; lia).
  assert (Hkt : 0 <= k * t) by nia.
  rewrite recorded_factor_value by lia.
  unfold spec_growthFactor, RAY_int, Decimal_of_int, scaleb; cbn [sign coeff exp].
  destruct (Z.ltb_spec (10 ^ 27 + k * t) 0); [lia|].
  rewrite Z.abs_eq by lia. change (0 + -27) with (-27).
  apply fix_small; cbn [coeff]; [lia|].
  apply ndigits_le_iff; [lia | unfold prec; lia | exact H].
Qed.

(** The Python linear factor lies between the factor of the contract's
    integer rate per second and the factor of that rate plus one. *)
Lemma linear_factor_between (rate t : Z) :
  0 <= rate < 10 ^ 18 -> 0 <= t < 10 ^ 16 ->
  Decimal_le (mkDec false (10 ^ 27 + spec_ratePerSecond rate * t) (-27))
             (Decimal_add D1 (Decimal_mul (linear_rps_value rate) (Decimal_of_int t))) = true
  /\ Decimal_le (Decimal_add D1 (Decimal_mul (linear_rps_value rate) (Decimal_of_int t)))
                (mkDec false (10 ^ 27 + (spec_ratePerSecond rate + 1) * t) (-27)) = true.
Proof.
  intros Hr Ht.
  assert (E18 : 10 ^ 18 = 1000000000000000000) by reflexivity.
  assert (E16 : 10 ^ 16 = 10000000000000000) by reflexivity.
  assert (E26 : 10 ^ 26 = 100000000000000000000000000) by reflexivity.
  assert (E23 : 10 ^ 23 = 100000000000000000000000) by reflexivity.
  assert (E27 : 10 ^ 27 = 1000000000000000000000000000) by reflexivity.
  assert (E8 : 10 ^ 8 = 100000000) by reflexivity.
  assert (E50 : 10 ^ prec = 100000000000000000000000000000000000000000000000000)
    by reflexivity.
  destruct (linear_rps_between rate ltac:(lia)) as [Hlo Hhi].
  destruct (spec_ratePerSecond_bounds rate ltac:(lia)) as (Hm0 & Hm1 & _).
  set (m := spec_ratePerSecond rate) in *. clearbody m.
  set (lr := linear_rps_value rate) in *.
  assert (Wlr : wf lr) by apply linear_rps_wf. clearbody lr.
  assert (Hm34 : m + 1 <= 10000000000000000000000000000000000) by lia.
  assert (B2 : (m + 1) * t <= 10000000000000000000000000000000000 * 9999999999999999)
    by (apply Z.mul_le_mono_nonneg; lia).
  assert (B1 : m * t <= (m + 1) * t) by nia.
  assert (B0 : 0 <= m * t) by nia.
  assert (WP : wf (Decimal_of_int t)) by apply Decimal_of_int_wf.
  assert (SP : 0 <= sval (Decimal_of_int t)) by (rewrite sval_Decimal_of_int; lia).
  assert (Hhi' : Decimal_le lr (mkDec false (m + 1) (-27)) = true).
  { apply (Decimal_le_trans _ _ _ Hhi).
    apply (Decimal_le_at _ _ (-35)); [cbn; lia | cbn; lia |].
    unfold aligned, sval; cbn [sign coeff exp].
    change (10 ^ (-35 - -35)) with 1. change (10 ^ (-27 - -35)) with (10 ^ 8). lia. }
  split.
  - rewrite <- (recorded_factor_exact m t) by lia.
    apply Decimal_add_mono_r. apply Decimal_mul_mono_l; auto; unfold wf; cbn; lia.
  - rewrite <- (recorded_factor_exact (m + 1) t) by lia.
    apply Decimal_add_mono_r. apply Decimal_mul_mono_l; auto; unfold wf; cbn; lia.
Qed.

Lemma spec_ratePerSecond_step (r1 r2 : Z) :
  0 <= r1 < r2 -> spec_ratePerSecond r1 + 2 <= spec_ratePerSecond r2.
Proof.
  intros H.
  destruct (spec_ratePerSecond_bounds r1 ltac:(lia)) as (_ & H1 & _).
  destruct (spec_ratePerSecond_bounds r2 ltac:(lia)) as (_ & _ & H2).
  assert (E23 : 10 ^ 23 = 100000000000000000000000) by reflexivity.
  rewrite E23 in *. lia.
Qed.


Lemma Decimal_lt_same_exp (c1 c2 e : Z) :
  c1 < c2 -> Decimal_lt (mkDec false c1 e) (mkDec false c2 e) = true.
Proof.
  intros H. apply (Decimal_lt_at _ _ e); cbn [exp]; [lia|lia|].
  unfold aligned, sval; cbn [sign coeff exp]. replace (e - e) with 0 by lia.
  change (10 ^ 0) with 1. lia.
Qed.


(** The linear factor is strictly increasing in the rate. *)
Lemma linear_factor_strict_in_rate (r1 r2 t : Z) :
  0 <= r1 < r2 -> r2 < 10 ^ 18 -> 0 < t < 10 ^ 16 ->
  Decimal_lt (Decimal_add D1 (Decimal_mul (linear_rps_value r1) (Decimal_of_int t)))
             (Decimal_add D1 (Decimal_mul (linear_rps_value r2) (Decimal_of_int t))) = true.
Proof.
  intros Hr H2 Ht.
  destruct (linear_factor_between r1 t ltac:(lia) ltac:(lia)) as [_ U1].
  destruct (linear_factor_between r2 t ltac:(lia) ltac:(lia)) as [L2 _].
  pose proof (spec_ratePerSecond_step r1 r2 Hr) as Hm.
  set (m1 := spec_ratePerSecond r1) in *. set (m2 := spec_ratePerSecond r2) in *.
  clearbody m1 m2.
  eapply Decimal_lt_le_trans; [|exact L2].
  eapply Decimal_le_lt_trans; [exact U1|].
  apply Decimal_lt_same_exp. nia.
Qed.

(** ** Strict growth of the linear factor *)



(** ** Nothing is validated, nothing is clamped *)

(** C7 (as the code has it).  The model functions validate nothing.  For
    every rate below 10^26 basis points and every time below 10^16 seconds in
    absolute value, negative or above the cap included:
    [calculate_linear_growth_factor] raises nothing and returns the decimal
    [1 + rate / 10000 / SECONDS_IN_YEAR * time] of the 50-digit arithmetic;
    for a non-negative rate below 10^18 and a non-negative time that decimal
    lies between [1 + k * time / 10^27] and [1 + (k + 1) * time / 10^27] for
    the integer rate per second [k], and for a positive time it is strictly
    larger at every larger rate, above the cap as below (nothing is
    clamped); the contract rate per second is returned with the sign of the
    rate and is not zero unless the rate is; and
    [calculate_continuous_compounding_factor] always reaches [math.exp] with
    the exponent [rate / 10000 / SECONDS_IN_YEAR * time]. *)
Theorem model_functions_do_not_validate (rate_bps time_seconds : Z) :
  Z.abs rate_bps < 10 ^ 26 -> Z.abs time_seconds < 10 ^ 16 ->
  (exists v, calculate_linear_growth_factor rate_bps time_seconds = Ok v /\ wf v
             /\ v = Decimal_add D1
                      (Decimal_mul (quotient (quotient (Decimal_of_int rate_bps) D10000)
                                             SECONDS_IN_YEAR)
                                   (Decimal_of_int time_seconds)))
  /\ (0 <= rate_bps < 10 ^ 18 -> 0 <= time_seconds ->
      exists v, calculate_linear_growth_factor rate_bps time_seconds = Ok v
        /\ Decimal_le (mkDec false (10 ^ 27 + spec_ratePerSecond rate_bps * time_seconds)
                              (-27)) v = true
        /\ Decimal_le v (mkDec false
                           (10 ^ 27 + (spec_ratePerSecond rate_bps + 1) * time_seconds)
                           (-27)) = true)
  /\ (forall rate', 0 <= rate_bps < rate' -> rate' < 10 ^ 18 -> 0 < time_seconds ->
      exists v v',
        calculate_linear_growth_factor rate_bps time_seconds = Ok v
        /\ calculate_linear_growth_factor rate' time_seconds = Ok v'
        /\ Decimal_lt v v' = true)
  /\ (exists r, contract_rate_per_second rate_bps = Ok r
                /\ sign r = (rate_bps <? 0)
                /\ (rate_bps <> 0 -> 0 < coeff r))
  /\ (forall F : FloatLib,
        calculate_continuous_compounding_factor F rate_bps time_seconds
        = (x <- math_exp F (float_of_Decimal F
                              (Decimal_mul (linear_rps_value rate_bps)
                                           (Decimal_of_int time_seconds))) ;;
           Ok (Decimal_of_float_str F x))).
Proof.
  intros _ Ht. split; [|split; [|split; [|split]]].
  - rewrite calculate_linear_growth_factor_ok. eexists. split; [reflexivity|].
    split; [apply Decimal_add_wf | reflexivity].
  - intros Hr H0. rewrite calculate_linear_growth_factor_ok. eexists.
    split; [reflexivity|]. apply linear_factor_between; lia.
  - intros rate' Hr Hr' H0. rewrite !calculate_linear_growth_factor_ok.
    do 2 eexists. split; [reflexivity|]. split; [reflexivity|].
    apply linear_factor_strict_in_rate; lia.
  - rewrite contract_rate_per_second_ok. eexists. split; [reflexivity|].
    split; [apply contract_rps_sign | apply contract_rps_nonzero].
  - intros F. apply calculate_continuous_compounding_factor_unfold.
Qed.

Lemma model_functions_do_not_validate_witness :
  Z.abs (-1000) < 10 ^ 26 /\ Z.abs (-86400) < 10 ^ 16 /\
  exists r, contract_rate_per_second (-1000) = Ok r
            /\ sign r = (-1000 <? 0)
            /\ (-1000 <> 0 -> 0 < coeff r).
Proof.
  assert (H1 : Z.abs (-1000) < 10 ^ 26) by reflexivity.
  assert (H2 : Z.abs (-86400) < 10 ^ 16) by reflexivity.
  split; [exact H1|]. split; [exact H2|].
  exact (proj1 (proj2 (proj2 (proj2 (model_functions_do_not_validate (-1000) (-86400) H1 H2))))).
Defined.
